(** * SkyLine: footprints on the sky and the greedy mosaic

    A shallow embedding of [lib/skyline.py] (classes [SkyLineMember] and
    [SkyLine]).  Python objects live in a store and are named by references,
    because the module compares objects by identity ([in], [list.remove]) and
    copies polygons on assignment.  The geometry collaborator
    ([sphere.polygon.SphericalPolygon]) is a parameter of the development. *)

From Stdlib Require Import ZArith Bool List Permutation Lia.
From Stdlib Require Import Floats.SpecFloat.
From stdpp Require Import base list strings.

Set Default Proof Using "Type".
Open Scope Z_scope.
Open Scope nat_scope.

(** ** Python floats

    Areas are Python floats, that is IEEE binary64 values.  Only the literal
    [0.0] and the comparison [>] are used by the module; both are taken from
    the standard specification of floating-point numbers. *)

Module PyFloat.

Definition float := spec_float.

(** The literal [0.0]. *)
Definition zero : float := S754_zero false.

(** [x > y] on floats: false as soon as one side is a NaN. *)
Definition gt (x y : float) : bool := SFltb y x.

(** [x == y] on floats. *)
Definition eqb (x y : float) : bool := SFeqb x y.

(** [0.0 <= x]: what the geometry library promises of an area. *)
Definition nonneg (x : float) : bool := SFleb zero x.

Definition is_nan (x : float) : bool :=
  match x with S754_nan => true | _ => false end.

(** The binary64 value of a positive integer below [2^53]. *)
Definition of_pos (p : positive) : float :=
  let d := Z.pos (digits2_pos p) in
  S754_finite false (Pos.shiftl p (Z.to_N (53 - d))) (d - 53).

Definition of_nat (n : nat) : float :=
  match n with
  | O => zero
  | S _ => of_pos (Pos.of_nat n)
  end.

End PyFloat.

Abbreviation float := PyFloat.float.

(** ** Exceptions and results *)

(** The exceptions that matter to the module: [ValueError] and
    [AssertionError] are the two classes named by its [except] clauses,
    [AttributeError] is raised by attribute access on an object of the wrong
    kind, [OtherError] stands for every exception outside these classes. *)
Inductive exn : Type :=
| ValueError
| AssertionError
| AttributeError
| OtherError.

(** [except (ValueError, AssertionError)]. *)
Definition caught (e : exn) : bool :=
  match e with
  | ValueError | AssertionError => true
  | _ => false
  end.

Inductive result (A : Type) : Type :=
| Ok (a : A)
| Raise (e : exn).

Arguments Ok {A} a.
Arguments Raise {A} e.

#[global] Instance result_ret : MRet result := @Ok.
#[global] Instance result_bind : MBind result :=
  fun A B f r => match r with Ok a => f a | Raise e => Raise e end.

Fixpoint mapR {A B : Type} (f : A -> result B) (l : list A) : result (list B) :=
  match l with
  | [] => Ok []
  | x :: l' => y ← f x; ys ← mapR f l'; Ok (y :: ys)
  end.

(** ** The geometry collaborator

    [sphere/polygon.py] is not part of the sources; [SphericalPolygon] is
    taken as an interface.  [union] and [intersection] build a new polygon
    and may raise; [area] is called inside the same [try] block as
    [intersection]. *)

Module SphericalPolygon.

Class lib : Type := {
  Polygon : Type;
  Point : Type;
  (** [SphericalPolygon(points)] *)
  make : list Point -> Polygon;
  (** the [points] attribute *)
  points : Polygon -> list Point;
  union : Polygon -> Polygon -> result Polygon;
  intersection : Polygon -> Polygon -> result Polygon;
  area : Polygon -> result float;
  intersects_poly : Polygon -> Polygon -> bool
}.

End SphericalPolygon.

Abbreviation Polygon := SphericalPolygon.Polygon.

(** ** Objects and the store *)

(** A reference names an object; [is] on objects is equality of references. *)
Abbreviation ref := nat.

Module SkyLineMember.

(** The attributes of a [SkyLineMember] instance. *)
Record instance {WCS : Type} : Type := {
  _fname : string;
  _ext : list nat;
  _wcs : WCS;
  _polygon : ref
}.

Arguments instance : clear implicits.

End SkyLineMember.

Module SkyLine.

(** The attributes of a [SkyLine] instance; an attribute is [None] until
    [__init__] has assigned it. *)
Record instance : Type := {
  _polygon : option ref;
  _members : option (list ref)
}.

End SkyLine.

Section Model.

Context {WCS : Type} {G : SphericalPolygon.lib}.

Inductive pyobj : Type :=
| ObjPolygon (p : Polygon)
| ObjMember (m : SkyLineMember.instance WCS)
| ObjSkyLine (s : SkyLine.instance).

Local Abbreviation store := (list pyobj).

(** Computations that read and write the store and may raise.  The store
    is returned in both cases: what was written before an exception stays
    written. *)
Definition M (A : Type) : Type := store -> result A * store.

Definition ret {A : Type} (a : A) : M A := fun h => (Ok a, h).

Definition bind {A B : Type} (m : M A) (f : A -> M B) : M B :=
  fun h => match m h with
           | (Ok a, h') => f a h'
           | (Raise e, h') => (Raise e, h')
           end.

Definition raise {A : Type} (e : exn) : M A := fun h => (Raise e, h).

(** A computation that only reads the store. *)
Definition reads {A : Type} (f : store -> result A) : M A := fun h => (f h, h).

(** A new object gets the next free reference. *)
Definition alloc (o : pyobj) : M ref := fun h => (Ok (length h), h ++ [o]).

Definition write (r : ref) (o : pyobj) : M unit := fun h => (Ok tt, <[r := o]> h).

(** [assert b] *)
Definition py_assert (b : bool) : M unit :=
  if b then ret tt else raise AssertionError.

(** [try: m] with the outcome handed to the handler as a value. *)
Definition attempt {A : Type} (m : M A) : M (result A) :=
  fun h => let '(r, h') := m h in (Ok r, h').

Fixpoint for_ {A : Type} (l : list A) (body : A -> M unit) : M unit :=
  match l with
  | [] => ret tt
  | x :: l' => bind (body x) (fun _ => for_ l' body)
  end.

End Model.

Arguments pyobj : clear implicits.
Arguments M : clear implicits.

(** The store: the objects allocated so far, each at its reference. *)
Abbreviation store WCS G := (list (pyobj WCS G)).

Declare Scope py_scope.
Delimit Scope py_scope with py.
Notation "x <- m ;; k" := (bind m (fun x => k))
  (at level 100, m at next level, right associativity) : py_scope.
Notation "m ;;; k" := (bind m (fun _ => k))
  (at level 100, right associativity) : py_scope.

(** ** The classes [SkyLineMember] and [SkyLine]

    Printing ([verbose], the warnings) is left out: it changes neither the
    store nor what is returned.  [SkyLineMember.__init__] reads a FITS file
    and is modelled further down, with the files; here member objects are
    given. *)

Section Classes.

Context {WCS : Type} {G : SphericalPolygon.lib}.

(** The module-level flag [SKYLINE_DEBUG] (set to [True] in the source). *)
Variable SKYLINE_DEBUG : bool.

Local Open Scope py_scope.

Definition isinstance_SphericalPolygon (h : store WCS G) (v : ref) : bool :=
  match h !! v with
  | Some (ObjPolygon _) => true
  | _ => false
  end.

Definition isinstance_SkyLineMember (h : store WCS G) (v : ref) : bool :=
  match h !! v with
  | Some (ObjMember _) => true
  | _ => false
  end.

(** The value of a polygon object. *)
Definition polygon_value (h : store WCS G) (p : ref) : result Polygon :=
  match h !! p with
  | Some (ObjPolygon v) => Ok v
  | _ => Raise AttributeError
  end.

(** [SkyLineMember.fname] *)
Definition SkyLineMember_fname (h : store WCS G) (m : ref) : result string :=
  match h !! m with
  | Some (ObjMember o) => Ok (SkyLineMember._fname o)
  | _ => Raise AttributeError
  end.

(** [SkyLineMember.polygon] *)
Definition SkyLineMember_polygon (h : store WCS G) (m : ref) : result ref :=
  match h !! m with
  | Some (ObjMember o) => Ok (SkyLineMember._polygon o)
  | _ => Raise AttributeError
  end.

(** [SkyLine.polygon], the getter: [return self._polygon]. *)
Definition polygon (h : store WCS G) (self : ref) : result ref :=
  match h !! self with
  | Some (ObjSkyLine o) =>
      match SkyLine._polygon o with
      | Some p => Ok p
      | None => Raise AttributeError
      end
  | _ => Raise AttributeError
  end.

(** [SkyLine.members], the getter: [return self._members]. *)
Definition members (h : store WCS G) (self : ref) : result (list ref) :=
  match h !! self with
  | Some (ObjSkyLine o) =>
      match SkyLine._members o with
      | Some ms => Ok ms
      | None => Raise AttributeError
      end
  | _ => Raise AttributeError
  end.

(** [self._polygon = v] *)
Definition set__polygon (self v : ref) : M WCS G unit :=
  fun h =>
    match h !! self with
    | Some (ObjSkyLine o) =>
        write self (ObjSkyLine {| SkyLine._polygon := Some v;
                                  SkyLine._members := SkyLine._members o |}) h
    | _ => (Raise AttributeError, h)
    end.

(** [self._members = ms]; also stands for [self._members.append], the list
    being owned by the instance. *)
Definition set__members (self : ref) (ms : list ref) : M WCS G unit :=
  fun h =>
    match h !! self with
    | Some (ObjSkyLine o) =>
        write self (ObjSkyLine {| SkyLine._polygon := SkyLine._polygon o;
                                  SkyLine._members := Some ms |}) h
    | _ => (Raise AttributeError, h)
    end.

(** Modelled from the spec: [copy(value)] on a [SphericalPolygon], whose
    [__copy__] is defined in [sphere/polygon.py], absent from the sources.
    The setter's comment says "Deep copy" and the spec says the footprint
    holds an independent copy: a new polygon object with the same value. *)
Definition copy (value : ref) : M WCS G ref :=
  fun h =>
    match h !! value with
    | Some (ObjPolygon p) => alloc (ObjPolygon p) h
    | _ => (Raise OtherError, h)
    end.

(** [SkyLine.polygon], the setter:
    [assert isinstance(value, SphericalPolygon); self._polygon = copy(value)] *)
Definition polygon_setter (self value : ref) : M WCS G unit :=
  b <- reads (fun h => Ok (isinstance_SphericalPolygon h value));;
  py_assert b;;;
  c <- copy value;;
  set__polygon self c.

(** The body of the loop of the [members] setter.  [v not in self._members]
    compares with [==], which is identity for [SkyLineMember]: the class
    defines no [__eq__]. *)
Definition members_setter_body (self v : ref) : M WCS G unit :=
  b <- reads (fun h => Ok (isinstance_SkyLineMember h v));;
  py_assert b;;;
  ms <- reads (fun h => members h self);;
  if bool_decide (v ∈ ms) then ret tt
  else set__members self (ms ++ [v]).

(** [SkyLine.members], the setter. *)
Definition members_setter (self : ref) (values : list ref) : M WCS G unit :=
  set__members self [];;;
  for_ values (members_setter_body self).

(** [SkyLine.__init__].  [member] is [None] for [SkyLine(None)]; for
    [SkyLine(fname)] it is the object made by [SkyLineMember(fname, extname)],
    which reads the file and is left to the caller. *)
Definition SkyLine__init__ (member : option ref) : M WCS G ref :=
  self <- alloc (ObjSkyLine {| SkyLine._polygon := None;
                               SkyLine._members := None |});;
  members_setter self (match member with Some m => [m] | None => [] end);;;
  ms <- reads (fun h => members h self);;
  match ms with
  | [] =>
      e <- alloc (ObjPolygon (SphericalPolygon.make []));;
      polygon_setter self e
  | [m] =>
      p <- reads (fun h => SkyLineMember_polygon h m);;
      c <- copy p;;
      polygon_setter self c
  | _ => raise ValueError
  end;;;
  ret self.

(** The polygon an attribute of [self] is delegated to by [__getattr__]:
    [getattr(self.polygon, what)]. *)
Definition poly_of (h : store WCS G) (self : ref) : result Polygon :=
  p ← polygon h self; polygon_value h p.

(** [SkyLine._rough_id] *)
Definition _rough_id (h : store WCS G) (self : ref) : result (option string) :=
  ms ← members h self;
  match ms with
  | m :: _ => f ← SkyLineMember_fname h m; Ok (Some f)
  | [] => Ok None
  end.

Fixpoint filterR {A : Type} (f : A -> result bool) (l : list A) : result (list A) :=
  match l with
  | [] => Ok []
  | x :: l' =>
      b ← f x; r ← filterR f l';
      Ok (if b : bool then x :: r else r)
  end.

(** The polygon of a member, as [intersects_poly] reads it: the value of
    [m.polygon]. *)
Definition SkyLineMember_polygon_value (h : store WCS G) (m : ref) : result Polygon :=
  mp ← SkyLineMember_polygon h m; polygon_value h mp.

(** [SkyLine._find_members] *)
Definition _find_members (h : store WCS G) (self : ref) (given_members : list ref)
  : result (list ref) :=
  p ← poly_of h self;
  if 0 <? length (SphericalPolygon.points p) then
    filterR (fun m =>
               q ← SkyLineMember_polygon_value h m;
               Ok (SphericalPolygon.intersects_poly p q))
            given_members
  else Ok [].

(** [self.union(other)]: a new polygon object. *)
Definition SkyLine_union (self other : ref) : M WCS G ref :=
  u <- reads (fun h => a ← poly_of h self; b ← poly_of h other;
                       SphericalPolygon.union a b);;
  alloc (ObjPolygon u).

(** [self.intersection(other)]: a new polygon object. *)
Definition SkyLine_intersection (self other : ref) : M WCS G ref :=
  i <- reads (fun h => a ← poly_of h self; b ← poly_of h other;
                       SphericalPolygon.intersection a b);;
  alloc (ObjPolygon i).

(** [SkyLine.add_image] *)
Definition add_image (self other : ref) : M WCS G ref :=
  newcls <- SkyLine__init__ None;;
  u <- SkyLine_union self other;;
  polygon_setter newcls u;;;
  ms <- reads (fun h => members h self);;
  mo <- reads (fun h => members h other);;
  members_setter newcls (ms ++ mo);;;
  ret newcls.

(** [SkyLine.find_intersection] *)
Definition find_intersection (self other : ref) : M WCS G ref :=
  newcls <- SkyLine__init__ None;;
  i <- SkyLine_intersection self other;;
  polygon_setter newcls i;;;
  ms <- reads (fun h => members h self);;
  mo <- reads (fun h => members h other);;
  found <- reads (fun h => _find_members h newcls (ms ++ mo));;
  members_setter newcls found;;;
  ret newcls.

(** The body of the [try] block of [find_max_overlap]:
    [self.intersection(next_s).area()].  The intersection is a temporary
    that no reference survives; it is not entered in the store. *)
Definition intersection_area (h : store WCS G) (self next_s : ref) : result float :=
  a ← poly_of h self;
  b ← poly_of h next_s;
  i ← SphericalPolygon.intersection a b;
  SphericalPolygon.area i.

(** The [try] statement of [find_max_overlap]: the value of [overlap_area]
    after it, or the exception that leaves it. *)
Definition overlap_area (h : store WCS G) (self next_s : ref) : result float :=
  match intersection_area h self next_s with
  | Ok a => Ok a
  | Raise e =>
      if caught e then
        if SKYLINE_DEBUG then Ok PyFloat.zero else Raise e
      else Raise e
  end.

(** The [for] loop of [find_max_overlap]. *)
Fixpoint find_max_overlap_loop (h : store WCS G) (self : ref) (skylines : list ref)
    (max_skyline : option ref) (max_overlap_area : float)
  : result (option ref * float) :=
  match skylines with
  | [] => Ok (max_skyline, max_overlap_area)
  | next_s :: rest =>
      a ← overlap_area h self next_s;
      if PyFloat.gt a max_overlap_area
      then find_max_overlap_loop h self rest (Some next_s) a
      else find_max_overlap_loop h self rest max_skyline max_overlap_area
  end.

(** [SkyLine.find_max_overlap] *)
Definition find_max_overlap (h : store WCS G) (self : ref) (skylines : list ref)
  : result (option ref * float) :=
  find_max_overlap_loop h self skylines None PyFloat.zero.

(** The [for i in xrange(len(skylines) - 1)] loop of [max_overlap_pair],
    over the indices still to visit. *)
Fixpoint max_overlap_pair_loop (h : store WCS G) (skylines : list ref)
    (indices : list nat) (max_pair : option (ref * option ref))
    (max_overlap_area : float) : result (option (ref * option ref)) :=
  match indices with
  | [] => Ok max_pair
  | i :: indices' =>
      match skylines !! i with
      | None => Raise OtherError
      | Some curr_s =>
          r ← find_max_overlap h curr_s (drop (S i) skylines);
          if PyFloat.gt (snd r) max_overlap_area
          then max_overlap_pair_loop h skylines indices'
                 (Some (curr_s, fst r)) (snd r)
          else max_overlap_pair_loop h skylines indices'
                 max_pair max_overlap_area
      end
  end.

(** [SkyLine.max_overlap_pair] *)
Definition max_overlap_pair (h : store WCS G) (skylines : list ref)
  : result (option (ref * option ref)) :=
  max_overlap_pair_loop h skylines (seq 0 (length skylines - 1)) None PyFloat.zero.

(** [list.remove(x)]: drops the first item equal to [x]; [ValueError] when
    there is none.  [SkyLine] defines no [__eq__]: equal means identical. *)
Fixpoint list_remove (x : ref) (l : list ref) : result (list ref) :=
  match l with
  | [] => Raise ValueError
  | y :: l' =>
      if bool_decide (y = x) then Ok l'
      else r ← list_remove x l'; Ok (y :: r)
  end.

(** The local variables of [mosaic] while it grows the mosaic. *)
Record locals : Type := {
  l_mosaic : ref;
  l_out_order : list (option string);
  l_excluded : list (option string);
  l_remaining : list ref
}.

(** How one pass through the body of the [while] loop ends. *)
Inductive control : Type :=
| Continue (st : locals)
| Break (st : locals).

(** The body of [while len(remaining) > 0].  The [try] statement is run to
    its outcome, then the [finally] clause, then the outcome takes effect. *)
Definition grow_step (st : locals) : M WCS G control :=
  r <- reads (fun h => find_max_overlap h (l_mosaic st) (l_remaining st));;
  match fst r with
  | None =>
      ids <- reads (fun h => mapR (_rough_id h) (l_remaining st));;
      ret (Break {| l_mosaic := l_mosaic st;
                    l_out_order := l_out_order st;
                    l_excluded := l_excluded st ++ ids;
                    l_remaining := l_remaining st |})
  | Some next_skyline =>
      outcome <- attempt (
        new_mos <- attempt (add_image (l_mosaic st) next_skyline);;
        match new_mos with
        | Raise e =>
            if caught e then
              if SKYLINE_DEBUG then
                id <- reads (fun h => _rough_id h next_skyline);;
                ret (l_mosaic st, l_out_order st, l_excluded st ++ [id])
              else raise e
            else raise e
        | Ok new_mos =>
            id <- reads (fun h => _rough_id h next_skyline);;
            ret (new_mos, l_out_order st ++ [id], l_excluded st)
        end);;
      remaining <- reads (fun _ => list_remove next_skyline (l_remaining st));;
      match outcome with
      | Raise e => raise e
      | Ok (m, o, x) =>
          ret (Continue {| l_mosaic := m; l_out_order := o;
                           l_excluded := x; l_remaining := remaining |})
      end
  end.

(** The [while] loop, for at most [fuel] passes; [None] when the passes
    did not suffice. *)
Fixpoint grow_loop (fuel : nat) (st : locals) : M WCS G (option locals) :=
  match l_remaining st with
  | [] => ret (Some st)
  | _ :: _ =>
      match fuel with
      | O => ret None
      | S fuel' =>
          c <- grow_step st;;
          match c with
          | Break st' => ret (Some st')
          | Continue st' => grow_loop fuel' st'
          end
      end
  end.

(** What [mosaic] returns: [(mosaic, included, excluded)]. *)
Definition mosaic_result : Type :=
  option ref * list (option string) * list (option string).

(** [SkyLine.mosaic], its loop given [fuel] passes. *)
Definition mosaic_within (fuel : nat) (skylines : list ref)
  : M WCS G (option mosaic_result) :=
  starting_pair <- reads (fun h => max_overlap_pair h skylines);;
  match starting_pair with
  | None => ret (Some (None, [], []))
  | Some (s1, None) => raise AttributeError
  | Some (s1, Some s2) =>
      m <- add_image s1 s2;;
      id1 <- reads (fun h => _rough_id h s1);;
      id2 <- reads (fun h => _rough_id h s2);;
      remaining <- reads (fun _ => list_remove s1 skylines);;
      remaining <- reads (fun _ => list_remove s2 remaining);;
      final <- grow_loop fuel {| l_mosaic := m;
                                 l_out_order := [id1; id2];
                                 l_excluded := [];
                                 l_remaining := remaining |};;
      match final with
      | None => ret None
      | Some st => ret (Some (Some (l_mosaic st), l_out_order st, l_excluded st))
      end
  end.

(** [SkyLine.mosaic]: the loop never needs more passes than there are
    footprints. *)
Definition mosaic (skylines : list ref) : M WCS G (option mosaic_result) :=
  mosaic_within (length skylines) skylines.

End Classes.

(** ** Pure counterparts of the loops, used to state what they compute *)

(** What the loop of the [members] setter leaves in [self._members] when it
    starts from [acc]. *)
Fixpoint append_new (acc values : list ref) : list ref :=
  match values with
  | [] => acc
  | v :: values' =>
      if bool_decide (v ∈ acc) then append_new acc values'
      else append_new (acc ++ [v]) values'
  end.

(** The footprints of [l] other than [s1] and [s2]. *)
Definition others (s1 s2 : ref) (l : list ref) : list ref :=
  filter (fun s => s <> s2) (filter (fun s => s <> s1) l).

(** The overlap of [x] and [y] is computed and is not below [0.0]: the
    geometry library promises an area that is at least zero. *)
Definition has_area {WCS : Type} {G : SphericalPolygon.lib} (debug : bool)
    (h : store WCS G) (x y : ref) : Prop :=
  exists a, overlap_area debug h x y = Ok a /\ PyFloat.nonneg a = true.

(** The overlap of [x] and [y] is computed and is zero. *)
Definition no_overlap {WCS : Type} {G : SphericalPolygon.lib} (debug : bool)
    (h : store WCS G) (x y : ref) : Prop :=
  exists a, overlap_area debug h x y = Ok a /\ PyFloat.eqb a PyFloat.zero = true.

(** [P x y] for every [x] of [l] and every [y] after it. *)
Fixpoint all_pairs (P : ref -> ref -> Prop) (l : list ref) : Prop :=
  match l with
  | [] => True
  | x :: l' => Forall (P x) l' /\ all_pairs P l'
  end.

(** The loop of [max_overlap_pair] read along the list: what remains to be
    visited is [rest], the footprint at the current index and those after it;
    the last footprint is not visited. *)
Fixpoint pair_scan {WCS : Type} {G : SphericalPolygon.lib} (debug : bool)
    (h : store WCS G) (rest : list ref) (max_pair : option (ref * option ref))
    (max_overlap_area : float) : result (option (ref * option ref)) :=
  match rest with
  | [] => Ok max_pair
  | curr_s :: rest' =>
      match rest' with
      | [] => Ok max_pair
      | _ :: _ =>
          r ← find_max_overlap debug h curr_s rest';
          if PyFloat.gt (snd r) max_overlap_area
          then pair_scan debug h rest' (Some (curr_s, fst r)) (snd r)
          else pair_scan debug h rest' max_pair max_overlap_area
      end
  end.

(** ** Computations that leave the objects already there alone *)

(** Run from a store of at least [n] objects, [m] leaves the first [n]
    objects as they are, and what it returns satisfies [Q]. *)
Definition preserves {WCS : Type} {G : SphericalPolygon.lib} {A : Type}
    (n : nat) (m : M WCS G A) (Q : A -> Prop) : Prop :=
  forall h r h', n <= length h -> m h = (r, h') ->
    n <= length h' /\ take n h' = take n h /\ (forall a, r = Ok a -> Q a).

(** The postcondition that asks nothing of the result. *)
Definition any {A : Type} : A -> Prop := fun _ => True.

(** The identifier of a footprint; [None] also when [_rough_id] raises. *)
Definition rough_id_of {WCS : Type} {G : SphericalPolygon.lib}
    (h : store WCS G) (s : ref) : option string :=
  match _rough_id h s with
  | Ok i => i
  | Raise _ => None
  end.

(** ** The spec's words, for comparison with the code *)

(** Following the spec: "duplicates removed and first-occurrence order
    preserved". *)
Fixpoint first_occurrences (l : list ref) : list ref :=
  match l with
  | [] => []
  | x :: l' => x :: filter (fun y => y <> x) (first_occurrences l')
  end.

(** Following the spec: "two Members are equal iff source_id,
    region_selectors, and derived geometry match (value equality, not
    identity)". *)
Definition member_value_eq {WCS : Type} {G : SphericalPolygon.lib}
    (h : store WCS G) (m1 m2 : ref) : Prop :=
  exists o1 o2,
    h !! m1 = Some (ObjMember o1) /\ h !! m2 = Some (ObjMember o2) /\
    SkyLineMember._fname o1 = SkyLineMember._fname o2 /\
    SkyLineMember._ext o1 = SkyLineMember._ext o2 /\
    polygon_value h (SkyLineMember._polygon o1)
    = polygon_value h (SkyLineMember._polygon o2).

(** Following the spec: a member list "deduplicated by Member value
    equality" holds no two equal Members at different positions. *)
Definition deduplicated_by_value {WCS : Type} {G : SphericalPolygon.lib}
    (h : store WCS G) (ms : list ref) : Prop :=
  forall i j m1 m2,
    ms !! i = Some m1 -> ms !! j = Some m2 -> member_value_eq h m1 m2 -> i = j.

(** ** A geometry to run the model on

    Polygons are finite sets of grid cells, the area is the number of
    cells.  A polygon holding cell 99 is one on which [intersection] raises,
    a polygon holding cell 77 one on which [union] raises. *)

Module Cells.

Definition union (p q : list nat) : result (list nat) :=
  if bool_decide (77 ∈ q) then Raise ValueError
  else Ok (p ++ filter (fun c => c ∉ p) q).

Definition intersection (p q : list nat) : result (list nat) :=
  if bool_decide (99 ∈ q) then Raise ValueError
  else Ok (filter (fun c => c ∈ q) p).

Definition area (p : list nat) : result float := Ok (PyFloat.of_nat (length p)).

Definition intersects_poly (p q : list nat) : bool :=
  bool_decide (Exists (fun c => c ∈ q) p).

#[global] Instance geometry : SphericalPolygon.lib := {|
  SphericalPolygon.Polygon := list nat;
  SphericalPolygon.Point := nat;
  SphericalPolygon.make := fun pts => pts;
  SphericalPolygon.points := fun p => p;
  SphericalPolygon.union := union;
  SphericalPolygon.intersection := intersection;
  SphericalPolygon.area := area;
  SphericalPolygon.intersects_poly := intersects_poly
|}.

Local Open Scope py_scope.

(** [SkyLine(fname)] for an image whose footprint is [cells]: the polygon
    and the member that [SkyLineMember(fname, extname)] makes, then the
    constructor of the footprint. *)
Definition new_SkyLine (fname : string) (cells : list nat) : M unit geometry ref :=
  p <- alloc (ObjPolygon cells);;
  m <- alloc (ObjMember {| SkyLineMember._fname := fname;
                           SkyLineMember._ext := [1];
                           SkyLineMember._wcs := tt;
                           SkyLineMember._polygon := p |});;
  SkyLine__init__ (Some m).

(** The store after [SkyLine(fname)] for each image in turn; footprint
    number [i] is at reference [5 * i + 2], its member at [5 * i + 1]. *)
Fixpoint images (l : list (string * list nat)) (h : store unit geometry)
  : store unit geometry :=
  match l with
  | [] => h
  | (f, c) :: l' => images l' (snd (new_SkyLine f c h))
  end.

(** Two images whose footprints share the cells 2 and 3: footprints 2 and
    7, members 1 and 6. *)
Definition overlapping : store unit geometry :=
  Eval vm_compute in
  images [("a"%string, [1; 2; 3]); ("b"%string, [2; 3; 4])] [].

(** The same image opened twice: footprints 2 and 7, whose members 1 and 6
    are two objects with the same file name, extensions and polygon. *)
Definition opened_twice : store unit geometry :=
  Eval vm_compute in
  images [("a"%string, [1; 2]); ("a"%string, [1; 2])] [].

(** A footprint (2) and three candidates (7, 12, 17) that share five, five
    and three cells with it. *)
Definition tie : store unit geometry :=
  Eval vm_compute in
  images [("s"%string, [1; 2; 3; 4; 5; 6; 7; 8; 9; 10; 11; 12]);
          ("c0"%string, [1; 2; 3; 4; 5; 100]);
          ("c1"%string, [6; 7; 8; 9; 10; 101]);
          ("c2"%string, [10; 11; 12; 102])] [].

(** Three footprints (2, 7, 12) without a common cell. *)
Definition disjoint : store unit geometry :=
  Eval vm_compute in
  images [("a"%string, [1; 2]); ("b"%string, [3; 4]); ("c"%string, [5; 6])] [].

(** Four footprints (2, 7, 12, 17) of which only the first and the third
    overlap. *)
Definition single_pair : store unit geometry :=
  Eval vm_compute in
  images [("a"%string, [1; 2; 3]); ("b"%string, [10]);
          ("c"%string, [2; 3; 4]); ("d"%string, [20])] [].

(** Footprints [F1], [F2], [F3] that overlap by ten cells ([F1], [F2]),
    four cells ([F2], [F3]) and none ([F1], [F3]), and a footprint [F4]
    apart from them. *)
Definition growth : store unit geometry :=
  Eval vm_compute in
  images [("F1"%string, [1; 2; 3; 4; 5; 6; 7; 8; 9; 10; 11; 12]);
          ("F2"%string, [3; 4; 5; 6; 7; 8; 9; 10; 11; 12; 20; 21; 22; 23]);
          ("F3"%string, [20; 21; 22; 23; 30]);
          ("F4"%string, [50])] [].

(** Footprints 2 and 7 overlap; the intersection with footprint 12 raises,
    and so does the union with footprint 17, which overlaps footprint 2. *)
Definition faulty : store unit geometry :=
  Eval vm_compute in
  images [("a"%string, [1; 2; 3]); ("b"%string, [2; 3; 4]);
          ("c"%string, [3; 4; 99]); ("d"%string, [1; 77])] [].

End Cells.

(** ** Opening files: [SkyLineMember.__init__], [SkyLine(fname)], [to_wcs]

    [pyfits], [stwcs] and [SphericalPolygon.from_wcs] are collaborators
    outside the sources; they are taken as an interface.  A FITS file is
    seen as [pyfits.open] shows it to the module: the names of its
    extensions, in order.  The files do not change while the module runs:
    reading a file twice gives the same answer. *)

Module Files.

Class lib {WCS : Type} {G : SphericalPolygon.lib} : Type := {
  (** [pyfits.open(fname)]: the [name] of every extension *)
  pyfits_open : string -> result (list string);
  (** [wcsutil.HSTWCS(fname, ext=i)] *)
  HSTWCS : string -> nat -> result WCS;
  (** [stwcs.distortion.utils.output_wcs(wcs_list)] *)
  output_wcs : list WCS -> result WCS;
  (** [SphericalPolygon.from_wcs(wcs)] *)
  from_wcs : WCS -> result Polygon
}.

Arguments lib : clear implicits.

End Files.

(** [str.upper] on the ASCII letters. *)
Definition upper_ascii (c : Ascii.ascii) : Ascii.ascii :=
  let n := Ascii.nat_of_ascii c in
  if (97 <=? n) && (n <=? 122) then Ascii.ascii_of_nat (n - 32) else c.

Fixpoint upper (s : string) : string :=
  match s with
  | EmptyString => EmptyString
  | String c s' => String (upper_ascii c) (upper s')
  end.

Section Opening.

Context {WCS : Type} {G : SphericalPolygon.lib} {F : Files.lib WCS G}.

Local Open Scope py_scope.

(** The loop [for i, ext in enumerate(pf)] of [SkyLineMember.__init__], from
    index [i] on; [extname] is already in upper case. *)
Fixpoint scan_extensions (fname extname : string) (i : nat) (pf : list string)
    (ext_list : list nat) (wcs_list : list WCS)
  : result (list nat * list WCS) :=
  match pf with
  | [] => Ok (ext_list, wcs_list)
  | name :: pf' =>
      if bool_decide (upper name = extname) then
        w ← Files.HSTWCS fname i;
        scan_extensions fname extname (S i) pf' (ext_list ++ [i]) (wcs_list ++ [w])
      else scan_extensions fname extname (S i) pf' ext_list wcs_list
  end.

(** [SkyLineMember(fname, extname)].  The instance enters the store when its
    four attributes are assigned; until then nothing outside [__init__]
    refers to it. *)
Definition SkyLineMember__init__ (fname extname : string) : M WCS G ref :=
  let extname := upper extname in
  found <- reads (fun _ => pf ← Files.pyfits_open fname;
                           scan_extensions fname extname 0 pf [] []);;
  wcs <- match snd found with
         | _ :: _ :: _ => reads (fun _ => Files.output_wcs (snd found))
         | [w] => ret w
         | [] => raise ValueError
         end;;
  p <- reads (fun _ => Files.from_wcs wcs);;
  polygon <- alloc (ObjPolygon p);;
  alloc (ObjMember {| SkyLineMember._fname := fname;
                      SkyLineMember._ext := fst found;
                      SkyLineMember._wcs := wcs;
                      SkyLineMember._polygon := polygon |}).

(** [SkyLine(fname, extname)].  The member is made first; the new footprint
    has no attribute until it is assigned, and is entered in the store by
    [SkyLine__init__]. *)
Definition SkyLine_new (fname : option string) (extname : string) : M WCS G ref :=
  match fname with
  | Some f =>
      m <- SkyLineMember__init__ f extname;;
      SkyLine__init__ (Some m)
  | None => SkyLine__init__ None
  end.

(** [SkyLineMember.ext] *)
Definition SkyLineMember_ext (h : store WCS G) (m : ref) : result (list nat) :=
  match h !! m with
  | Some (ObjMember o) => Ok (SkyLineMember._ext o)
  | _ => Raise AttributeError
  end.

(** [SkyLineMember.wcs] *)
Definition SkyLineMember_wcs (h : store WCS G) (m : ref) : result WCS :=
  match h !! m with
  | Some (ObjMember o) => Ok (SkyLineMember._wcs o)
  | _ => Raise AttributeError
  end.

(** The inner loop of [to_wcs]: [HSTWCS(m.fname, ext=i)] for [i] in [m.ext]. *)
Definition member_wcs_list (h : store WCS G) (m : ref) : result (list WCS) :=
  e ← SkyLineMember_ext h m;
  mapR (fun i => f ← SkyLineMember_fname h m; Files.HSTWCS f i) e.

(** The [wcs_list] that [to_wcs] builds. *)
Definition to_wcs_list (h : store WCS G) (self : ref) : result (list WCS) :=
  ms ← members h self;
  ls ← mapR (member_wcs_list h) ms;
  Ok (concat ls).

(** [SkyLine.to_wcs] *)
Definition to_wcs (h : store WCS G) (self : ref) : result (option WCS) :=
  wcs_list ← to_wcs_list h self;
  if 0 <? length wcs_list then
    wcs ← Files.output_wcs wcs_list; Ok (Some wcs)
  else Ok None.

End Opening.

(** The indices, counted from [i], of the names of [pf] that read [extname]
    in upper case: what the loop of [SkyLineMember.__init__] appends to
    [ext_list]. *)
Fixpoint matching (extname : string) (i : nat) (pf : list string) : list nat :=
  match pf with
  | [] => []
  | name :: pf' =>
      if bool_decide (upper name = extname) then i :: matching extname (S i) pf'
      else matching extname (S i) pf'
  end.

(** The polygon of a list of polygons united from the left, as the growing
    loop of [mosaic] unites them. *)
Fixpoint unions {G : SphericalPolygon.lib} (p : Polygon) (qs : list Polygon)
  : result Polygon :=
  match qs with
  | [] => Ok p
  | q :: qs' => u ← SphericalPolygon.union p q; unions u qs'
  end.

(** [s] is a footprint of the store: it has a polygon and a list of members
    that are [SkyLineMember] instances. *)
Definition footprint {WCS : Type} {G : SphericalPolygon.lib}
    (h : store WCS G) (s : ref) : Prop :=
  exists p ms,
    poly_of h s = Ok p /\ members h s = Ok ms /\
    Forall (fun m => isinstance_SkyLineMember h m = true) ms.

(** The members of a footprint; [[]] when [s] is none. *)
Definition members_of {WCS : Type} {G : SphericalPolygon.lib}
    (h : store WCS G) (s : ref) : list ref :=
  match members h s with
  | Ok ms => ms
  | Raise _ => []
  end.

(** Where the growing loop of [mosaic] stands when, run on [skylines] from
    the store [h0], it has united the footprints [incl], in this order, and
    set aside the footprints [failed] whose union raised: the lists it
    keeps, the members and the polygon of the mosaic so far. *)
Definition grown {WCS : Type} {G : SphericalPolygon.lib}
    (h0 : store WCS G) (skylines : list ref) (st : locals) (h : store WCS G)
    (incl failed : list ref) : Prop :=
  (exists ext, h = h0 ++ ext) /\
  Permutation (incl ++ failed ++ l_remaining st) skylines /\
  l_out_order st = map (rough_id_of h0) incl /\
  l_excluded st = map (rough_id_of h0) failed /\
  members h (l_mosaic st)
  = Ok (first_occurrences (concat (map (members_of h0) incl))) /\
  exists p ps q,
    mapR (poly_of h0) incl = Ok (p :: ps) /\ unions p ps = Ok q /\
    poly_of h (l_mosaic st) = Ok q.

(** ** Files to run the model on *)

Module Fits.

(** The extensions of three files; any other name cannot be opened. *)
Definition pyfits_open (fname : string) : result (list string) :=
  if bool_decide (fname = "two.fits"%string) then
    Ok ["PRIMARY"; "SCI"; "ERR"; "sci"; "DQ"]%string
  else if bool_decide (fname = "one.fits"%string) then
    Ok ["PRIMARY"; "Sci"]%string
  else if bool_decide (fname = "none.fits"%string) then
    Ok ["PRIMARY"]%string
  else Raise OtherError.

(** The WCS of extension [i] stands for the cells [10 i] and [10 i + 1]. *)
Definition HSTWCS (fname : string) (i : nat) : result (list nat) :=
  Ok [10 * i; 10 * i + 1].

Definition output_wcs (wcs_list : list (list nat)) : result (list nat) :=
  Ok (concat wcs_list).

Definition from_wcs (wcs : list nat) : result (list nat) := Ok wcs.

#[global] Instance files : Files.lib (list nat) Cells.geometry := {|
  Files.pyfits_open := pyfits_open;
  Files.HSTWCS := HSTWCS;
  Files.output_wcs := output_wcs;
  Files.from_wcs := from_wcs
|}.

(** The store after [SkyLineMember('two.fits', 'sci')]: the polygon 0 and
    the member 1. *)
Definition two_member : store (list nat) Cells.geometry :=
  Eval vm_compute in snd (SkyLineMember__init__ "two.fits"%string "sci" []).

(** The store after [SkyLineMember('one.fits', 'SCI')]. *)
Definition one_member : store (list nat) Cells.geometry :=
  Eval vm_compute in snd (SkyLineMember__init__ "one.fits"%string "SCI" []).

(** The store after [SkyLine('two.fits')]: footprint 2 with member 1. *)
Definition two : store (list nat) Cells.geometry :=
  Eval vm_compute in snd (SkyLine_new (Some "two.fits"%string) "SCI" []).

(** The store after [SkyLine('two.fits')] and then [SkyLine('one.fits')]:
    members 1 and 6, footprints 2 and 7. *)
Definition opened : store (list nat) Cells.geometry :=
  Eval vm_compute in
  snd (SkyLine_new (Some "one.fits"%string) "SCI"
         (snd (SkyLine_new (Some "two.fits"%string) "SCI" []))).

End Fits.

(** * Properties *)

(** ** Comparing floats *)

Module PyFloatFacts.

Import PyFloat.

Ltac cmp_cases :=
  repeat match goal with
    | |- context [Z.compare ?a ?b] => destruct (Z.compare_spec a b)
    | |- context [Pos.compare ?a ?b] => destruct (Pos.compare_spec a b)
    | |- context [Pos.compare_cont _ ?a ?b] =>
        change (Pos.compare_cont Eq a b) with (Pos.compare a b)
    end.

Lemma compare_lt_trans (x y z : float) :
  SFcompare x y = Some Lt -> SFcompare y z = Some Lt ->
  SFcompare x z = Some Lt.
Proof.
  destruct x as [[]|[]| |[] mx ex], y as [[]|[]| |[] my ey],
      z as [[]|[]| |[] mz ez]; simpl; try congruence;
    cmp_cases; simpl; intros; try congruence; try lia.
Qed.

Lemma compare_le_lt_trans (x y z : float) :
  SFcompare x y = Some Lt \/ SFcompare x y = Some Eq ->
  SFcompare y z = Some Lt ->
  SFcompare x z = Some Lt.
Proof.
  destruct x as [[]|[]| |[] mx ex], y as [[]|[]| |[] my ey],
      z as [[]|[]| |[] mz ez]; simpl; try (intros [?|?]; congruence);
    cmp_cases; simpl; intros [?|?] ?; try congruence; try lia.
Qed.

Lemma compare_total (x y : float) :
  is_nan x = false -> is_nan y = false ->
  exists c, SFcompare x y = Some c /\ SFcompare y x = Some (CompOpp c).
Proof.
  destruct x as [[]|[]| |[] mx ex], y as [[]|[]| |[] my ey];
    simpl; try congruence; intros _ _; try (eexists; split; reflexivity).
  all: cmp_cases; simpl; try (eexists; split; reflexivity);
    exfalso; try lia; congruence.
Qed.

Lemma gt_trans (x y z : float) :
  gt x y = true -> gt y z = true -> gt x z = true.
Proof.
  unfold gt, SFltb. intros Hxy Hyz.
  destruct (SFcompare y x) as [[]|] eqn:E1; try discriminate.
  destruct (SFcompare z y) as [[]|] eqn:E2; try discriminate.
  now rewrite (compare_lt_trans _ _ _ E2 E1).
Qed.

Lemma gt_not_nan_l (x y : float) : gt x y = true -> is_nan x = false.
Proof. destruct x as [[]|[]| |[] ? ?], y as [[]|[]| |[] ? ?]; easy. Qed.

Lemma nonneg_not_nan (x : float) : nonneg x = true -> is_nan x = false.
Proof. destruct x as [[]|[]| |[] ? ?]; easy. Qed.

(** [y <= x] and [z > x] give [z > y], NaNs excluded. *)
Lemma gt_of_not_gt (x y z : float) :
  is_nan x = false -> is_nan y = false ->
  gt y x = false -> gt z x = true -> gt z y = true.
Proof.
  unfold gt, SFltb. intros Hx Hy Hyx Hzx.
  destruct (compare_total y x Hy Hx) as (c & E1 & E2).
  destruct (SFcompare x z) as [[]|] eqn:E3; try discriminate.
  rewrite E2 in Hyx.
  rewrite (compare_le_lt_trans y x z); [reflexivity| |assumption].
  rewrite E1. destruct c; simpl in *; auto; discriminate.
Qed.

Lemma gt_irrefl (x : float) : gt x x = false.
Proof.
  unfold gt, SFltb.
  destruct x as [[]|[]| |[] m e]; simpl; try reflexivity;
    rewrite Z.compare_refl;
    change (Pos.compare_cont Eq m m) with (Pos.compare m m);
    now rewrite Pos.compare_refl.
Qed.

Lemma gt_asym (x y : float) : gt x y = true -> gt y x = false.
Proof.
  intros H. destruct (gt y x) eqn:E; [|reflexivity].
  pose proof (gt_trans _ _ _ H E) as C. now rewrite gt_irrefl in C.
Qed.

(** [x <= y] and [y <= z] give [x <= z], NaNs excluded. *)
Lemma not_gt_trans (x y z : float) :
  is_nan y = false -> is_nan z = false ->
  gt x y = false -> gt y z = false -> gt x z = false.
Proof.
  intros Hy Hz Hxy Hyz. destruct (gt x z) eqn:E; [|reflexivity].
  rewrite (gt_of_not_gt z y x Hz Hy Hyz E) in Hxy. discriminate.
Qed.

(** A value above a non-negative one is non-negative, and positive. *)
Lemma nonneg_of_gt (x y : float) :
  nonneg y = true -> gt x y = true -> nonneg x = true.
Proof.
  unfold nonneg, gt, SFleb, SFltb. intros Hy Hxy.
  destruct (SFcompare zero y) as [[]|] eqn:E1; try discriminate;
    destruct (SFcompare y x) as [[]|] eqn:E2; try discriminate;
    now rewrite (compare_le_lt_trans zero y x) by auto.
Qed.

Lemma gt_zero_of_gt (x y : float) :
  nonneg y = true -> gt x y = true -> gt x zero = true.
Proof.
  unfold nonneg, gt, SFleb, SFltb. intros Hy Hxy.
  destruct (SFcompare zero y) as [[]|] eqn:E1; try discriminate;
    destruct (SFcompare y x) as [[]|] eqn:E2; try discriminate;
    now rewrite (compare_le_lt_trans zero y x) by auto.
Qed.

Lemma zero_not_gt (m : float) : nonneg m = true -> gt zero m = false.
Proof. destruct m as [[]|[]| |[] ? ?]; easy. Qed.

Lemma nonneg_zero : nonneg zero = true.
Proof. reflexivity. Qed.

Lemma eqb_zero_not_gt (z : float) : eqb z zero = true -> gt z zero = false.
Proof. destruct z as [[]|[]| |[] ? ?]; easy. Qed.

Lemma eqb_zero_nonneg (z : float) : eqb z zero = true -> nonneg z = true.
Proof. destruct z as [[]|[]| |[] ? ?]; easy. Qed.

End PyFloatFacts.

(** ** Lists *)

Section ListFacts.

Implicit Types (l acc : list ref) (x y : ref).

Lemma filter_all l (P : ref -> Prop) `{forall x, Decision (P x)} :
  Forall P l -> filter P l = l.
Proof.
  induction 1 as [|x l Hx Hl IH]; [reflexivity|].
  rewrite filter_cons_True by assumption. now rewrite IH.
Qed.

Lemma append_new_filter acc l :
  append_new acc l = acc ++ filter (fun y => y ∉ acc) (first_occurrences l).
Proof.
  revert acc. induction l as [|v l IH]; intros acc; simpl.
  - now rewrite app_nil_r.
  - case_bool_decide as Hv.
    + rewrite IH, filter_cons_False by tauto. f_equal.
      rewrite list_filter_filter. apply list_filter_iff.
      intros y. cbn beta. split; [|tauto].
      intros Hy. split; [assumption|congruence].
    + rewrite IH, filter_cons_True by assumption.
      rewrite <- app_assoc. simpl. do 2 f_equal.
      rewrite list_filter_filter. apply list_filter_iff.
      intros y. cbn beta. rewrite elem_of_app, list_elem_of_singleton. tauto.
Qed.

(** The loop of the setter, started from the empty list, keeps the first
    occurrence of every value. *)
Lemma append_new_first_occurrences l :
  append_new [] l = first_occurrences l.
Proof.
  rewrite append_new_filter. simpl. apply filter_all.
  apply Forall_forall. intros y _. apply not_elem_of_nil.
Qed.

Lemma first_occurrences_elem x l : x ∈ first_occurrences l <-> x ∈ l.
Proof.
  induction l as [|y l IH]; simpl; [reflexivity|].
  rewrite !elem_of_cons, list_elem_of_filter, IH.
  destruct (decide (x = y)); tauto.
Qed.

Lemma first_occurrences_NoDup l : NoDup (first_occurrences l).
Proof.
  induction l as [|y l IH]; simpl; [constructor|].
  constructor.
  - rewrite list_elem_of_filter. tauto.
  - now apply NoDup_filter.
Qed.

Lemma list_remove_length x l l' :
  list_remove x l = Ok l' -> length l = S (length l').
Proof.
  revert l'. induction l as [|y l IH]; intros l'; simpl; [discriminate|].
  case_bool_decide.
  - intros [= <-]. reflexivity.
  - destruct (list_remove x l) as [r|e]; simpl; [|discriminate].
    intros [= <-]. simpl. f_equal. now apply IH.
Qed.

Lemma list_remove_perm x l l' :
  list_remove x l = Ok l' -> Permutation l (x :: l').
Proof.
  revert l'. induction l as [|y l IH]; intros l'; simpl; [discriminate|].
  case_bool_decide as E.
  - intros [= <-]. now subst.
  - destruct (list_remove x l) as [r|e]; simpl; [|discriminate].
    intros [= <-]. rewrite (IH r eq_refl). apply perm_swap.
Qed.

Lemma list_remove_elem x l : x ∈ l -> exists l', list_remove x l = Ok l'.
Proof.
  induction l as [|y l IH]; [intros H; inversion H|].
  intros H. simpl. case_bool_decide as E; [eauto|].
  apply elem_of_cons in H as [->|H]; [congruence|].
  destruct (IH H) as [l' ->]. simpl. eauto.
Qed.

Lemma list_remove_NoDup x l :
  NoDup l -> x ∈ l -> list_remove x l = Ok (filter (fun y => y <> x) l).
Proof.
  induction 1 as [|y l Hy Hl IH]; [intros H; inversion H|].
  intros H. simpl. case_bool_decide as E.
  - subst y. rewrite filter_cons_False by tauto.
    f_equal. symmetry. apply filter_all, Forall_forall.
    intros z Hz ->. contradiction.
  - apply elem_of_cons in H as [->|H]; [congruence|].
    rewrite (IH H). simpl. now rewrite filter_cons_True.
Qed.

End ListFacts.

(** ** The store *)

Section StoreFacts.

Context {WCS : Type} {G : SphericalPolygon.lib}.

Implicit Types (h : store WCS G) (o : pyobj WCS G) (r self value : ref).

Local Open Scope py_scope.

Lemma lookup_ext h (ext : store WCS G) r o :
  h !! r = Some o -> (h ++ ext) !! r = Some o.
Proof. apply lookup_app_l_Some. Qed.

Lemma lookup_new h (ext : store WCS G) k :
  (h ++ ext) !! (length h + k) = ext !! k.
Proof. rewrite lookup_app_r by lia. f_equal. lia. Qed.

Lemma lookup_new0 h (ext : store WCS G) :
  (h ++ ext) !! (length h) = ext !! 0.
Proof. rewrite <- (lookup_new h ext 0). f_equal. lia. Qed.

Lemma insert_new h (ext : store WCS G) k o :
  <[length h + k := o]> (h ++ ext) = h ++ <[k := o]> ext.
Proof. apply insert_app_r. Qed.

Lemma insert_new0 h (ext : store WCS G) o :
  <[length h := o]> (h ++ ext) = h ++ <[0 := o]> ext.
Proof. rewrite <- (insert_new h ext 0). f_equal. lia. Qed.

(** *** Readers see the same objects in a larger store *)

Lemma polygon_value_ext h ext p v :
  polygon_value h p = Ok v -> polygon_value (h ++ ext) p = Ok v.
Proof.
  unfold polygon_value. destruct (h !! p) as [[]|] eqn:E; try discriminate.
  now rewrite (lookup_ext _ ext _ _ E).
Qed.

Lemma polygon_ext h ext self p :
  polygon h self = Ok p -> polygon (h ++ ext) self = Ok p.
Proof.
  unfold polygon. destruct (h !! self) as [[]|] eqn:E; try discriminate.
  now rewrite (lookup_ext _ ext _ _ E).
Qed.

Lemma members_ext h ext self ms :
  members h self = Ok ms -> members (h ++ ext) self = Ok ms.
Proof.
  unfold members. destruct (h !! self) as [[]|] eqn:E; try discriminate.
  now rewrite (lookup_ext _ ext _ _ E).
Qed.

Lemma poly_of_ext h ext self v :
  poly_of h self = Ok v -> poly_of (h ++ ext) self = Ok v.
Proof.
  unfold poly_of. destruct (polygon h self) as [p|] eqn:E; [|discriminate].
  rewrite (polygon_ext _ ext _ _ E). simpl. apply polygon_value_ext.
Qed.

Lemma SkyLineMember_fname_ext h ext m f :
  SkyLineMember_fname h m = Ok f -> SkyLineMember_fname (h ++ ext) m = Ok f.
Proof.
  unfold SkyLineMember_fname.
  destruct (h !! m) as [[]|] eqn:E; try discriminate.
  now rewrite (lookup_ext _ ext _ _ E).
Qed.

Lemma SkyLineMember_polygon_ext h ext m p :
  SkyLineMember_polygon h m = Ok p -> SkyLineMember_polygon (h ++ ext) m = Ok p.
Proof.
  unfold SkyLineMember_polygon.
  destruct (h !! m) as [[]|] eqn:E; try discriminate.
  now rewrite (lookup_ext _ ext _ _ E).
Qed.

Lemma _rough_id_ext h ext self i :
  _rough_id h self = Ok i -> _rough_id (h ++ ext) self = Ok i.
Proof.
  unfold _rough_id. destruct (members h self) as [ms|] eqn:E; [|discriminate].
  rewrite (members_ext _ ext _ _ E). simpl.
  destruct ms as [|m ms]; [easy|].
  destruct (SkyLineMember_fname h m) as [f|] eqn:F; [|discriminate].
  now rewrite (SkyLineMember_fname_ext _ ext _ _ F).
Qed.

Lemma isinstance_SkyLineMember_ext h ext v :
  isinstance_SkyLineMember h v = true ->
  isinstance_SkyLineMember (h ++ ext) v = true.
Proof.
  unfold isinstance_SkyLineMember.
  destruct (h !! v) as [[]|] eqn:E; try discriminate.
  now rewrite (lookup_ext _ ext _ _ E).
Qed.

(** *** The setters *)

Lemma isinstance_SkyLineMember_insert h self s s' v :
  h !! self = Some (ObjSkyLine s) ->
  isinstance_SkyLineMember (<[self := ObjSkyLine s']> h) v
  = isinstance_SkyLineMember h v.
Proof.
  intros Hs. unfold isinstance_SkyLineMember.
  destruct (decide (v = self)) as [->|Hne].
  - rewrite list_lookup_insert_eq by (eapply lookup_lt_Some; eassumption).
    now rewrite Hs.
  - now rewrite list_lookup_insert_ne by congruence.
Qed.

Lemma bind_ok {A B} (m : M WCS G A) (f : A -> M WCS G B) h a h' :
  m h = (Ok a, h') -> bind m f h = f a h'.
Proof. unfold bind. now intros ->. Qed.

Lemma bind_raise {A B} (m : M WCS G A) (f : A -> M WCS G B) h e h' :
  m h = (Raise e, h') -> bind m f h = (Raise e, h').
Proof. unfold bind. now intros ->. Qed.

Lemma set__members_ok h self s ms :
  h !! self = Some (ObjSkyLine s) ->
  set__members self ms h
  = (Ok tt, <[self := ObjSkyLine {| SkyLine._polygon := SkyLine._polygon s;
                                    SkyLine._members := Some ms |}]> h).
Proof. intros Hs. unfold set__members, write. now rewrite Hs. Qed.

Lemma members_setter_body_ok h self s acc v :
  h !! self = Some (ObjSkyLine s) ->
  SkyLine._members s = Some acc ->
  isinstance_SkyLineMember h v = true ->
  members_setter_body self v h
  = (Ok tt,
     <[self := ObjSkyLine
                 {| SkyLine._polygon := SkyLine._polygon s;
                    SkyLine._members :=
                      Some (if bool_decide (v ∈ acc) then acc else acc ++ [v]) |}]> h).
Proof.
  intros Hs Hacc Hv.
  unfold members_setter_body, bind, reads, py_assert, ret, members.
  rewrite Hv, Hs, Hacc. case_bool_decide.
  - f_equal. symmetry. apply list_insert_id.
    rewrite Hs. destruct s; simpl in *. now subst.
  - now apply set__members_ok.
Qed.

Lemma members_setter_body_fail h self v :
  isinstance_SkyLineMember h v = false ->
  members_setter_body self v h = (Raise AssertionError, h).
Proof.
  intros Hv. unfold members_setter_body, bind, reads, py_assert, raise.
  now rewrite Hv.
Qed.

(** The loop of the [members] setter when every value is a member. *)
Lemma members_setter_loop_ok values : forall h self s acc,
  h !! self = Some (ObjSkyLine s) ->
  SkyLine._members s = Some acc ->
  Forall (fun v => isinstance_SkyLineMember h v = true) values ->
  for_ values (members_setter_body self) h
  = (Ok tt,
     <[self := ObjSkyLine {| SkyLine._polygon := SkyLine._polygon s;
                             SkyLine._members := Some (append_new acc values) |}]> h).
Proof.
  induction values as [|v values IH]; intros h self s acc Hs Hacc Hall.
  - simpl. unfold ret. f_equal. symmetry. apply list_insert_id.
    rewrite Hs. destruct s; simpl in *. now subst.
  - inversion Hall as [|? ? Hv Hall']; subst.
    assert (Hlt : self < length h) by (eapply lookup_lt_Some; eassumption).
    simpl for_.
    rewrite (bind_ok _ _ _ _ _ (members_setter_body_ok _ _ _ _ _ Hs Hacc Hv)).
    erewrite IH; [|now apply list_lookup_insert_eq|reflexivity|].
    + simpl. rewrite list_insert_insert_eq.
      now destruct (bool_decide (v ∈ acc)).
    + eapply Forall_impl; [exact Hall'|]. intros x Hx. simpl.
      now rewrite (isinstance_SkyLineMember_insert _ _ s).
Qed.

Lemma members_setter_ok h self s values :
  h !! self = Some (ObjSkyLine s) ->
  Forall (fun v => isinstance_SkyLineMember h v = true) values ->
  members_setter self values h
  = (Ok tt,
     <[self := ObjSkyLine {| SkyLine._polygon := SkyLine._polygon s;
                             SkyLine._members := Some (append_new [] values) |}]> h).
Proof.
  intros Hs Hall. unfold members_setter.
  assert (Hlt : self < length h) by (eapply lookup_lt_Some; eassumption).
  rewrite (bind_ok _ _ _ _ _ (set__members_ok _ _ _ [] Hs)).
  erewrite members_setter_loop_ok;
    [|now apply list_lookup_insert_eq|reflexivity|].
  - simpl. now rewrite list_insert_insert_eq.
  - eapply Forall_impl; [exact Hall|]. intros x Hx. simpl.
    now rewrite (isinstance_SkyLineMember_insert _ _ s).
Qed.

(** The loop of the [members] setter when some value is not a member. *)
Lemma members_setter_loop_fail values : forall h self s acc,
  h !! self = Some (ObjSkyLine s) ->
  SkyLine._members s = Some acc ->
  Exists (fun v => isinstance_SkyLineMember h v = false) values ->
  fst (for_ values (members_setter_body self) h) = Raise AssertionError.
Proof.
  induction values as [|v values IH]; intros h self s acc Hs Hacc Hex.
  - inversion Hex.
  - simpl for_.
    assert (Hlt : self < length h) by (eapply lookup_lt_Some; eassumption).
    destruct (isinstance_SkyLineMember h v) eqn:Hv.
    + assert (Hex' : Exists (fun v => isinstance_SkyLineMember h v = false) values).
      { inversion Hex; subst; [congruence|assumption]. }
      rewrite (bind_ok _ _ _ _ _ (members_setter_body_ok _ _ _ _ _ Hs Hacc Hv)).
      eapply IH; [now apply list_lookup_insert_eq|reflexivity|].
      eapply Exists_impl; [exact Hex'|]. intros x Hx. simpl.
      now rewrite (isinstance_SkyLineMember_insert _ _ s).
    + now rewrite (bind_raise _ _ _ _ _ (members_setter_body_fail _ self _ Hv)).
Qed.

Lemma members_setter_fail h self s values :
  h !! self = Some (ObjSkyLine s) ->
  Exists (fun v => isinstance_SkyLineMember h v = false) values ->
  fst (members_setter self values h) = Raise AssertionError.
Proof.
  intros Hs Hex. unfold members_setter.
  assert (Hlt : self < length h) by (eapply lookup_lt_Some; eassumption).
  rewrite (bind_ok _ _ _ _ _ (set__members_ok _ _ _ [] Hs)).
  eapply members_setter_loop_fail;
    [now apply list_lookup_insert_eq|reflexivity|].
  eapply Exists_impl; [exact Hex|]. intros x Hx. simpl.
  now rewrite (isinstance_SkyLineMember_insert _ _ s).
Qed.

Lemma set__polygon_ok h self s v :
  h !! self = Some (ObjSkyLine s) ->
  set__polygon self v h
  = (Ok tt, <[self := ObjSkyLine {| SkyLine._polygon := Some v;
                                    SkyLine._members := SkyLine._members s |}]> h).
Proof. intros Hs. unfold set__polygon, write. now rewrite Hs. Qed.

Lemma copy_ok h value p :
  h !! value = Some (ObjPolygon p) ->
  copy value h = (Ok (length h), h ++ [ObjPolygon p]).
Proof. intros Hv. unfold copy, alloc. now rewrite Hv. Qed.

Lemma polygon_setter_ok h self s value p :
  h !! self = Some (ObjSkyLine s) ->
  h !! value = Some (ObjPolygon p) ->
  polygon_setter self value h
  = (Ok tt,
     <[self := ObjSkyLine {| SkyLine._polygon := Some (length h);
                             SkyLine._members := SkyLine._members s |}]>
       (h ++ [ObjPolygon p])).
Proof.
  intros Hs Hv. unfold polygon_setter.
  unfold bind at 1, reads, isinstance_SphericalPolygon. rewrite Hv.
  unfold bind at 1, py_assert, ret.
  rewrite (bind_ok _ _ _ _ _ (copy_ok _ _ _ Hv)).
  apply set__polygon_ok. now apply lookup_ext.
Qed.

Lemma polygon_setter_fail h self value :
  isinstance_SphericalPolygon h value = false ->
  polygon_setter self value h = (Raise AssertionError, h).
Proof.
  intros Hv. unfold polygon_setter, bind, reads, py_assert, raise.
  now rewrite Hv.
Qed.

End StoreFacts.

Section Constructors.

Context {WCS : Type} {G : SphericalPolygon.lib}.

Implicit Types (h : store WCS G) (o : pyobj WCS G) (r self value : ref).

Local Open Scope py_scope.

Ltac norm_store :=
  repeat first
    [ rewrite <- !app_assoc
    | rewrite !length_app
    | rewrite insert_new
    | rewrite insert_new0 ];
  simpl.

Lemma alloc_eq h o : alloc o h = (Ok (length h), h ++ [o]).
Proof. reflexivity. Qed.

Lemma reads_eq {A} (f : store WCS G -> result A) h : reads f h = (f h, h).
Proof. reflexivity. Qed.

Lemma SkyLine__init__ok h :
  SkyLine__init__ None h
  = (Ok (length h),
     h ++ [ObjSkyLine {| SkyLine._polygon := Some (length h + 2);
                         SkyLine._members := Some [] |};
           ObjPolygon (SphericalPolygon.make []);
           ObjPolygon (SphericalPolygon.make [])]).
Proof.
  unfold SkyLine__init__.
  rewrite (bind_ok _ _ _ _ _ (alloc_eq _ _)).
  erewrite bind_ok; cycle 1.
  { eapply members_setter_ok; [|constructor]. rewrite lookup_new0. reflexivity. }
  norm_store.
  erewrite bind_ok; cycle 1.
  { rewrite reads_eq. unfold members. rewrite lookup_new0. reflexivity. }
  erewrite bind_ok; [reflexivity|].
  rewrite (bind_ok _ _ _ _ _ (alloc_eq _ _)).
  erewrite polygon_setter_ok; cycle 1.
  { norm_store. rewrite lookup_new0. reflexivity. }
  { norm_store. rewrite lookup_new. reflexivity. }
  norm_store. reflexivity.
Qed.

Lemma SkyLineMember_polygon_value_ext h ext m q :
  SkyLineMember_polygon_value h m = Ok q ->
  SkyLineMember_polygon_value (h ++ ext) m = Ok q.
Proof.
  unfold SkyLineMember_polygon_value.
  destruct (SkyLineMember_polygon h m) as [p|] eqn:E; [|discriminate].
  rewrite (SkyLineMember_polygon_ext _ ext _ _ E). simpl.
  apply polygon_value_ext.
Qed.

Lemma SkyLineMember_polygon_value_isinstance h m q :
  SkyLineMember_polygon_value h m = Ok q ->
  isinstance_SkyLineMember h m = true.
Proof.
  unfold SkyLineMember_polygon_value, SkyLineMember_polygon,
    isinstance_SkyLineMember.
  now destruct (h !! m) as [[]|].
Qed.

Lemma SkyLine_union_ok h self other a b u :
  poly_of h self = Ok a -> poly_of h other = Ok b ->
  SphericalPolygon.union a b = Ok u ->
  SkyLine_union self other h = (Ok (length h), h ++ [ObjPolygon u]).
Proof.
  intros Ha Hb Hu. unfold SkyLine_union.
  erewrite bind_ok; [apply alloc_eq|].
  rewrite reads_eq, Ha, Hb. simpl. now rewrite Hu.
Qed.

Lemma SkyLine_union_raise h self other a b e :
  poly_of h self = Ok a -> poly_of h other = Ok b ->
  SphericalPolygon.union a b = Raise e ->
  SkyLine_union self other h = (Raise e, h).
Proof.
  intros Ha Hb Hu. unfold SkyLine_union.
  erewrite bind_raise; [reflexivity|].
  rewrite reads_eq, Ha, Hb. simpl. now rewrite Hu.
Qed.

Lemma SkyLine_intersection_ok h self other a b i :
  poly_of h self = Ok a -> poly_of h other = Ok b ->
  SphericalPolygon.intersection a b = Ok i ->
  SkyLine_intersection self other h = (Ok (length h), h ++ [ObjPolygon i]).
Proof.
  intros Ha Hb Hi. unfold SkyLine_intersection.
  erewrite bind_ok; [apply alloc_eq|].
  rewrite reads_eq, Ha, Hb. simpl. now rewrite Hi.
Qed.

(** The store after [add_image]: the new footprint, the two polygons made
    by its constructor, the union and the copy of it the footprint keeps. *)
Lemma add_image_ok h self other a b u ms mo :
  poly_of h self = Ok a -> poly_of h other = Ok b ->
  SphericalPolygon.union a b = Ok u ->
  members h self = Ok ms -> members h other = Ok mo ->
  Forall (fun v => isinstance_SkyLineMember h v = true) (ms ++ mo) ->
  add_image self other h
  = (Ok (length h),
     h ++ [ObjSkyLine {| SkyLine._polygon := Some (length h + 4);
                         SkyLine._members := Some (append_new [] (ms ++ mo)) |};
           ObjPolygon (SphericalPolygon.make []);
           ObjPolygon (SphericalPolygon.make []);
           ObjPolygon u; ObjPolygon u]).
Proof.
  intros Ha Hb Hu Hms Hmo Hall. unfold add_image.
  rewrite (bind_ok _ _ _ _ _ (SkyLine__init__ok h)).
  erewrite bind_ok; cycle 1.
  { eapply SkyLine_union_ok; [apply poly_of_ext, Ha|apply poly_of_ext, Hb|exact Hu]. }
  erewrite bind_ok; cycle 1.
  { eapply polygon_setter_ok.
    - norm_store. rewrite lookup_new0. reflexivity.
    - norm_store. rewrite lookup_new. reflexivity. }
  norm_store.
  erewrite bind_ok; cycle 1.
  { rewrite reads_eq. erewrite members_ext by exact Hms. reflexivity. }
  erewrite bind_ok; cycle 1.
  { rewrite reads_eq. erewrite members_ext by exact Hmo. reflexivity. }
  erewrite bind_ok; cycle 1.
  { eapply members_setter_ok.
    - rewrite lookup_new0. reflexivity.
    - eapply Forall_impl; [exact Hall|]. intros v Hv.
      now apply isinstance_SkyLineMember_ext. }
  norm_store. reflexivity.
Qed.

(** When the union raises, [add_image] raises the same exception; only the
    new, still empty footprint has been added to the store. *)
Lemma add_image_union_raise h self other a b e :
  poly_of h self = Ok a -> poly_of h other = Ok b ->
  SphericalPolygon.union a b = Raise e ->
  add_image self other h
  = (Raise e,
     h ++ [ObjSkyLine {| SkyLine._polygon := Some (length h + 2);
                         SkyLine._members := Some [] |};
           ObjPolygon (SphericalPolygon.make []);
           ObjPolygon (SphericalPolygon.make [])]).
Proof.
  intros Ha Hb Hu. unfold add_image.
  rewrite (bind_ok _ _ _ _ _ (SkyLine__init__ok h)).
  erewrite bind_raise; [reflexivity|].
  eapply SkyLine_union_raise; [apply poly_of_ext, Ha|apply poly_of_ext, Hb|exact Hu].
Qed.

Lemma filterR_spec {A} (f : A -> result bool) (l : list A) :
  (forall x, x ∈ l -> exists b, f x = Ok b) ->
  exists out, filterR f l = Ok out /\ (forall x, x ∈ out <-> x ∈ l /\ f x = Ok true).
Proof.
  induction l as [|y l IH]; intros Hf.
  - exists []. split; [reflexivity|]. intros x. split.
    + intros Hx. inversion Hx.
    + intros [Hx _]. inversion Hx.
  - destruct IH as (out & Hr & Hiff).
    { intros x Hx. apply Hf. now right. }
    destruct (Hf y) as [b Hb]; [now left|].
    simpl. rewrite Hb, Hr. simpl. destruct b.
    + exists (y :: out). split; [reflexivity|]. intros x.
      rewrite !elem_of_cons, Hiff. split.
      * intros [->|[? ?]]; auto.
      * intros [[->|?] ?]; auto.
    + exists out. split; [reflexivity|]. intros x.
      rewrite elem_of_cons, Hiff. split.
      * intros [? ?]; auto.
      * intros [[->|?] ?]; [congruence|auto].
Qed.

(** The store after [find_intersection], and the members it found. *)
Lemma find_intersection_ok h self other a b i ms mo :
  poly_of h self = Ok a -> poly_of h other = Ok b ->
  SphericalPolygon.intersection a b = Ok i ->
  members h self = Ok ms -> members h other = Ok mo ->
  (forall m, m ∈ ms ++ mo -> exists q, SkyLineMember_polygon_value h m = Ok q) ->
  exists found,
    find_intersection self other h
    = (Ok (length h),
       h ++ [ObjSkyLine {| SkyLine._polygon := Some (length h + 4);
                           SkyLine._members := Some (append_new [] found) |};
             ObjPolygon (SphericalPolygon.make []);
             ObjPolygon (SphericalPolygon.make []);
             ObjPolygon i; ObjPolygon i]) /\
    if 0 <? length (SphericalPolygon.points i) then
      forall m, m ∈ found <->
        m ∈ ms ++ mo /\
        exists q, SkyLineMember_polygon_value h m = Ok q /\
                  SphericalPolygon.intersects_poly i q = true
    else found = [].
Proof.
  intros Ha Hb Hi Hms Hmo Hq.
  set (h2 := h ++ [ObjSkyLine {| SkyLine._polygon := Some (length h + 4);
                                 SkyLine._members := Some [] |};
                   ObjPolygon (SphericalPolygon.make []);
                   ObjPolygon (SphericalPolygon.make []);
                   ObjPolygon i; ObjPolygon i]).
  assert (Hp2 : poly_of h2 (length h) = Ok i).
  { unfold poly_of, polygon, polygon_value, h2.
    rewrite lookup_new0. simpl. now rewrite lookup_new. }
  assert (Hfound : exists found,
    _find_members h2 (length h) (ms ++ mo) = Ok found /\
    (forall m, m ∈ found -> m ∈ ms ++ mo) /\
    if 0 <? length (SphericalPolygon.points i) then
      forall m, m ∈ found <->
        m ∈ ms ++ mo /\
        exists q, SkyLineMember_polygon_value h m = Ok q /\
                  SphericalPolygon.intersects_poly i q = true
    else found = []).
  { unfold _find_members. rewrite Hp2. simpl.
    destruct (0 <? length (SphericalPolygon.points i)).
    - edestruct (filterR_spec
        (fun m => q ← SkyLineMember_polygon_value h2 m;
                  Ok (SphericalPolygon.intersects_poly i q)) (ms ++ mo))
        as (found & Hf & Hiff).
      { intros m Hm. destruct (Hq m Hm) as [q Hv].
        unfold h2. rewrite (SkyLineMember_polygon_value_ext _ _ _ _ Hv).
        simpl. eauto. }
      exists found. split; [exact Hf|]. split.
      + intros m Hm. now apply Hiff in Hm.
      + intros m. rewrite Hiff. split.
        * intros [Hm Hfm]. split; [assumption|].
          destruct (Hq m Hm) as [q Hv]. exists q. split; [assumption|].
          unfold h2 in Hfm.
          rewrite (SkyLineMember_polygon_value_ext _ _ _ _ Hv) in Hfm.
          simpl in Hfm. congruence.
        * intros [Hm (q & Hv & Hint)]. split; [assumption|].
          unfold h2. rewrite (SkyLineMember_polygon_value_ext _ _ _ _ Hv).
          simpl. now rewrite Hint.
    - exists []. split; [reflexivity|]. split; [|reflexivity].
      intros m Hm. inversion Hm. }
  destruct Hfound as (found & Hf & Hsub & Hchar).
  exists found. split; [|exact Hchar].
  unfold find_intersection.
  rewrite (bind_ok _ _ _ _ _ (SkyLine__init__ok h)).
  erewrite bind_ok; cycle 1.
  { eapply SkyLine_intersection_ok;
      [apply poly_of_ext, Ha|apply poly_of_ext, Hb|exact Hi]. }
  erewrite bind_ok; cycle 1.
  { eapply polygon_setter_ok.
    - norm_store. rewrite lookup_new0. reflexivity.
    - norm_store. rewrite lookup_new. reflexivity. }
  norm_store.
  erewrite bind_ok; cycle 1.
  { rewrite reads_eq. erewrite members_ext by exact Hms. reflexivity. }
  erewrite bind_ok; cycle 1.
  { rewrite reads_eq. erewrite members_ext by exact Hmo. reflexivity. }
  erewrite bind_ok; cycle 1.
  { rewrite reads_eq. fold h2. rewrite Hf. reflexivity. }
  erewrite bind_ok; cycle 1.
  { eapply members_setter_ok.
    - unfold h2. rewrite lookup_new0. reflexivity.
    - apply Forall_forall. intros m Hm.
      destruct (Hq m (Hsub m Hm)) as [q Hv].
      apply isinstance_SkyLineMember_ext.
      eapply SkyLineMember_polygon_value_isinstance, Hv. }
  unfold h2. norm_store. reflexivity.
Qed.

End Constructors.

(** ** The setters and the derived footprints *)

Section Footprints.

Context {WCS : Type} {G : SphericalPolygon.lib}.

Implicit Types (h : store WCS G) (self value : ref).

(** C9: the polygon setter raises [AssertionError] when the value is not a
    polygon; otherwise the footprint's [_polygon] is a new polygon object
    with the value's content, and whatever is written afterwards to the
    object that was passed in leaves the footprint's polygon as it was. *)
Theorem polygon_setter_stores_copy h self value (s : SkyLine.instance) :
  h !! self = Some (ObjSkyLine s) ->
  (isinstance_SphericalPolygon h value = false ->
   polygon_setter self value h = (Raise AssertionError, h)) /\
  (forall p, h !! value = Some (ObjPolygon p) ->
   exists h' c,
     polygon_setter self value h = (Ok tt, h') /\
     polygon h' self = Ok c /\ c <> value /\ h !! c = None /\
     polygon_value h' c = Ok p /\
     forall o : pyobj WCS G,
       polygon (<[value := o]> h') self = Ok c /\
       polygon_value (<[value := o]> h') c = Ok p).
Proof.
  intros Hs. split; [apply polygon_setter_fail|].
  intros p Hv.
  assert (Hself : self < length h) by (eapply lookup_lt_Some; eassumption).
  assert (Hval : value < length h) by (eapply lookup_lt_Some; eassumption).
  assert (Hne : self <> value) by (intros ->; congruence).
  eexists _, (length h). split; [now apply (polygon_setter_ok h self s value p)|].
  assert (Hlen : self < length (h ++ [ObjPolygon p])) by (rewrite length_app; lia).
  repeat split.
  - unfold polygon. now rewrite list_lookup_insert_eq.
  - lia.
  - apply lookup_ge_None. lia.
  - unfold polygon_value. rewrite list_lookup_insert_ne by lia.
    now rewrite lookup_new0.
  - unfold polygon. rewrite list_lookup_insert_ne by congruence.
    now rewrite list_lookup_insert_eq.
  - unfold polygon_value. rewrite !list_lookup_insert_ne by lia.
    now rewrite lookup_new0.
Qed.

(** C8, amended: the members setter keeps the first occurrence of every
    object of the sequence, objects being compared by identity, and raises
    [AssertionError] when an element is not a [SkyLineMember]; with [A], [B],
    [C] three different objects, [[A, B, A, C]] is stored as [[A, B, C]]. *)
Theorem members_setter_first_occurrences h self (s : SkyLine.instance) values :
  h !! self = Some (ObjSkyLine s) ->
  (Forall (fun v => isinstance_SkyLineMember h v = true) values ->
   exists h',
     members_setter self values h = (Ok tt, h') /\
     members h' self = Ok (first_occurrences values) /\
     polygon h' self = polygon h self) /\
  (Exists (fun v => isinstance_SkyLineMember h v = false) values ->
   fst (members_setter self values h) = Raise AssertionError) /\
  (forall A B C : ref, A <> B -> A <> C -> B <> C ->
   first_occurrences [A; B; A; C] = [A; B; C]).
Proof.
  intros Hs.
  assert (Hself : self < length h) by (eapply lookup_lt_Some; eassumption).
  split; [|split].
  - intros Hall. eexists. split; [now apply (members_setter_ok h self s)|].
    unfold members, polygon. rewrite list_lookup_insert_eq by assumption.
    rewrite Hs. simpl. now rewrite append_new_first_occurrences.
  - now apply members_setter_fail with s.
  - intros A B C HAB HAC HBC. simpl.
    repeat (rewrite ?filter_cons_True, ?filter_cons_False, ?filter_nil by
              (try congruence; intros H; apply H; reflexivity)).
    reflexivity.
Qed.

(** C6, amended: when the union of the two polygons succeeds, [add_image]
    returns a new footprint whose polygon is that union, held in a polygon
    object of its own, and whose members are those of [A] followed by those
    of [B], the first occurrence of every object kept (identity, not value);
    every object already in the store is left as it was. *)
Theorem add_image_new_footprint h (A B : ref) a b u ma mb :
  poly_of h A = Ok a -> poly_of h B = Ok b ->
  members h A = Ok ma -> members h B = Ok mb ->
  Forall (fun v => isinstance_SkyLineMember h v = true) (ma ++ mb) ->
  SphericalPolygon.union a b = Ok u ->
  exists r h',
    add_image A B h = (Ok r, h') /\
    h !! r = None /\
    poly_of h' r = Ok u /\
    (forall p, polygon h' r = Ok p -> h !! p = None) /\
    members h' r = Ok (first_occurrences (ma ++ mb)) /\
    (forall x o, h !! x = Some o -> h' !! x = Some o) /\
    poly_of h' A = Ok a /\ members h' A = Ok ma /\
    poly_of h' B = Ok b /\ members h' B = Ok mb.
Proof.
  intros Ha Hb Hma Hmb Hall Hu.
  eexists _, _. split; [eapply add_image_ok; eassumption|].
  repeat split.
  - apply lookup_ge_None. lia.
  - unfold poly_of, polygon, polygon_value.
    rewrite lookup_new0. simpl. now rewrite lookup_new.
  - unfold polygon. rewrite lookup_new0. simpl. intros p [= <-].
    apply lookup_ge_None. lia.
  - unfold members. rewrite lookup_new0. simpl.
    now rewrite append_new_first_occurrences.
  - intros x o. apply lookup_ext.
  - now apply poly_of_ext.
  - now apply members_ext.
  - now apply poly_of_ext.
  - now apply members_ext.
Qed.

(** C7: when the intersection of the two polygons succeeds,
    [find_intersection] returns a new footprint whose polygon is that
    intersection; a polygon without points gives an empty member list
    whatever the members of the inputs; and, an empty polygon intersecting
    nothing, a member is kept exactly when it is in the concatenation of the
    two member lists and its own polygon intersects the intersection; every
    object already in the store is left as it was. *)
Theorem find_intersection_new_footprint h (A B : ref) a b i ma mb :
  poly_of h A = Ok a -> poly_of h B = Ok b ->
  members h A = Ok ma -> members h B = Ok mb ->
  Forall (fun m => exists q, SkyLineMember_polygon_value h m = Ok q) (ma ++ mb) ->
  SphericalPolygon.intersection a b = Ok i ->
  exists r h' ms,
    find_intersection A B h = (Ok r, h') /\
    h !! r = None /\
    poly_of h' r = Ok i /\
    members h' r = Ok ms /\
    (SphericalPolygon.points i = [] -> ms = []) /\
    ((forall q, SphericalPolygon.points i = [] ->
                SphericalPolygon.intersects_poly i q = false) ->
     forall m, m ∈ ms <->
       m ∈ ma ++ mb /\
       exists q, SkyLineMember_polygon_value h m = Ok q /\
                 SphericalPolygon.intersects_poly i q = true) /\
    (forall x o, h !! x = Some o -> h' !! x = Some o) /\
    poly_of h' A = Ok a /\ members h' A = Ok ma /\
    poly_of h' B = Ok b /\ members h' B = Ok mb.
Proof.
  intros Ha Hb Hma Hmb Hall Hi.
  destruct (find_intersection_ok h A B a b i ma mb) as (found & Hrun & Hchar);
    try assumption.
  { intros m Hm. eapply Forall_forall in Hall; eassumption. }
  rewrite append_new_first_occurrences in Hrun.
  eexists _, _, (first_occurrences found). split; [exact Hrun|].
  split; [apply lookup_ge_None; lia|].
  split.
  { unfold poly_of, polygon, polygon_value.
    rewrite lookup_new0. simpl. now rewrite lookup_new. }
  split; [unfold members; now rewrite lookup_new0|].
  split.
  { intros Hempty. rewrite Hempty in Hchar. simpl in Hchar. now subst. }
  split.
  { intros Hcontract m. rewrite first_occurrences_elem.
    destruct (SphericalPolygon.points i) as [|pt pts] eqn:Hpts; simpl in Hchar.
    - subst found. split; [intros Hm; inversion Hm|].
      intros (_ & q & _ & Hint).
      rewrite Hcontract in Hint by reflexivity. discriminate.
    - apply Hchar. }
  split; [intros x o; apply lookup_ext|].
  repeat split.
  - now apply poly_of_ext.
  - now apply members_ext.
  - now apply poly_of_ext.
  - now apply members_ext.
Qed.

End Footprints.

(** *** The setters and the derived footprints on the cell geometry *)

Lemma polygon_setter_stores_copy_witness :
  Cells.overlapping !! 2
  = Some (ObjSkyLine {| SkyLine._polygon := Some 4; SkyLine._members := Some [1] |}) /\
  exists h' c,
    polygon_setter 2 0 Cells.overlapping = (Ok tt, h') /\
    polygon h' 2 = Ok c /\ c <> 0 /\ Cells.overlapping !! c = None /\
    polygon_value h' c = Ok [1; 2; 3] /\
    forall o,
      polygon (<[0 := o]> h') 2 = Ok c /\
      polygon_value (<[0 := o]> h') c = Ok [1; 2; 3].
Proof.
  split; [reflexivity|].
  exact (proj2 (polygon_setter_stores_copy Cells.overlapping 2 0 _ eq_refl)
               [1; 2; 3] eq_refl).
Defined.

(** C8 as stated fails: the two members of [opened_twice] are equal in
    value, and the setter keeps both; the stored list is not deduplicated by
    value. *)
Lemma members_setter_keeps_equal_members :
  ~ (forall (h : store unit Cells.geometry) self values h' ms,
       members_setter self values h = (Ok tt, h') ->
       members h' self = Ok ms ->
       deduplicated_by_value h' ms).
Proof.
  intros H.
  specialize (H Cells.opened_twice 2 [1; 6]
                (snd (members_setter 2 [1; 6] Cells.opened_twice)) [1; 6]
                eq_refl eq_refl 0 1 1 6 eq_refl eq_refl).
  enough (0 = 1) by discriminate.
  apply H. eexists _, _. repeat split; reflexivity.
Qed.

Lemma members_setter_first_occurrences_witness :
  Cells.opened_twice !! 2
  = Some (ObjSkyLine {| SkyLine._polygon := Some 4; SkyLine._members := Some [1] |}) /\
  Forall (fun v => isinstance_SkyLineMember Cells.opened_twice v = true) [1; 6; 1] /\
  exists h',
    members_setter 2 [1; 6; 1] Cells.opened_twice = (Ok tt, h') /\
    members h' 2 = Ok [1; 6] /\
    polygon h' 2 = Ok 4.
Proof.
  split; [reflexivity|].
  assert (Hall : Forall (fun v => isinstance_SkyLineMember Cells.opened_twice v = true)
                        [1; 6; 1])
    by (repeat constructor).
  split; [exact Hall|].
  exact (proj1 (members_setter_first_occurrences
                  Cells.opened_twice 2 _ [1; 6; 1] eq_refl) Hall).
Defined.

(** C6 as stated fails: the union of the two footprints of [opened_twice]
    lists both members, although they are equal in value. *)
Lemma add_image_keeps_equal_members :
  ~ (forall (h : store unit Cells.geometry) A B r h' ms,
       add_image A B h = (Ok r, h') ->
       members h' r = Ok ms ->
       deduplicated_by_value h' ms).
Proof.
  intros H.
  specialize (H Cells.opened_twice 2 7 10
                (snd (add_image 2 7 Cells.opened_twice)) [1; 6]
                eq_refl eq_refl 0 1 1 6 eq_refl eq_refl).
  enough (0 = 1) by discriminate.
  apply H. eexists _, _. repeat split; reflexivity.
Qed.

Lemma add_image_new_footprint_witness :
  poly_of Cells.overlapping 2 = Ok [1; 2; 3] /\
  poly_of Cells.overlapping 7 = Ok [2; 3; 4] /\
  members Cells.overlapping 2 = Ok [1] /\
  members Cells.overlapping 7 = Ok [6] /\
  exists r h',
    add_image 2 7 Cells.overlapping = (Ok r, h') /\
    Cells.overlapping !! r = None /\
    poly_of h' r = Ok [1; 2; 3; 4] /\
    (forall p, polygon h' r = Ok p -> Cells.overlapping !! p = None) /\
    members h' r = Ok [1; 6] /\
    (forall x o, Cells.overlapping !! x = Some o -> h' !! x = Some o) /\
    poly_of h' 2 = Ok [1; 2; 3] /\ members h' 2 = Ok [1] /\
    poly_of h' 7 = Ok [2; 3; 4] /\ members h' 7 = Ok [6].
Proof.
  repeat (split; [reflexivity|]).
  apply (add_image_new_footprint Cells.overlapping 2 7
           [1; 2; 3] [2; 3; 4] [1; 2; 3; 4] [1] [6]);
    try reflexivity.
  repeat constructor.
Defined.

Lemma find_intersection_new_footprint_witness :
  poly_of Cells.overlapping 2 = Ok [1; 2; 3] /\
  poly_of Cells.overlapping 7 = Ok [2; 3; 4] /\
  members Cells.overlapping 2 = Ok [1] /\
  members Cells.overlapping 7 = Ok [6] /\
  exists r h' ms,
    find_intersection 2 7 Cells.overlapping = (Ok r, h') /\
    Cells.overlapping !! r = None /\
    poly_of h' r = Ok [2; 3] /\
    members h' r = Ok ms /\
    (([2; 3] : list nat) = [] -> ms = []) /\
    ((forall q : list nat, ([2; 3] : list nat) = [] ->
        Cells.intersects_poly [2; 3] q = false) ->
     forall m, m ∈ ms <->
       m ∈ [1; 6] /\
       exists q, SkyLineMember_polygon_value Cells.overlapping m = Ok q /\
                 Cells.intersects_poly [2; 3] q = true) /\
    (forall x o, Cells.overlapping !! x = Some o -> h' !! x = Some o) /\
    poly_of h' 2 = Ok [1; 2; 3] /\ members h' 2 = Ok [1] /\
    poly_of h' 7 = Ok [2; 3; 4] /\ members h' 7 = Ok [6].
Proof.
  repeat (split; [reflexivity|]).
  apply (find_intersection_new_footprint Cells.overlapping 2 7
           [1; 2; 3] [2; 3; 4] [2; 3] [1] [6]);
    try reflexivity.
  repeat constructor; eexists; reflexivity.
Defined.

(** ** Searching for the largest overlap *)

Section Overlap.

Context {WCS : Type} {G : SphericalPolygon.lib}.

Variable SKYLINE_DEBUG : bool.

Implicit Types (h : store WCS G) (self : ref) (l : list ref) (m a : float).

Import PyFloat PyFloatFacts.

Local Abbreviation overlap := (overlap_area SKYLINE_DEBUG).

Local Abbreviation has_area := (has_area SKYLINE_DEBUG).

Lemma all_pairs_impl (P Q : ref -> ref -> Prop) l :
  (forall x y, P x y -> Q x y) -> all_pairs P l -> all_pairs Q l.
Proof.
  intros HPQ. induction l as [|x l IH]; simpl; [trivial|].
  intros [Hx Hl]. split; [|now apply IH].
  eapply Forall_impl; [exact Hx|]. intros y. apply HPQ.
Qed.

Lemma all_pairs_lookup (P : ref -> ref -> Prop) l i j x y :
  all_pairs P l -> i < j -> l !! i = Some x -> l !! j = Some y -> P x y.
Proof.
  revert i j. induction l as [|z l IH]; intros i j Hall Hij Hi Hj.
  - discriminate.
  - destruct Hall as [Hz Hl]. destruct j as [|j]; [lia|].
    destruct i as [|i]; simpl in *.
    + injection Hi as ->. eapply Forall_forall in Hz; [exact Hz|].
      eapply list_elem_of_lookup_2, Hj.
    + eapply (IH i j); [assumption|lia|assumption|assumption].
Qed.

(** The loop of [find_max_overlap] from any state [(max_skyline, m)]:
    the area it ends with is below no area of the list, and either the
    state is unchanged or the candidate is the first to reach that area. *)
Lemma find_max_overlap_loop_spec h self l : forall (ms : option ref) m,
  nonneg m = true ->
  Forall (has_area h self) l ->
  exists ms' m',
    find_max_overlap_loop SKYLINE_DEBUG h self l ms m = Ok (ms', m') /\
    nonneg m' = true /\
    (forall c a, c ∈ l -> overlap h self c = Ok a -> gt a m' = false) /\
    ((ms' = ms /\ m' = m) \/
     (exists k c,
        l !! k = Some c /\ ms' = Some c /\ overlap h self c = Ok m' /\
        gt m' m = true /\
        forall j c' a', j < k -> l !! j = Some c' ->
                        overlap h self c' = Ok a' -> gt m' a' = true)).
Proof.
  induction l as [|c l IH]; intros ms m Hm Hall.
  - exists ms, m. simpl. repeat split; auto.
    intros c a Hc. inversion Hc.
  - inversion Hall as [|? ? (a & Ha & Hna) Hall']; subst.
    simpl. rewrite Ha. simpl.
    destruct (gt a m) eqn:Hgt.
    + destruct (IH (Some c) a Hna Hall') as (ms' & m' & Hrun & Hm' & Hmax & Hcase).
      exists ms', m'. split; [exact Hrun|]. split; [exact Hm'|].
      assert (Hc : gt a m' = false).
      { destruct Hcase as [[_ ->]|(k & c2 & _ & _ & _ & Hgt2 & _)].
        - apply gt_irrefl.
        - now apply gt_asym. }
      split.
      * intros c' a' Hc' Ha'. apply elem_of_cons in Hc' as [->|Hc'].
        -- congruence.
        -- eauto.
      * right. destruct Hcase as [[-> ->]|(k & c2 & Hk & -> & Hc2 & Hgt2 & Hfirst)].
        -- exists 0, c. repeat split; auto. intros; lia.
        -- exists (S k), c2. repeat split; auto.
           ++ eapply gt_trans; eassumption.
           ++ intros [|j] c' a' Hj Hc' Ha'; simpl in Hc'.
              ** injection Hc' as <-. congruence.
              ** eapply Hfirst; [|eassumption..]. lia.
    + destruct (IH ms m Hm Hall') as (ms' & m' & Hrun & Hm' & Hmax & Hcase).
      exists ms', m'. split; [exact Hrun|]. split; [exact Hm'|].
      assert (Hc : m' = m \/ gt m' a = true).
      { destruct Hcase as [[_ ->]|(k & c2 & _ & _ & _ & Hgt2 & _)]; [now left|].
        right. eapply gt_of_not_gt; [| |exact Hgt|exact Hgt2];
          now apply nonneg_not_nan. }
      split.
      * intros c' a' Hc' Ha'. apply elem_of_cons in Hc' as [->|Hc'].
        -- assert (a' = a) by congruence. subst a'.
           destruct Hc as [->|Hc]; [assumption|now apply gt_asym].
        -- eauto.
      * destruct Hcase as [[-> ->]|(k & c2 & Hk & -> & Hc2 & Hgt2 & Hfirst)];
          [now left|].
        right. exists (S k), c2. repeat split; auto.
        intros [|j] c' a' Hj Hc' Ha'; simpl in Hc'.
        -- injection Hc' as <-. assert (a' = a) by congruence. subst a'.
           destruct Hc as [->|Hc]; [|assumption].
           now rewrite gt_irrefl in Hgt2.
        -- eapply Hfirst; [|eassumption..]. lia.
Qed.

(** [find_max_overlap]: nothing when no area is above [0.0], otherwise the
    first candidate to reach the largest area. *)
Lemma find_max_overlap_spec h self l :
  Forall (has_area h self) l ->
  exists ms a,
    find_max_overlap SKYLINE_DEBUG h self l = Ok (ms, a) /\
    nonneg a = true /\
    (forall c' a', c' ∈ l -> overlap h self c' = Ok a' -> gt a' a = false) /\
    ((ms = None /\ a = zero) \/
     (exists k c,
        l !! k = Some c /\ ms = Some c /\ overlap h self c = Ok a /\
        gt a zero = true /\
        forall j c' a', j < k -> l !! j = Some c' ->
                        overlap h self c' = Ok a' -> gt a a' = true)).
Proof.
  intros Hall.
  destruct (find_max_overlap_loop_spec h self l None zero eq_refl Hall)
    as (ms & a & Hrun & Ha & Hmax & Hcase).
  exists ms, a. repeat split; auto.
Qed.

(** The candidate returned is one of the list. *)
Lemma find_max_overlap_loop_elem h self l : forall (ms : option ref) m c a,
  find_max_overlap_loop SKYLINE_DEBUG h self l ms m = Ok (Some c, a) ->
  ms = Some c \/ c ∈ l.
Proof.
  induction l as [|x l IH]; intros ms m c a; simpl.
  - intros [= -> _]. now left.
  - destruct (overlap_area SKYLINE_DEBUG h self x) as [ax|]; simpl; [|discriminate].
    destruct (gt ax m); intros Hrun; apply IH in Hrun as [Hrun|Hrun].
    + injection Hrun as ->. right. now left.
    + right. now right.
    + now left.
    + right. now right.
Qed.

Lemma find_max_overlap_elem h self l c a :
  find_max_overlap SKYLINE_DEBUG h self l = Ok (Some c, a) -> c ∈ l.
Proof.
  intros Hrun. apply find_max_overlap_loop_elem in Hrun as [|]; [discriminate|assumption].
Qed.

Local Abbreviation no_overlap := (no_overlap SKYLINE_DEBUG).

(** The loop over the indices is the scan along the list. *)
Lemma max_overlap_pair_loop_scan h rest : forall pre mp m,
  max_overlap_pair_loop SKYLINE_DEBUG h (pre ++ rest)
    (seq (length pre) (length rest - 1)) mp m
  = pair_scan SKYLINE_DEBUG h rest mp m.
Proof.
  induction rest as [|x rest IH]; intros pre mp m; [reflexivity|].
  destruct rest as [|y rest]; [reflexivity|].
  replace (length (x :: y :: rest) - 1) with (S (length rest)) by (simpl; lia).
  cbn [seq max_overlap_pair_loop pair_scan].
  rewrite list_lookup_middle by reflexivity.
  replace (drop (S (length pre)) (pre ++ x :: y :: rest)) with (y :: rest)
    by (rewrite (cons_middle x), app_assoc, drop_app_length'; [reflexivity|];
        rewrite length_app; simpl; lia).
  destruct (find_max_overlap SKYLINE_DEBUG h x (y :: rest)) as [r|e];
    [|reflexivity].
  cbn [mbind result_bind].
  specialize (IH (pre ++ [x])).
  rewrite <- app_assoc, length_app in IH. simpl in IH.
  replace (length pre + 1) with (S (length pre)) in IH by lia.
  rewrite Nat.sub_0_r in IH.
  destruct (gt (snd r) m); apply IH.
Qed.

Lemma max_overlap_pair_scan h l :
  max_overlap_pair SKYLINE_DEBUG h l = pair_scan SKYLINE_DEBUG h l None zero.
Proof. apply (max_overlap_pair_loop_scan h l []). Qed.

(** The scan from any state [(max_pair, m)]: either the state is unchanged
    and no pair has an area above [m], or the pair returned is a footprint
    and the candidate [find_max_overlap] matched to it among those after it,
    with an area above [m] that no pair exceeds. *)
Lemma pair_scan_spec h rest : forall (mp : option (ref * option ref)) m,
  nonneg m = true ->
  all_pairs (has_area h) rest ->
  exists mp',
    pair_scan SKYLINE_DEBUG h rest mp m = Ok mp' /\
    ((mp' = mp /\
      all_pairs (fun x y => forall a, overlap h x y = Ok a -> gt a m = false) rest) \/
     (exists i j s1 s2 a,
        i < j /\ rest !! i = Some s1 /\ rest !! j = Some s2 /\
        find_max_overlap SKYLINE_DEBUG h s1 (drop (S i) rest) = Ok (Some s2, a) /\
        overlap h s1 s2 = Ok a /\ gt a m = true /\
        mp' = Some (s1, Some s2) /\
        all_pairs (fun x y => forall a', overlap h x y = Ok a' -> gt a' a = false)
                  rest)).
Proof.
  induction rest as [|x rest IH]; intros mp m Hm Hall.
  - exists mp. split; [reflexivity|]. left. now split.
  - destruct Hall as [Hx Hall].
    destruct rest as [|y rest].
    { exists mp. split; [reflexivity|]. left. repeat split; constructor. }
    set (rest' := y :: rest) in *.
    destruct (find_max_overlap_spec h x rest' Hx)
      as (ns & ia & Hfind & Hia & Hrow & Hns).
    cbn [pair_scan]. fold rest'. rewrite Hfind. cbn [mbind result_bind fst snd].
    assert (Hrow' : forall b, nonneg b = true -> gt b ia = true ->
              Forall (fun y => forall a', overlap h x y = Ok a' -> gt a' b = false) rest').
    { intros b Hb Hgt. apply Forall_forall. intros c Hc a' Ha'.
      eapply Forall_forall in Hx as (a0 & Ha0 & Hn0); [|exact Hc].
      assert (a' = a0) by congruence. subst a0.
      apply gt_asym. eapply gt_of_not_gt; [| |eapply Hrow; eassumption|exact Hgt];
        now apply nonneg_not_nan. }
    destruct (gt ia m) eqn:Hgt.
    + destruct Hns as [[-> ->]|(k & c & Hk & -> & Hc & Hpos & _)].
      { now rewrite zero_not_gt in Hgt. }
      destruct (IH (Some (x, Some c)) ia Hia Hall) as (mp' & Hrun & Hcase).
      exists mp'. split; [exact Hrun|]. right.
      destruct Hcase as [[-> Hrest]|(i & j & s1 & s2 & a & Hij & Hi & Hj & Hf & Ha &
                                     Hgt2 & -> & Hrest)].
      * exists 0, (S k), x, c, ia.
        do 7 (split; [first [assumption|reflexivity|lia]|]).
        split; [|exact Hrest].
        apply Forall_forall. intros c' Hc' a' Ha'. eapply Hrow; eassumption.
      * exists (S i), (S j), s1, s2, a.
        do 5 (split; [first [assumption|reflexivity|lia]|]).
        split; [eapply gt_trans; eassumption|].
        split; [reflexivity|].
        split; [|exact Hrest].
        apply Hrow'; [|assumption]. eapply nonneg_of_gt; eassumption.
    + destruct (IH mp m Hm Hall) as (mp' & Hrun & Hcase).
      exists mp'. split; [exact Hrun|].
      assert (Hxm : Forall (fun y => forall a', overlap h x y = Ok a' -> gt a' m = false) rest').
      { apply Forall_forall. intros c Hc a' Ha'.
        eapply not_gt_trans; [| |eapply Hrow; eassumption|exact Hgt];
          now apply nonneg_not_nan. }
      destruct Hcase as [[-> Hrest]|(i & j & s1 & s2 & a & Hij & Hi & Hj & Hf & Ha &
                                     Hgt2 & -> & Hrest)].
      * left. split; [reflexivity|]. split; assumption.
      * right. exists (S i), (S j), s1, s2, a.
        do 7 (split; [first [assumption|reflexivity|lia]|]).
        split; [|exact Hrest].
        apply Forall_forall. intros c Hc a' Ha'.
        eapply Forall_forall in Hxm; [|exact Hc]. specialize (Hxm a' Ha').
        eapply Forall_forall in Hx as (a0 & Ha0 & Hn0); [|exact Hc].
        assert (a' = a0) by congruence. subst a0.
        apply gt_asym. eapply gt_of_not_gt; [| |exact Hxm|exact Hgt2];
          now apply nonneg_not_nan.
Qed.

(** [max_overlap_pair]: nothing when no pair has an area above [0.0],
    otherwise a pair whose area no pair exceeds. *)
Lemma max_overlap_pair_spec h l :
  all_pairs (has_area h) l ->
  (max_overlap_pair SKYLINE_DEBUG h l = Ok None /\
   all_pairs (fun x y => forall a, overlap h x y = Ok a -> gt a zero = false) l) \/
  (exists i j s1 s2 a,
     i < j /\ l !! i = Some s1 /\ l !! j = Some s2 /\
     find_max_overlap SKYLINE_DEBUG h s1 (drop (S i) l) = Ok (Some s2, a) /\
     overlap h s1 s2 = Ok a /\ gt a zero = true /\
     max_overlap_pair SKYLINE_DEBUG h l = Ok (Some (s1, Some s2)) /\
     all_pairs (fun x y => forall a', overlap h x y = Ok a' -> gt a' a = false) l).
Proof.
  intros Hall. rewrite max_overlap_pair_scan.
  destruct (pair_scan_spec h l None zero eq_refl Hall) as (mp' & -> & Hcase).
  destruct Hcase as [[-> Hrest]|(i & j & s1 & s2 & a & Hij & Hi & Hj & Hf & Ha & Hgt & -> & Hrest)].
  - now left.
  - right. exists i, j, s1, s2, a. repeat split; auto.
Qed.

Lemma no_overlap_has_area h x y : no_overlap h x y -> has_area h x y.
Proof. intros (a & Ha & Hz). exists a. split; [assumption|now apply eqb_zero_nonneg]. Qed.

(** C4: [find_max_overlap] returns [(None, 0.0)] when no candidate has an
    area above [0.0]; otherwise it returns, with its area, the first
    candidate in scan order whose area is above [0.0], above the area of
    every earlier candidate and below the area of none.  Candidates with
    areas [5.0, 5.0, 3.0] give the first one. *)
Theorem find_max_overlap_first_largest h self candidates :
  Forall (has_area h self) candidates ->
  ((find_max_overlap SKYLINE_DEBUG h self candidates = Ok (None, zero) /\
    forall c a, c ∈ candidates -> overlap h self c = Ok a -> gt a zero = false) \/
   (exists k c a,
      candidates !! k = Some c /\ overlap h self c = Ok a /\
      find_max_overlap SKYLINE_DEBUG h self candidates = Ok (Some c, a) /\
      gt a zero = true /\
      (forall j c' a', j < k -> candidates !! j = Some c' ->
                       overlap h self c' = Ok a' -> gt a a' = true) /\
      (forall c' a', c' ∈ candidates -> overlap h self c' = Ok a' ->
                     gt a' a = false))) /\
  (forall c0 c1 c2,
     candidates = [c0; c1; c2] ->
     overlap h self c0 = Ok (of_nat 5) ->
     overlap h self c1 = Ok (of_nat 5) ->
     overlap h self c2 = Ok (of_nat 3) ->
     find_max_overlap SKYLINE_DEBUG h self candidates = Ok (Some c0, of_nat 5)).
Proof.
  intros Hall. split.
  - destruct (find_max_overlap_spec h self candidates Hall)
      as (ms & a & Hrun & Ha & Hmax & [[-> ->]|(k & c & Hk & -> & Hc & Hpos & Hfirst)]).
    + left. split; assumption.
    + right. exists k, c, a. repeat split; auto.
  - intros c0 c1 c2 -> H0 H1 H2.
    unfold find_max_overlap. simpl. rewrite H0, H1, H2. reflexivity.
Qed.

(** C5: [max_overlap_pair] scans [skylines[i].find_max_overlap(skylines[i+1:])]
    for every [i] up to [len - 2]; it returns [None] when no pair has an area
    above [0.0], in particular when every pair has a zero overlap, and
    otherwise the pair of a footprint and the candidate matched to it whose
    area is above [0.0] and below the area of no pair. *)
Theorem max_overlap_pair_largest h skylines :
  all_pairs (has_area h) skylines ->
  max_overlap_pair SKYLINE_DEBUG h skylines
  = pair_scan SKYLINE_DEBUG h skylines None zero /\
  ((max_overlap_pair SKYLINE_DEBUG h skylines = Ok None /\
    all_pairs (fun x y => forall a, overlap h x y = Ok a -> gt a zero = false)
              skylines) \/
   (exists i j s1 s2 a,
      i < j /\ skylines !! i = Some s1 /\ skylines !! j = Some s2 /\
      find_max_overlap SKYLINE_DEBUG h s1 (drop (S i) skylines) = Ok (Some s2, a) /\
      overlap h s1 s2 = Ok a /\ gt a zero = true /\
      max_overlap_pair SKYLINE_DEBUG h skylines = Ok (Some (s1, Some s2)) /\
      all_pairs (fun x y => forall a', overlap h x y = Ok a' -> gt a' a = false)
                skylines)) /\
  (all_pairs (no_overlap h) skylines ->
   max_overlap_pair SKYLINE_DEBUG h skylines = Ok None).
Proof.
  intros Hall. split; [apply max_overlap_pair_scan|].
  split; [now apply max_overlap_pair_spec|].
  intros Hzero.
  destruct (max_overlap_pair_spec h skylines Hall)
    as [[Hrun _]|(i & j & s1 & s2 & a & Hij & Hi & Hj & _ & Ha & Hgt & _)];
    [exact Hrun|].
  destruct (all_pairs_lookup _ _ _ _ _ _ Hzero Hij Hi Hj) as (a' & Ha' & Hz).
  assert (a' = a) by congruence. subst a'.
  rewrite (eqb_zero_not_gt _ Hz) in Hgt. discriminate.
Qed.

End Overlap.

(** *** The search on the cell geometry *)

Lemma find_max_overlap_first_largest_witness :
  Forall (has_area true Cells.tie 2) [7; 12; 17] /\
  find_max_overlap true Cells.tie 2 [7; 12; 17] = Ok (Some 7, PyFloat.of_nat 5).
Proof.
  assert (H : Forall (has_area true Cells.tie 2) [7; 12; 17])
    by (repeat constructor; eexists; split; reflexivity).
  split; [exact H|].
  exact (proj2 (find_max_overlap_first_largest true Cells.tie 2 [7; 12; 17] H)
               7 12 17 eq_refl eq_refl eq_refl eq_refl).
Defined.

Lemma max_overlap_pair_largest_witness :
  all_pairs (has_area true Cells.disjoint) [2; 7; 12] /\
  all_pairs (no_overlap true Cells.disjoint) [2; 7; 12] /\
  max_overlap_pair true Cells.disjoint [2; 7; 12] = Ok None.
Proof.
  assert (H1 : all_pairs (has_area true Cells.disjoint) [2; 7; 12])
    by (simpl; repeat split; repeat constructor; eexists; split; reflexivity).
  assert (H2 : all_pairs (no_overlap true Cells.disjoint) [2; 7; 12])
    by (simpl; repeat split; repeat constructor; eexists; split; reflexivity).
  split; [exact H1|]. split; [exact H2|].
  exact (proj2 (proj2 (max_overlap_pair_largest true Cells.disjoint [2; 7; 12] H1)) H2).
Defined.

(** ** What a computation leaves alone *)

Section Frame.

Context {WCS : Type} {G : SphericalPolygon.lib}.

Implicit Types (h : store WCS G) (n self : ref).

Local Open Scope py_scope.

Lemma preserves_weaken {A} n (m : M WCS G A) (Q Q' : A -> Prop) :
  preserves n m Q -> (forall a, Q a -> Q' a) -> preserves n m Q'.
Proof.
  intros Hm HQ h r h' Hn Hrun.
  destruct (Hm h r h' Hn Hrun) as (? & ? & ?). auto.
Qed.

Lemma preserves_ret {A} n (a : A) (Q : A -> Prop) :
  Q a -> preserves n (ret a : M WCS G A) Q.
Proof. intros HQ h r h' Hn [= <- <-]. repeat split; auto. now intros ? [= <-]. Qed.

Lemma preserves_raise {A} n e (Q : A -> Prop) :
  preserves n (raise e : M WCS G A) Q.
Proof. intros h r h' Hn [= <- <-]. repeat split; auto. discriminate. Qed.

Lemma preserves_reads {A} n (f : store WCS G -> result A) :
  preserves n (reads f) any.
Proof. intros h r h' Hn [= <- <-]. repeat split; auto. Qed.

Lemma preserves_alloc n (o : pyobj WCS G) :
  preserves n (alloc o) (fun r => n <= r).
Proof.
  intros h r h' Hn [= <- <-]. rewrite length_app. repeat split.
  - lia.
  - now rewrite take_app_le.
  - intros a [= <-]. exact Hn.
Qed.

Lemma preserves_write n r (o : pyobj WCS G) :
  n <= r -> preserves n (write r o) any.
Proof.
  intros Hr h res h' Hn [= <- <-]. rewrite length_insert. repeat split.
  - exact Hn.
  - now apply take_insert_ge.
Qed.

Lemma preserves_bind {A B} n (m : M WCS G A) (f : A -> M WCS G B)
    (Q : A -> Prop) (R : B -> Prop) :
  preserves n m Q -> (forall a, Q a -> preserves n (f a) R) ->
  preserves n (bind m f) R.
Proof.
  intros Hm Hf h r h' Hn. unfold bind.
  destruct (m h) as [[a|e] h1] eqn:E;
    destruct (Hm h _ h1 Hn E) as (Hn1 & Htake & HQ).
  - intros Hrun.
    destruct (Hf a (HQ a eq_refl) h1 r h' Hn1 Hrun) as (? & ? & ?).
    repeat split; auto. congruence.
  - intros [= <- <-]. repeat split; auto. discriminate.
Qed.

Lemma preserves_attempt {A} n (m : M WCS G A) (Q : A -> Prop) :
  preserves n m Q -> preserves n (attempt m) any.
Proof.
  intros Hm h r h' Hn. unfold attempt.
  destruct (m h) as [r1 h1] eqn:E. intros [= <- <-].
  destruct (Hm h _ h1 Hn E) as (? & ? & ?). repeat split; auto.
Qed.

Lemma preserves_for_ {A} n (l : list A) (body : A -> M WCS G unit) :
  (forall x, preserves n (body x) any) -> preserves n (for_ l body) any.
Proof.
  intros Hbody. induction l as [|x l IH]; simpl.
  - now apply preserves_ret.
  - eapply preserves_bind; [apply Hbody|]. intros _ _. exact IH.
Qed.

Lemma preserves_set__polygon n self v :
  n <= self -> preserves n (set__polygon self v : M WCS G unit) any.
Proof.
  intros Hn h r h' Hh. unfold set__polygon.
  destruct (h !! self) as [[]|].
  all: try (intros [= <- <-]; repeat split; auto; discriminate).
  now apply preserves_write.
Qed.

Lemma preserves_set__members n self ms :
  n <= self -> preserves n (set__members self ms : M WCS G unit) any.
Proof.
  intros Hn h r h' Hh. unfold set__members.
  destruct (h !! self) as [[]|].
  all: try (intros [= <- <-]; repeat split; auto; discriminate).
  now apply preserves_write.
Qed.

Lemma preserves_copy n v :
  preserves n (copy v : M WCS G ref) (fun r => n <= r).
Proof.
  intros h r h' Hh. unfold copy.
  destruct (h !! v) as [[]|].
  all: try (intros [= <- <-]; repeat split; auto; discriminate).
  now apply preserves_alloc.
Qed.

Lemma preserves_py_assert n b :
  preserves n (py_assert b : M WCS G unit) any.
Proof.
  destruct b; [now apply preserves_ret|apply preserves_raise].
Qed.

Lemma preserves_polygon_setter n self v :
  n <= self -> preserves n (polygon_setter self v : M WCS G unit) any.
Proof.
  intros Hn. unfold polygon_setter.
  eapply preserves_bind; [apply preserves_reads|]. intros b _.
  eapply preserves_bind; [apply preserves_py_assert|]. intros _ _.
  eapply preserves_bind; [apply preserves_copy|]. intros c _.
  now apply preserves_set__polygon.
Qed.

Lemma preserves_members_setter n self values :
  n <= self -> preserves n (members_setter self values : M WCS G unit) any.
Proof.
  intros Hn. unfold members_setter.
  eapply preserves_bind; [now apply preserves_set__members|]. intros _ _.
  apply preserves_for_. intros v. unfold members_setter_body.
  eapply preserves_bind; [apply preserves_reads|]. intros b _.
  eapply preserves_bind; [apply preserves_py_assert|]. intros _ _.
  eapply preserves_bind; [apply preserves_reads|]. intros ms _.
  destruct (bool_decide (v ∈ ms)); [now apply preserves_ret|].
  now apply preserves_set__members.
Qed.

Lemma preserves_SkyLine__init__ n member :
  preserves n (SkyLine__init__ member : M WCS G ref) (fun r => n <= r).
Proof.
  unfold SkyLine__init__.
  eapply preserves_bind; [apply preserves_alloc|]. intros self Hself.
  eapply preserves_bind; [now apply preserves_members_setter|]. intros _ _.
  eapply preserves_bind; [apply preserves_reads|]. intros ms _.
  eapply preserves_bind with (Q := any).
  - destruct ms as [|m [|m' ms]].
    + eapply preserves_bind; [apply preserves_alloc|]. intros e _.
      now apply preserves_polygon_setter.
    + eapply preserves_bind; [apply preserves_reads|]. intros p _.
      eapply preserves_bind; [apply preserves_copy|]. intros c _.
      now apply preserves_polygon_setter.
    + apply preserves_raise.
  - intros _ _. now apply preserves_ret.
Qed.

Lemma preserves_add_image n self other :
  preserves n (add_image self other : M WCS G ref) any.
Proof.
  unfold add_image.
  eapply preserves_bind; [apply preserves_SkyLine__init__|]. intros newcls Hnew.
  eapply preserves_bind.
  { unfold SkyLine_union.
    eapply preserves_bind; [apply preserves_reads|]. intros u _.
    apply preserves_alloc. }
  intros u _.
  eapply preserves_bind; [now apply preserves_polygon_setter|]. intros _ _.
  eapply preserves_bind; [apply preserves_reads|]. intros ms _.
  eapply preserves_bind; [apply preserves_reads|]. intros mo _.
  eapply preserves_bind; [now apply preserves_members_setter|]. intros _ _.
  now apply preserves_ret.
Qed.

(** A computation that preserves the whole store it starts from only adds
    to it. *)
Lemma preserves_extends {A} (m : M WCS G A) (Q : A -> Prop) h r h' :
  preserves (length h) m Q -> m h = (r, h') -> exists ext, h' = h ++ ext.
Proof.
  intros Hm Hrun.
  destruct (Hm h r h' (le_n _) Hrun) as (Hlen & Htake & _).
  exists (drop (length h) h').
  rewrite <- (take_drop (length h) h') at 1.
  f_equal. rewrite Htake. apply firstn_all.
Qed.

Lemma add_image_extends self other h r h' :
  add_image self other h = (r, h') -> exists ext, h' = h ++ ext.
Proof. apply preserves_extends with (Q := any), preserves_add_image. Qed.

End Frame.

(** ** Growing the mosaic *)

Section Mosaic.

Context {WCS : Type} {G : SphericalPolygon.lib}.

Variable SKYLINE_DEBUG : bool.

Implicit Types (h : store WCS G) (st : locals) (l : list ref).

Local Open Scope py_scope.

(** One pass of the loop when no candidate overlaps the mosaic. *)
Lemma grow_step_none st h a :
  find_max_overlap SKYLINE_DEBUG h (l_mosaic st) (l_remaining st) = Ok (None, a) ->
  grow_step SKYLINE_DEBUG st h
  = (match mapR (_rough_id h) (l_remaining st) with
     | Ok ids => Ok (Break {| l_mosaic := l_mosaic st;
                              l_out_order := l_out_order st;
                              l_excluded := l_excluded st ++ ids;
                              l_remaining := l_remaining st |})
     | Raise e => Raise e
     end, h).
Proof.
  intros Hfind. unfold grow_step, bind, reads, ret. rewrite Hfind. simpl.
  now destruct (mapR (_rough_id h) (l_remaining st)).
Qed.

(** One pass of the loop when [next] is the candidate to add: the outcome
    of the [try] statement in the store [add_image] leaves, then the
    removal of [next]. *)
Lemma grow_step_some st h next a :
  find_max_overlap SKYLINE_DEBUG h (l_mosaic st) (l_remaining st)
  = Ok (Some next, a) ->
  grow_step SKYLINE_DEBUG st h
  = (let h1 := snd (add_image (l_mosaic st) next h) in
     let outcome :=
       match fst (add_image (l_mosaic st) next h) with
       | Ok new_mos =>
           id ← _rough_id h1 next;
           Ok (new_mos, l_out_order st ++ [id], l_excluded st)
       | Raise e =>
           if caught e then
             if SKYLINE_DEBUG then
               id ← _rough_id h1 next;
               Ok (l_mosaic st, l_out_order st, l_excluded st ++ [id])
             else Raise e
           else Raise e
       end in
     match list_remove next (l_remaining st) with
     | Raise e => Raise e
     | Ok remaining =>
         match outcome with
         | Raise e => Raise e
         | Ok (m, o, x) =>
             Ok (Continue {| l_mosaic := m; l_out_order := o;
                             l_excluded := x; l_remaining := remaining |})
         end
     end,
     snd (add_image (l_mosaic st) next h)).
Proof.
  intros Hfind. unfold grow_step, bind, reads, ret, attempt, raise.
  rewrite Hfind. simpl.
  destruct (add_image (l_mosaic st) next h) as [[new_mos|e] h1]; simpl.
  - destruct (_rough_id h1 next) as [id|e]; simpl;
      now destruct (list_remove next (l_remaining st)).
  - destruct (caught e), SKYLINE_DEBUG; simpl;
      try (now destruct (list_remove next (l_remaining st))).
    destruct (_rough_id h1 next) as [id|e']; simpl;
      now destruct (list_remove next (l_remaining st)).
Qed.

Lemma grow_step_extends st h r h' :
  grow_step SKYLINE_DEBUG st h = (r, h') -> exists ext, h' = h ++ ext.
Proof.
  destruct (find_max_overlap SKYLINE_DEBUG h (l_mosaic st) (l_remaining st))
    as [[[next|] a]|e] eqn:Hfind.
  - rewrite (grow_step_some _ _ _ _ Hfind). cbv zeta. intros [= _ <-].
    destruct (add_image (l_mosaic st) next h) as [r1 h1] eqn:Hadd.
    eapply add_image_extends, Hadd.
  - rewrite (grow_step_none _ _ _ Hfind). intros [= _ <-].
    exists []. now rewrite app_nil_r.
  - unfold grow_step, bind, reads. rewrite Hfind. intros [= _ <-].
    exists []. now rewrite app_nil_r.
Qed.

(** A pass that goes on has removed one footprint; its identifier went to
    one of the two lists. *)
Lemma grow_step_continue st h st' h' :
  grow_step SKYLINE_DEBUG st h = (Ok (Continue st'), h') ->
  exists next id,
    list_remove next (l_remaining st) = Ok (l_remaining st') /\
    _rough_id h' next = Ok id /\
    ((l_out_order st' = l_out_order st ++ [id] /\
      l_excluded st' = l_excluded st) \/
     (l_out_order st' = l_out_order st /\
      l_excluded st' = l_excluded st ++ [id] /\
      l_mosaic st' = l_mosaic st)).
Proof.
  destruct (find_max_overlap SKYLINE_DEBUG h (l_mosaic st) (l_remaining st))
    as [[[next|] a]|e] eqn:Hfind.
  - rewrite (grow_step_some _ _ _ _ Hfind). cbv zeta.
    destruct (add_image (l_mosaic st) next h) as [r1 h1] eqn:Hadd. simpl.
    destruct (list_remove next (l_remaining st)) as [rem|e] eqn:Hrm; [|discriminate].
    destruct r1 as [new_mos|e].
    + destruct (_rough_id h1 next) as [id|e] eqn:Hid; simpl; [|discriminate].
      intros [= <- <-]. exists next, id. simpl. auto 6.
    + destruct (caught e), SKYLINE_DEBUG; try discriminate.
      destruct (_rough_id h1 next) as [id|e'] eqn:Hid; simpl; [|discriminate].
      intros [= <- <-]. exists next, id. simpl. auto 6.
  - rewrite (grow_step_none _ _ _ Hfind).
    destruct (mapR (_rough_id h) (l_remaining st)); discriminate.
  - unfold grow_step, bind, reads. rewrite Hfind. discriminate.
Qed.


(** The loop does not run out of passes when it is given as many as there
    are footprints remaining. *)
Lemma grow_loop_terminates fuel : forall st h,
  length (l_remaining st) <= fuel ->
  fst (grow_loop SKYLINE_DEBUG fuel st h) <> Ok None.
Proof.
  induction fuel as [|fuel IH]; intros st h Hlen.
  - destruct st as [m o x [|s rem]]; simpl in *; [discriminate|lia].
  - destruct (l_remaining st) as [|s rem] eqn:Hrem.
    { simpl. rewrite Hrem. discriminate. }
    simpl. rewrite Hrem. unfold bind.
    destruct (grow_step SKYLINE_DEBUG st h) as [[[st'|st']|e] h1] eqn:Hstep;
      try discriminate.
    apply IH.
    destruct (grow_step_continue _ _ _ _ Hstep) as (next & id & Hrm & _).
    apply list_remove_length in Hrm. rewrite Hrem in Hrm. simpl in *. lia.
Qed.

(** More passes than footprints remaining change nothing. *)
Lemma grow_loop_fuel fuel : forall st h fuel',
  length (l_remaining st) <= fuel -> fuel <= fuel' ->
  grow_loop SKYLINE_DEBUG fuel' st h = grow_loop SKYLINE_DEBUG fuel st h.
Proof.
  induction fuel as [|fuel IH]; intros st h fuel' Hlen Hle.
  - destruct st as [m o x [|s rem]]; simpl in *; [|lia].
    now destruct fuel'.
  - destruct fuel' as [|fuel']; [lia|].
    destruct (l_remaining st) as [|s rem] eqn:Hrem.
    { simpl. now rewrite Hrem. }
    simpl. rewrite Hrem. unfold bind.
    destruct (grow_step SKYLINE_DEBUG st h) as [[[st'|st']|e] h1] eqn:Hstep;
      try reflexivity.
    apply IH; [|lia].
    destruct (grow_step_continue _ _ _ _ Hstep) as (next & id & Hrm & _).
    apply list_remove_length in Hrm. rewrite Hrem in Hrm. simpl in *. lia.
Qed.

Lemma mosaic_within_fuel skylines h fuel :
  length skylines - 2 <= fuel ->
  mosaic_within SKYLINE_DEBUG fuel skylines h
  = mosaic_within SKYLINE_DEBUG (length skylines - 2) skylines h.
Proof.
  intros Hfuel. unfold mosaic_within, bind, reads.
  destruct (max_overlap_pair SKYLINE_DEBUG h skylines) as [[[s1 [s2|]]|]|e];
    try reflexivity.
  destruct (add_image s1 s2 h) as [[m|e] h1]; try reflexivity.
  destruct (_rough_id h1 s1) as [id1|e]; try reflexivity.
  destruct (_rough_id h1 s2) as [id2|e]; try reflexivity.
  destruct (list_remove s1 skylines) as [r1|e] eqn:Hr1; try reflexivity.
  destruct (list_remove s2 r1) as [r2|e] eqn:Hr2; try reflexivity.
  apply list_remove_length in Hr1, Hr2.
  rewrite (grow_loop_fuel (length skylines - 2) _ _ fuel);
    [reflexivity|simpl; lia|assumption].
Qed.

Lemma mosaic_within_terminates skylines h fuel :
  length skylines - 2 <= fuel ->
  fst (mosaic_within SKYLINE_DEBUG fuel skylines h) <> Ok None.
Proof.
  intros Hfuel. unfold mosaic_within, bind, reads.
  destruct (max_overlap_pair SKYLINE_DEBUG h skylines) as [[[s1 [s2|]]|]|e];
    try discriminate.
  destruct (add_image s1 s2 h) as [[m|e] h1]; try discriminate.
  destruct (_rough_id h1 s1) as [id1|e]; try discriminate.
  destruct (_rough_id h1 s2) as [id2|e]; try discriminate.
  destruct (list_remove s1 skylines) as [r1|e] eqn:Hr1; try discriminate.
  destruct (list_remove s2 r1) as [r2|e] eqn:Hr2; try discriminate.
  apply list_remove_length in Hr1, Hr2.
  match goal with
  | |- context [grow_loop _ ?f ?st ?h] =>
      pose proof (grow_loop_terminates f st h) as Hterm;
      destruct (grow_loop SKYLINE_DEBUG f st h) as [[[st'|]|e] h2]
  end; try discriminate.
  exfalso. apply Hterm; [simpl; lia|reflexivity].
Qed.

(** C2: a pass of the growing loop that goes on, the union having succeeded
    or having been given up, has removed exactly one footprint from the
    remaining ones; so the loop of [mosaic] on [n] footprints ends within
    [n - 2] passes: that many suffice, and more change nothing. *)
Theorem mosaic_loop_terminates :
  (forall st h st' h',
     grow_step SKYLINE_DEBUG st h = (Ok (Continue st'), h') ->
     exists next,
       next ∈ l_remaining st /\
       list_remove next (l_remaining st) = Ok (l_remaining st') /\
       length (l_remaining st) = S (length (l_remaining st'))) /\
  (forall st h fuel,
     length (l_remaining st) <= fuel ->
     fst (grow_loop SKYLINE_DEBUG fuel st h) <> Ok None) /\
  (forall skylines h fuel,
     length skylines - 2 <= fuel ->
     fst (mosaic_within SKYLINE_DEBUG fuel skylines h) <> Ok None /\
     mosaic_within SKYLINE_DEBUG fuel skylines h
     = mosaic_within SKYLINE_DEBUG (length skylines - 2) skylines h).
Proof.
  split; [|split].
  - intros st h st' h' Hstep.
    destruct (grow_step_continue _ _ _ _ Hstep) as (next & id & Hrm & _).
    exists next. split; [|split].
    + apply list_remove_perm in Hrm.
      apply list_elem_of_In. eapply Permutation_in; [symmetry; exact Hrm|].
      now left.
    + exact Hrm.
    + now apply list_remove_length in Hrm.
  - intros st h fuel. apply grow_loop_terminates.
  - intros skylines h fuel Hfuel. split.
    + now apply mosaic_within_terminates.
    + now apply mosaic_within_fuel.
Qed.

Lemma mapR_total {A B} (f : A -> result B) (g : A -> B) (xs : list A) :
  Forall (fun x => f x = Ok (g x)) xs -> mapR f xs = Ok (map g xs).
Proof.
  induction 1 as [|x xs Hx Hxs IH]; [reflexivity|].
  simpl. rewrite Hx, IH. reflexivity.
Qed.


Lemma mapR_rough_ids h l : forall ids,
  mapR (_rough_id h) l = Ok ids ->
  Forall (fun s => _rough_id h s = Ok (rough_id_of h s)) l /\
  ids = map (rough_id_of h) l.
Proof.
  induction l as [|s l IH]; intros ids; simpl.
  - intros [= <-]. split; [constructor|reflexivity].
  - destruct (_rough_id h s) as [i|e] eqn:Hs; simpl; [|discriminate].
    destruct (mapR (_rough_id h) l) as [ids'|e]; simpl; [|discriminate].
    intros [= <-]. destruct (IH ids' eq_refl) as [Hall ->].
    split.
    + constructor; [|exact Hall]. unfold rough_id_of. now rewrite Hs.
    + simpl. f_equal. unfold rough_id_of. now rewrite Hs.
Qed.


Lemma find_max_overlap_zero h self l :
  Forall (no_overlap SKYLINE_DEBUG h self) l ->
  find_max_overlap SKYLINE_DEBUG h self l = Ok (None, PyFloat.zero).
Proof.
  unfold find_max_overlap.
  induction 1 as [|c l (a & Ha & Hz) Hl IH]; [reflexivity|].
  simpl. rewrite Ha. simpl.
  now rewrite (PyFloatFacts.eqb_zero_not_gt _ Hz).
Qed.

(** With exactly one overlapping pair, that pair is the one found. *)
Lemma max_overlap_pair_single h skylines i j s1 s2 a :
  i < j -> skylines !! i = Some s1 -> skylines !! j = Some s2 ->
  overlap_area SKYLINE_DEBUG h s1 s2 = Ok a ->
  PyFloat.gt a PyFloat.zero = true ->
  all_pairs (fun x y => (x = s1 /\ y = s2) \/ no_overlap SKYLINE_DEBUG h x y)
            skylines ->
  max_overlap_pair SKYLINE_DEBUG h skylines = Ok (Some (s1, Some s2)).
Proof.
  intros Hij Hi Hj Ha Hpos Hall.
  assert (Hna : PyFloat.nonneg a = true)
    by (eapply PyFloatFacts.nonneg_of_gt; [|exact Hpos]; reflexivity).
  destruct (max_overlap_pair_spec SKYLINE_DEBUG h skylines)
    as [[_ Hnone]|(i' & j' & x & y & a' & Hij' & Hi' & Hj' & _ & Ha' & Hpos' & Hrun & _)].
  - eapply all_pairs_impl; [|exact Hall].
    intros x y [[-> ->]|Hz]; [now exists a|now apply no_overlap_has_area].
  - pose proof (all_pairs_lookup _ _ _ _ _ _ Hnone Hij Hi Hj a Ha) as Hc.
    congruence.
  - destruct (all_pairs_lookup _ _ _ _ _ _ Hall Hij' Hi' Hj') as [[-> ->]|(z & Hz & Hzero)].
    + exact Hrun.
    + assert (z = a') by congruence. subst z.
      rewrite (PyFloatFacts.eqb_zero_not_gt _ Hzero) in Hpos'. discriminate.
Qed.

(** C1: when [max_overlap_pair] finds no pair, [mosaic] returns no mosaic
    and two empty lists.  When exactly one pair of the footprints overlaps,
    their union succeeds and overlaps none of the other footprints,
    [mosaic] returns that union, the identifiers of the two seeds as the
    inclusion list, and the identifiers of the [n - 2] other footprints as
    the exclusion list. *)
Theorem mosaic_no_pair_or_single_pair h skylines :
  (max_overlap_pair SKYLINE_DEBUG h skylines = Ok None ->
   mosaic SKYLINE_DEBUG skylines h = (Ok (Some (None, [], [])), h)) /\
  (forall i j s1 s2 a ids m h1,
     NoDup skylines ->
     i < j -> skylines !! i = Some s1 -> skylines !! j = Some s2 ->
     overlap_area SKYLINE_DEBUG h s1 s2 = Ok a ->
     PyFloat.gt a PyFloat.zero = true ->
     all_pairs (fun x y => (x = s1 /\ y = s2) \/ no_overlap SKYLINE_DEBUG h x y)
               skylines ->
     mapR (_rough_id h) skylines = Ok ids ->
     add_image s1 s2 h = (Ok m, h1) ->
     Forall (no_overlap SKYLINE_DEBUG h1 m) (others s1 s2 skylines) ->
     exists i1 i2 exc,
       _rough_id h s1 = Ok i1 /\ _rough_id h s2 = Ok i2 /\
       mapR (_rough_id h) (others s1 s2 skylines) = Ok exc /\
       length exc = length skylines - 2 /\
       mosaic SKYLINE_DEBUG skylines h = (Ok (Some (Some m, [i1; i2], exc)), h1)).
Proof.
  split.
  { intros Hnone. unfold mosaic, mosaic_within, bind, reads. now rewrite Hnone. }
  intros i j s1 s2 a ids m h1 Hnd Hij Hi Hj Ha Hpos Hall Hids Hadd Hothers.
  pose proof (max_overlap_pair_single _ _ _ _ _ _ _ Hij Hi Hj Ha Hpos Hall) as Hpair.
  destruct (mapR_rough_ids _ _ _ Hids) as [Hidf _].
  set (idf := rough_id_of h) in *.
  assert (Hs1 : s1 ∈ skylines) by (eapply list_elem_of_lookup_2; exact Hi).
  assert (Hs2 : s2 ∈ skylines) by (eapply list_elem_of_lookup_2; exact Hj).
  assert (Hne : s2 <> s1).
  { intros ->. pose proof (NoDup_lookup _ _ _ _ Hnd Hi Hj). lia. }
  assert (Hi1 : _rough_id h s1 = Ok (idf s1))
    by (eapply Forall_forall in Hidf; [exact Hidf|exact Hs1]).
  assert (Hi2 : _rough_id h s2 = Ok (idf s2))
    by (eapply Forall_forall in Hidf; [exact Hidf|exact Hs2]).
  assert (Hr1 : list_remove s1 skylines = Ok (filter (fun y => y <> s1) skylines))
    by now apply list_remove_NoDup.
  assert (Hr2 : list_remove s2 (filter (fun y => y <> s1) skylines)
                = Ok (others s1 s2 skylines)).
  { apply list_remove_NoDup; [now apply NoDup_filter|].
    apply list_elem_of_filter. now split. }
  assert (Hox : Forall (fun s => _rough_id h s = Ok (idf s)) (others s1 s2 skylines)).
  { apply Forall_forall. intros x Hx.
    eapply Forall_forall in Hidf; [exact Hidf|].
    unfold others in Hx. apply list_elem_of_filter in Hx as [_ Hx].
    now apply list_elem_of_filter in Hx as [_ Hx]. }
  exists (idf s1), (idf s2), (map idf (others s1 s2 skylines)).
  split; [exact Hi1|]. split; [exact Hi2|].
  split; [now apply mapR_total|].
  split.
  { rewrite length_map.
    apply list_remove_length in Hr1, Hr2. lia. }
  destruct (add_image_extends _ _ _ _ _ Hadd) as [ext ->].
  unfold mosaic, mosaic_within, bind, reads.
  rewrite Hpair, Hadd.
  rewrite (_rough_id_ext _ _ _ _ Hi1), (_rough_id_ext _ _ _ _ Hi2), Hr1, Hr2.
  destruct (others s1 s2 skylines) as [|o os] eqn:Hos.
  - destruct skylines; reflexivity.
  - destruct skylines as [|s0 skylines']; [inversion Hs1|].
    cbn [length grow_loop l_remaining]. unfold bind.
    rewrite (grow_step_none _ _ PyFloat.zero).
    + cbn [l_remaining]. rewrite (mapR_total _ idf); [reflexivity|].
      eapply Forall_impl; [exact Hox|]. intros x Hx. simpl.
      now apply _rough_id_ext.
    + cbn [l_mosaic l_remaining]. now apply find_max_overlap_zero.
Qed.

End Mosaic.

(** ** Geometry errors *)

Section Recovery.

Context {WCS : Type} {G : SphericalPolygon.lib}.

Implicit Types (h : store WCS G) (st : locals) (l : list ref).

Lemma overlap_area_caught h self c e debug :
  intersection_area h self c = Raise e -> caught e = true ->
  overlap_area debug h self c = if debug then Ok PyFloat.zero else Raise e.
Proof. intros He Hc. unfold overlap_area. now rewrite He, Hc. Qed.

(** In tolerant mode a candidate whose intersection fails is passed over. *)
Lemma find_max_overlap_loop_skip h self c e post pre : forall ms m,
  PyFloat.nonneg m = true ->
  intersection_area h self c = Raise e -> caught e = true ->
  find_max_overlap_loop true h self (pre ++ c :: post) ms m
  = find_max_overlap_loop true h self (pre ++ post) ms m.
Proof.
  induction pre as [|x pre IH]; intros ms m Hm He Hc.
  - simpl. rewrite (overlap_area_caught _ _ _ _ true He Hc). simpl.
    now rewrite PyFloatFacts.zero_not_gt.
  - simpl. destruct (overlap_area true h self x) as [a|e']; [|reflexivity].
    simpl. destruct (PyFloat.gt a m) eqn:Hgt.
    + apply IH; [|assumption..]. eapply PyFloatFacts.nonneg_of_gt; eassumption.
    + now apply IH.
Qed.

(** In strict mode the scan stops at the first candidate whose intersection
    fails. *)
Lemma find_max_overlap_loop_raise h self c e post pre : forall ms m,
  Forall (fun x => exists a, overlap_area false h self x = Ok a) pre ->
  intersection_area h self c = Raise e -> caught e = true ->
  find_max_overlap_loop false h self (pre ++ c :: post) ms m = Raise e.
Proof.
  induction pre as [|x pre IH]; intros ms m Hpre He Hc.
  - simpl. now rewrite (overlap_area_caught _ _ _ _ false He Hc).
  - inversion Hpre as [|? ? [a Ha] Hpre']; subst.
    simpl. rewrite Ha. simpl. destruct (PyFloat.gt a m); now apply IH.
Qed.

(** C3: a [ValueError] or [AssertionError] of the geometry library is
    handled in two places.  In [find_max_overlap], the candidate whose
    intersection fails counts for [0.0] and the scan goes on as if it were
    not in the list when the flag is on; when the flag is off the scan
    raises the error.  In the growing loop of [mosaic], when the union with
    the chosen footprint fails, the flag on, the footprint's identifier goes
    to the exclusion list, the mosaic and the inclusion list stay as they
    are and the loop goes on; the flag off, the pass raises the error.  The
    union of the two seeds is not protected: its failure is raised by
    [mosaic] whatever the flag. *)
Theorem geometry_error_recovery :
  (forall h self c e,
     intersection_area h self c = Raise e -> caught e = true ->
     (overlap_area true h self c = Ok PyFloat.zero /\
      forall pre post,
        find_max_overlap true h self (pre ++ c :: post)
        = find_max_overlap true h self (pre ++ post)) /\
     (overlap_area false h self c = Raise e /\
      forall pre post,
        Forall (fun x => exists a, overlap_area false h self x = Ok a) pre ->
        find_max_overlap false h self (pre ++ c :: post) = Raise e)) /\
  (forall (debug : bool) st h next a p q e id,
     find_max_overlap debug h (l_mosaic st) (l_remaining st) = Ok (Some next, a) ->
     poly_of h (l_mosaic st) = Ok p -> poly_of h next = Ok q ->
     SphericalPolygon.union p q = Raise e -> caught e = true ->
     _rough_id h next = Ok id ->
     exists remaining h1,
       list_remove next (l_remaining st) = Ok remaining /\
       grow_step debug st h
       = (if debug
          then Ok (Continue {| l_mosaic := l_mosaic st;
                               l_out_order := l_out_order st;
                               l_excluded := l_excluded st ++ [id];
                               l_remaining := remaining |})
          else Raise e,
          h1) /\
       forall fuel,
         grow_loop debug (S fuel) st h
         = if debug
           then grow_loop debug fuel
                  {| l_mosaic := l_mosaic st;
                     l_out_order := l_out_order st;
                     l_excluded := l_excluded st ++ [id];
                     l_remaining := remaining |} h1
           else (Raise e, h1)) /\
  (forall (debug : bool) h skylines s1 s2 p q e,
     max_overlap_pair debug h skylines = Ok (Some (s1, Some s2)) ->
     poly_of h s1 = Ok p -> poly_of h s2 = Ok q ->
     SphericalPolygon.union p q = Raise e ->
     fst (mosaic debug skylines h) = Raise e).
Proof.
  split; [|split].
  - intros h self c e He Hc. split; split.
    + apply (overlap_area_caught _ _ _ _ true He Hc).
    + intros pre post. unfold find_max_overlap.
      now apply find_max_overlap_loop_skip with e.
    + apply (overlap_area_caught _ _ _ _ false He Hc).
    + intros pre post Hpre. unfold find_max_overlap.
      now apply find_max_overlap_loop_raise.
  - intros debug st h next a p q e id Hfind Hp Hq Hu Hc Hid.
    destruct (list_remove_elem next (l_remaining st)) as [remaining Hrm].
    { eapply find_max_overlap_elem, Hfind. }
    exists remaining. eexists.
    assert (Hstep : grow_step debug st h
                    = (if debug
                       then Ok (Continue {| l_mosaic := l_mosaic st;
                                            l_out_order := l_out_order st;
                                            l_excluded := l_excluded st ++ [id];
                                            l_remaining := remaining |})
                       else Raise e,
                       h ++ [ObjSkyLine {| SkyLine._polygon := Some (length h + 2);
                                           SkyLine._members := Some [] |};
                             ObjPolygon (SphericalPolygon.make []);
                             ObjPolygon (SphericalPolygon.make [])])).
    { rewrite (grow_step_some _ _ _ _ _ Hfind).
      rewrite (add_image_union_raise _ _ _ _ _ _ Hp Hq Hu).
      cbn [fst snd]. rewrite Hc, Hrm.
      destruct debug; [|reflexivity].
      now rewrite (_rough_id_ext _ _ _ _ Hid). }
    split; [exact Hrm|]. split; [exact Hstep|].
    intros fuel. cbn [grow_loop].
    destruct (l_remaining st) as [|s rem]; [discriminate|].
    unfold bind. rewrite Hstep. now destruct debug.
  - intros debug h skylines s1 s2 p q e Hpair Hp Hq Hu.
    unfold mosaic, mosaic_within, bind, reads. rewrite Hpair.
    now rewrite (add_image_union_raise _ _ _ _ _ _ Hp Hq Hu).
Qed.

End Recovery.

(** *** The mosaic on the cell geometry *)

Lemma mosaic_no_pair_or_single_pair_witness :
  NoDup [2; 7; 12; 17] /\
  overlap_area true Cells.single_pair 2 12 = Ok (PyFloat.of_nat 2) /\
  all_pairs (fun x y => (x = 2 /\ y = 12) \/ no_overlap true Cells.single_pair x y)
            [2; 7; 12; 17] /\
  Forall (no_overlap true (snd (add_image 2 12 Cells.single_pair)) 20) [7; 17] /\
  exists i1 i2 exc,
    _rough_id Cells.single_pair 2 = Ok i1 /\
    _rough_id Cells.single_pair 12 = Ok i2 /\
    mapR (_rough_id Cells.single_pair) [7; 17] = Ok exc /\
    length exc = 2 /\
    mosaic true [2; 7; 12; 17] Cells.single_pair
    = (Ok (Some (Some 20, [i1; i2], exc)), snd (add_image 2 12 Cells.single_pair)).
Proof.
  assert (Hnd : NoDup [2; 7; 12; 17])
    by (apply (bool_decide_unpack _); reflexivity).
  assert (Hall : all_pairs (fun x y => (x = 2 /\ y = 12) \/
                                       no_overlap true Cells.single_pair x y)
                           [2; 7; 12; 17]).
  { simpl. repeat split;
      repeat (match goal with |- Forall _ _ => constructor end);
      first [right; eexists; split; reflexivity | left; split; reflexivity]. }
  assert (Hoth : Forall (no_overlap true (snd (add_image 2 12 Cells.single_pair)) 20)
                        [7; 17])
    by (repeat constructor; eexists; split; reflexivity).
  split; [exact Hnd|]. split; [reflexivity|]. split; [exact Hall|].
  split; [exact Hoth|].
  exact (proj2 (mosaic_no_pair_or_single_pair true Cells.single_pair [2; 7; 12; 17])
               0 2 2 12 (PyFloat.of_nat 2) _ 20 _
               Hnd (Nat.lt_0_succ 1) eq_refl eq_refl eq_refl eq_refl Hall
               eq_refl eq_refl Hoth).
Defined.

Lemma mosaic_loop_terminates_witness :
  length [2; 7; 12; 17] - 2 <= 5 /\
  fst (mosaic_within true 5 [2; 7; 12; 17] Cells.growth) <> Ok None /\
  mosaic_within true 5 [2; 7; 12; 17] Cells.growth
  = mosaic_within true (length [2; 7; 12; 17] - 2) [2; 7; 12; 17] Cells.growth.
Proof.
  assert (H : length [2; 7; 12; 17] - 2 <= 5) by (simpl; lia).
  split; [exact H|].
  exact (proj2 (proj2 (mosaic_loop_terminates true))
               [2; 7; 12; 17] Cells.growth 5 H).
Defined.

Lemma geometry_error_recovery_witness :
  intersection_area Cells.faulty 2 12 = Raise ValueError /\
  ((overlap_area true Cells.faulty 2 12 = Ok PyFloat.zero /\
    forall pre post,
      find_max_overlap true Cells.faulty 2 (pre ++ 12 :: post)
      = find_max_overlap true Cells.faulty 2 (pre ++ post)) /\
   (overlap_area false Cells.faulty 2 12 = Raise ValueError /\
    forall pre post,
      Forall (fun x => exists a, overlap_area false Cells.faulty 2 x = Ok a) pre ->
      find_max_overlap false Cells.faulty 2 (pre ++ 12 :: post) = Raise ValueError)) /\
  find_max_overlap true Cells.faulty 2 [17] = Ok (Some 17, PyFloat.of_nat 1) /\
  Cells.union [1; 2; 3] [1; 77] = Raise ValueError /\
  exists remaining h1,
    list_remove 17 [17] = Ok remaining /\
    grow_step true {| l_mosaic := 2; l_out_order := []; l_excluded := [];
                      l_remaining := [17] |} Cells.faulty
    = (Ok (Continue {| l_mosaic := 2; l_out_order := [];
                       l_excluded := [] ++ [Some "d"%string];
                       l_remaining := remaining |}), h1) /\
    forall fuel,
      grow_loop true (S fuel)
        {| l_mosaic := 2; l_out_order := []; l_excluded := [];
           l_remaining := [17] |} Cells.faulty
      = grow_loop true fuel
          {| l_mosaic := 2; l_out_order := [];
             l_excluded := [] ++ [Some "d"%string];
             l_remaining := remaining |} h1.
Proof.
  split; [reflexivity|].
  split; [exact (proj1 geometry_error_recovery Cells.faulty 2 12 ValueError
                       eq_refl eq_refl)|].
  split; [reflexivity|]. split; [reflexivity|].
  exact (proj1 (proj2 geometry_error_recovery) true
               {| l_mosaic := 2; l_out_order := []; l_excluded := [];
                  l_remaining := [17] |}
               Cells.faulty 17 (PyFloat.of_nat 1) [1; 2; 3] [1; 77] ValueError
               (Some "d"%string) eq_refl eq_refl eq_refl eq_refl eq_refl eq_refl).
Defined.


(** * More of the module *)

(** ** Opening a file *)

Ltac store_norm :=
  repeat first
    [ rewrite <- !app_assoc
    | rewrite !length_app
    | rewrite insert_new
    | rewrite insert_new0 ];
  simpl.

Section OpeningFacts.

Context {WCS : Type} {G : SphericalPolygon.lib} {F : Files.lib WCS G}.

Implicit Types (h : store WCS G) (pf : list string) (fname extname : string).

Local Open Scope py_scope.

Lemma upper_ascii_idemp c : upper_ascii (upper_ascii c) = upper_ascii c.
Proof. destruct c as [[] [] [] [] [] [] [] []]; reflexivity. Qed.

Lemma upper_idemp s : upper (upper s) = upper s.
Proof. induction s as [|c s IH]; simpl; [reflexivity|]. now rewrite upper_ascii_idemp, IH. Qed.

Lemma mapR_app {A B} (f : A -> result B) (l1 l2 : list A) :
  mapR f (l1 ++ l2) = (r1 ← mapR f l1; r2 ← mapR f l2; Ok (r1 ++ r2)).
Proof.
  induction l1 as [|x l1 IH]; simpl.
  - now destruct (mapR f l2).
  - destruct (f x); simpl; [|reflexivity]. rewrite IH.
    destruct (mapR f l1); simpl; [|reflexivity].
    now destruct (mapR f l2).
Qed.

Lemma mapR_length {A B} (f : A -> result B) (l : list A) r :
  mapR f l = Ok r -> length r = length l.
Proof.
  revert r. induction l as [|x l IH]; simpl; intros r.
  - intros [= <-]. reflexivity.
  - destruct (f x); simpl; [|discriminate].
    destruct (mapR f l); simpl; [|discriminate].
    intros [= <-]. simpl. f_equal. now apply IH.
Qed.

(** The loop over the extensions: the indices it collects and the WCS it
    reads for each of them. *)
Lemma scan_extensions_ok fname extname pf : forall i el wl el' wl',
  scan_extensions fname extname i pf el wl = Ok (el', wl') ->
  el' = el ++ matching extname i pf /\
  exists ws, mapR (Files.HSTWCS fname) (matching extname i pf) = Ok ws /\
             wl' = wl ++ ws.
Proof.
  induction pf as [|name pf IH]; simpl; intros i el wl el' wl' H.
  - injection H as <- <-. rewrite !app_nil_r. split; [reflexivity|].
    exists []. now rewrite app_nil_r.
  - destruct (bool_decide (upper name = extname)).
    + destruct (Files.HSTWCS fname i) as [w|e] eqn:Hw; simpl in H; [|discriminate].
      apply IH in H as (-> & ws & Hws & ->).
      split; [now rewrite <- app_assoc|].
      exists (w :: ws). simpl. rewrite Hw. simpl. rewrite Hws. simpl.
      now rewrite <- app_assoc.
    + now apply IH in H.
Qed.

Lemma matching_elem extname pf : forall i k,
  k ∈ matching extname i pf <->
  exists name, i <= k /\ pf !! (k - i) = Some name /\ upper name = extname.
Proof.
  induction pf as [|name pf IH]; simpl; intros i k.
  - split; [intros H; inversion H|]. now intros (? & _ & ? & _).
  - destruct (bool_decide_reflect (upper name = extname)) as [Hn|Hn].
    + rewrite elem_of_cons, IH. split.
      * intros [->|(n & Hle & Hl & Hu)].
        -- exists name. replace (i - i) with 0 by lia. auto.
        -- exists n. split; [lia|]. split; [|exact Hu].
           replace (k - i) with (S (k - S i)) by lia. exact Hl.
      * intros (n & Hle & Hl & Hu).
        destruct (decide (k = i)) as [->|Hne]; [now left|].
        right. exists n. split; [lia|]. split; [|exact Hu].
        replace (k - i) with (S (k - S i)) in Hl by lia. exact Hl.
    + rewrite IH. split.
      * intros (n & Hle & Hl & Hu). exists n. split; [lia|]. split; [|exact Hu].
        replace (k - i) with (S (k - S i)) by lia. exact Hl.
      * intros (n & Hle & Hl & Hu).
        destruct (decide (k = i)) as [->|Hne].
        { replace (i - i) with 0 in Hl by lia. simpl in Hl.
          injection Hl as ->. contradiction. }
        exists n. split; [lia|]. split; [|exact Hu].
        replace (k - i) with (S (k - S i)) in Hl by lia. exact Hl.
Qed.

Lemma matching_increasing extname pf : forall i j k a b,
  j < k ->
  matching extname i pf !! j = Some a -> matching extname i pf !! k = Some b ->
  a < b.
Proof.
  induction pf as [|name pf IH]; simpl; intros i j k a b Hjk Ha Hb;
    [discriminate|].
  destruct (bool_decide (upper name = extname)); [|eapply IH; eassumption].
  destruct k as [|k]; [lia|]. simpl in Hb.
  destruct j as [|j]; simpl in Ha.
  - injection Ha as <-.
    apply list_elem_of_lookup_2, matching_elem in Hb as (? & Hle & _). lia.
  - eapply (IH (S i) j k); [lia|eassumption..].
Qed.

Lemma matching_nil extname pf : forall i,
  Forall (fun name => upper name <> extname) pf -> matching extname i pf = [].
Proof.
  induction pf as [|name pf IH]; simpl; intros i Hall; [reflexivity|].
  inversion Hall as [|? ? Hn Hrest]; subst.
  rewrite bool_decide_eq_false_2 by exact Hn. now apply IH.
Qed.

Lemma scan_extensions_none fname extname pf : forall i el wl,
  Forall (fun name => upper name <> extname) pf ->
  scan_extensions fname extname i pf el wl = Ok (el, wl).
Proof.
  induction pf as [|name pf IH]; simpl; intros i el wl Hall; [reflexivity|].
  inversion Hall as [|? ? Hn Hrest]; subst.
  rewrite bool_decide_eq_false_2 by exact Hn. now apply IH.
Qed.

(** A constructor that raises has not touched the store. *)
Lemma SkyLineMember__init__no_wcs_store fname extname h e h' :
  SkyLineMember__init__ fname extname h = (Raise e, h') -> h' = h.
Proof.
  unfold SkyLineMember__init__, bind, reads, ret, raise, alloc.
  destruct (_ ← Files.pyfits_open fname; _) as [[el wl]|e0]; simpl.
  2:{ now intros [= _ <-]. }
  destruct wl as [|w [|w' wl]]; simpl.
  - now intros [= _ <-].
  - destruct (Files.from_wcs w); [discriminate|]. now intros [= _ <-].
  - destruct (Files.output_wcs _) as [w0|]; simpl; [|now intros [= _ <-]].
    destruct (Files.from_wcs w0); [discriminate|]. now intros [= _ <-].
Qed.

(** X1: [SkyLineMember(fname, extname)] on a file that opens but has no
    extension named [extname] (an empty file included) raises [ValueError];
    and whenever the constructor raises, for whatever reason, it leaves the
    store as it found it: no half-built member remains. *)
Theorem SkyLineMember__init__no_wcs fname extname h :
  (forall pf,
     Files.pyfits_open fname = Ok pf ->
     Forall (fun name => upper name <> upper extname) pf ->
     SkyLineMember__init__ fname extname h = (Raise ValueError, h)) /\
  (forall e h',
     SkyLineMember__init__ fname extname h = (Raise e, h') -> h' = h).
Proof.
  split.
  - intros pf Hpf Hall. unfold SkyLineMember__init__.
    erewrite bind_ok; cycle 1.
    { rewrite reads_eq, Hpf. simpl.
      rewrite scan_extensions_none by exact Hall. reflexivity. }
    reflexivity.
  - apply SkyLineMember__init__no_wcs_store.
Qed.

(** What a successful [SkyLineMember(fname, extname)] has read and built. *)
Lemma SkyLineMember__init__inv fname extname h m h' :
  SkyLineMember__init__ fname extname h = (Ok m, h') ->
  exists pf o p ws,
    Files.pyfits_open fname = Ok pf /\
    h' = h ++ [ObjPolygon p; ObjMember o] /\ m = S (length h) /\
    SkyLineMember._fname o = fname /\
    SkyLineMember._polygon o = length h /\
    SkyLineMember._ext o = matching (upper extname) 0 pf /\
    ws <> [] /\
    mapR (Files.HSTWCS fname) (SkyLineMember._ext o) = Ok ws /\
    match ws with
    | [w] => SkyLineMember._wcs o = w
    | _ => Files.output_wcs ws = Ok (SkyLineMember._wcs o)
    end /\
    Files.from_wcs (SkyLineMember._wcs o) = Ok p.
Proof.
  unfold SkyLineMember__init__, bind, reads, ret, raise, alloc.
  destruct (Files.pyfits_open fname) as [pf|] eqn:Hpf; simpl; [|discriminate].
  destruct (scan_extensions _ _ _ _ _ _) as [[el wl]|] eqn:Hscan; simpl;
    [|discriminate].
  apply scan_extensions_ok in Hscan as (-> & ws & Hws & ->). simpl in *.
  destruct ws as [|w [|w' ws]]; simpl; [discriminate| |].
  - destruct (Files.from_wcs w) as [p|] eqn:Hp; [|discriminate].
    intros [= <- <-].
    eexists pf, _, p, [w]. simpl.
    rewrite length_app, <- app_assoc. simpl.
    do 2 (split; [reflexivity|]). split; [lia|].
    do 3 (split; [reflexivity|]). split; [discriminate|].
    split; [exact Hws|]. split; [reflexivity|exact Hp].
  - destruct (Files.output_wcs _) as [w0|] eqn:Hout; simpl; [|discriminate].
    destruct (Files.from_wcs w0) as [p|] eqn:Hp; [|discriminate].
    intros [= <- <-].
    eexists pf, _, p, (w :: w' :: ws). simpl.
    rewrite length_app, <- app_assoc. simpl.
    do 2 (split; [reflexivity|]). split; [lia|].
    do 3 (split; [reflexivity|]). split; [discriminate|].
    split; [exact Hws|]. split; [exact Hout|exact Hp].
Qed.

(** X2: when [SkyLineMember(fname, extname)] succeeds, the store has gained
    the member's polygon and the member, the member's [ext] lists, in
    increasing order, exactly the indices of the extensions whose name is
    [extname] up to the case of letters, there is at least one, its [wcs] is
    the WCS of that extension when there is one and [output_wcs] of all of
    them otherwise, and its polygon is [from_wcs] of that WCS. *)
Theorem SkyLineMember__init__ok fname extname h m h' :
  SkyLineMember__init__ fname extname h = (Ok m, h') ->
  exists pf o p ws,
    Files.pyfits_open fname = Ok pf /\
    h' = h ++ [ObjPolygon p; ObjMember o] /\ m = S (length h) /\
    SkyLineMember._fname o = fname /\
    SkyLineMember._polygon o = length h /\
    SkyLineMember._ext o <> [] /\
    (forall j k a b, j < k ->
       SkyLineMember._ext o !! j = Some a -> SkyLineMember._ext o !! k = Some b ->
       a < b) /\
    (forall i, i ∈ SkyLineMember._ext o <->
               exists name, pf !! i = Some name /\ upper name = upper extname) /\
    mapR (Files.HSTWCS fname) (SkyLineMember._ext o) = Ok ws /\
    match ws with
    | [w] => SkyLineMember._wcs o = w
    | _ => Files.output_wcs ws = Ok (SkyLineMember._wcs o)
    end /\
    Files.from_wcs (SkyLineMember._wcs o) = Ok p.
Proof.
  intros H.
  apply SkyLineMember__init__inv in H
    as (pf & o & p & ws & Hpf & Hh & Hm & Hf & Hp & He & Hne & Hws & Hw & Hfw).
  exists pf, o, p, ws.
  do 5 (split; [assumption|]).
  split.
  { intros Hnil. rewrite Hnil in Hws. simpl in Hws. injection Hws as <-.
    now apply Hne. }
  split; [rewrite He; apply matching_increasing|].
  split; [|auto].
  intros i. rewrite He, matching_elem. replace (i - 0) with i by lia.
  split; [intros (n & _ & ? & ?)|intros (n & ? & ?)]; exists n; auto with lia.
Qed.

(** A footprint made from one member: the new object, the copy of the
    member's polygon made by [__init__] and the copy the setter stores. *)
Lemma SkyLine__init__member h m o p :
  h !! m = Some (ObjMember o) ->
  h !! SkyLineMember._polygon o = Some (ObjPolygon p) ->
  SkyLine__init__ (Some m) h
  = (Ok (length h),
     h ++ [ObjSkyLine {| SkyLine._polygon := Some (length h + 2);
                         SkyLine._members := Some [m] |};
           ObjPolygon p; ObjPolygon p]).
Proof.
  intros Hm Hp. unfold SkyLine__init__.
  rewrite (bind_ok _ _ _ _ _ (alloc_eq _ _)).
  erewrite bind_ok; cycle 1.
  { eapply members_setter_ok; [rewrite lookup_new0; reflexivity|].
    constructor; [|constructor].
    apply isinstance_SkyLineMember_ext. unfold isinstance_SkyLineMember.
    now rewrite Hm. }
  store_norm.
  erewrite bind_ok; cycle 1.
  { rewrite reads_eq. unfold members. rewrite lookup_new0. reflexivity. }
  erewrite bind_ok; [reflexivity|]. simpl.
  erewrite bind_ok; cycle 1.
  { rewrite reads_eq. unfold SkyLineMember_polygon.
    rewrite (lookup_ext _ _ _ _ Hm). reflexivity. }
  erewrite bind_ok; cycle 1.
  { apply copy_ok. apply lookup_ext. exact Hp. }
  erewrite polygon_setter_ok; cycle 1.
  { store_norm. rewrite lookup_new0. reflexivity. }
  { store_norm. rewrite lookup_new. reflexivity. }
  store_norm. reflexivity.
Qed.

(** X3: [SkyLine(None)] always succeeds and makes an empty footprint: no
    members, the polygon of no points, no identifier and no WCS; the
    objects already in the store stay as they are. *)
Theorem SkyLine_new_empty extname h :
  exists r h',
    SkyLine_new None extname h = (Ok r, h') /\
    h !! r = None /\
    members h' r = Ok [] /\
    poly_of h' r = Ok (SphericalPolygon.make []) /\
    _rough_id h' r = Ok None /\
    to_wcs h' r = Ok None /\
    (forall x v, h !! x = Some v -> h' !! x = Some v).
Proof.
  eexists _, _. split; [apply SkyLine__init__ok|].
  assert (Hm : members
            (h ++ [ObjSkyLine {| SkyLine._polygon := Some (length h + 2);
                                 SkyLine._members := Some [] |};
                   ObjPolygon (SphericalPolygon.make []);
                   ObjPolygon (SphericalPolygon.make [])]) (length h) = Ok []).
  { unfold members. now rewrite lookup_new0. }
  split; [apply lookup_ge_None; lia|].
  split; [exact Hm|].
  split.
  { unfold poly_of, polygon, polygon_value. rewrite lookup_new0. simpl.
    now rewrite lookup_new. }
  split; [unfold _rough_id; now rewrite Hm|].
  split; [unfold to_wcs, to_wcs_list; now rewrite Hm|].
  intros x v. apply lookup_ext.
Qed.

(** X4: [SkyLine(fname, extname)] succeeds exactly when
    [SkyLineMember(fname, extname)] does.  The footprint then has that one
    member, the file name as its identifier, and a polygon object of its
    own that holds the value of the member's polygon.  When the member
    cannot be made, the same exception leaves the constructor and the store
    is unchanged. *)
Theorem SkyLine_new_file fname extname h :
  (forall m h1,
     SkyLineMember__init__ fname extname h = (Ok m, h1) ->
     exists r h' mp c v,
       SkyLine_new (Some fname) extname h = (Ok r, h') /\
       h1 !! r = None /\
       members h' r = Ok [m] /\
       _rough_id h' r = Ok (Some fname) /\
       SkyLineMember_polygon h' m = Ok mp /\
       polygon h' r = Ok c /\ c <> mp /\
       polygon_value h' mp = Ok v /\ polygon_value h' c = Ok v /\
       (forall x o, h1 !! x = Some o -> h' !! x = Some o)) /\
  (forall e h1,
     SkyLineMember__init__ fname extname h = (Raise e, h1) ->
     SkyLine_new (Some fname) extname h = (Raise e, h)).
Proof.
  split.
  - intros m h1 H. unfold SkyLine_new. rewrite (bind_ok _ _ _ _ _ H).
    apply SkyLineMember__init__inv in H
      as (pf & o & p & ws & _ & -> & -> & Hf & Hp & _).
    assert (Hm : (h ++ [ObjPolygon p; ObjMember o]) !! S (length h)
                 = Some (ObjMember o)).
    { replace (S (length h)) with (length h + 1) by lia. now rewrite lookup_new. }
    assert (Hpl : (h ++ [ObjPolygon p; ObjMember o]) !! SkyLineMember._polygon o
                  = Some (ObjPolygon p)).
    { rewrite Hp. now rewrite lookup_new0. }
    rewrite (SkyLine__init__member _ _ _ _ Hm Hpl).
    set (h1 := h ++ [ObjPolygon p; ObjMember o]) in *.
    eexists _, _, (length h), (length h1 + 2), p.
    split; [reflexivity|].
    split; [apply lookup_ge_None; lia|].
    assert (Hms : members
              (h1 ++ [ObjSkyLine {| SkyLine._polygon := Some (length h1 + 2);
                                    SkyLine._members := Some [S (length h)] |};
                      ObjPolygon p; ObjPolygon p]) (length h1)
            = Ok [S (length h)]).
    { unfold members. now rewrite lookup_new0. }
    split; [exact Hms|].
    split.
    { unfold _rough_id. rewrite Hms. simpl. unfold SkyLineMember_fname.
      rewrite (lookup_ext _ _ _ _ Hm). simpl. now rewrite Hf. }
    split.
    { unfold SkyLineMember_polygon. rewrite (lookup_ext _ _ _ _ Hm).
      simpl. now rewrite Hp. }
    split; [unfold polygon; now rewrite lookup_new0|].
    split; [subst h1; rewrite length_app; simpl; lia|].
    split.
    { unfold polygon_value. rewrite <- Hp. now rewrite (lookup_ext _ _ _ _ Hpl). }
    split; [unfold polygon_value; now rewrite lookup_new|].
    intros x v. apply lookup_ext.
  - intros e h1 H. unfold SkyLine_new.
    rewrite (bind_raise _ _ _ _ _ H).
    destruct (@SkyLineMember__init__no_wcs_store fname extname h e h1 H).
    reflexivity.
Qed.

Lemma mapR_impl {A B} (f g : A -> result B) (l : list A) r :
  (forall x y, x ∈ l -> f x = Ok y -> g x = Ok y) ->
  mapR f l = Ok r -> mapR g l = Ok r.
Proof.
  revert r. induction l as [|x l IH]; simpl; intros r Hfg; [auto|].
  destruct (f x) as [y|] eqn:Hx; simpl; [|discriminate].
  rewrite (Hfg x y) by (auto; left). simpl.
  destruct (mapR f l) as [ys|] eqn:Hl; simpl; [|discriminate].
  rewrite (IH ys); [auto|intros ? ? ?; apply Hfg; now right|reflexivity].
Qed.

Lemma member_wcs_list_ext h ext m l :
  member_wcs_list h m = Ok l -> member_wcs_list (h ++ ext) m = Ok l.
Proof.
  unfold member_wcs_list, SkyLineMember_ext, SkyLineMember_fname.
  destruct (h !! m) as [[]|] eqn:E; try discriminate.
  now rewrite (lookup_ext _ ext _ _ E).
Qed.

Lemma member_wcs_list_isinstance h m l :
  member_wcs_list h m = Ok l -> isinstance_SkyLineMember h m = true.
Proof.
  unfold member_wcs_list, SkyLineMember_ext, isinstance_SkyLineMember.
  now destruct (h !! m) as [[]|].
Qed.

Lemma to_wcs_list_ext h ext self l :
  to_wcs_list h self = Ok l -> to_wcs_list (h ++ ext) self = Ok l.
Proof.
  unfold to_wcs_list.
  destruct (members h self) as [ms|] eqn:Hms; simpl; [|discriminate].
  rewrite (members_ext _ ext _ _ Hms). simpl.
  destruct (mapR (member_wcs_list h) ms) as [ls|] eqn:Hls; simpl; [|discriminate].
  erewrite mapR_impl; [|intros x y _; apply member_wcs_list_ext|exact Hls].
  auto.
Qed.

Lemma mapR_Forall {A B} (f : A -> result B) (l : list A) r :
  mapR f l = Ok r -> Forall (fun x => exists y, f x = Ok y) l.
Proof.
  revert r. induction l as [|x l IH]; simpl; intros r; [constructor|].
  destruct (f x) as [y|] eqn:Hx; simpl; [|discriminate].
  destruct (mapR f l) as [ys|] eqn:Hl; simpl; [|discriminate].
  intros _. constructor; [now exists y|]. now apply (IH ys).
Qed.

(** X5: the WCS of a footprint just opened from a file is [output_wcs] of
    the WCS of the member's extensions, read again from the file; it is never
    [None].  With two extensions or more this is the member's own [wcs]. *)
Theorem to_wcs_of_opened fname extname h r h' :
  SkyLine_new (Some fname) extname h = (Ok r, h') ->
  exists m o ws,
    members h' r = Ok [m] /\
    h' !! m = Some (ObjMember o) /\
    mapR (Files.HSTWCS fname) (SkyLineMember._ext o) = Ok ws /\
    to_wcs h' r = (w ← Files.output_wcs ws; Ok (Some w)) /\
    to_wcs h' r <> Ok None /\
    (2 <= length ws -> to_wcs h' r = Ok (Some (SkyLineMember._wcs o))).
Proof.
  unfold SkyLine_new, bind.
  destruct (SkyLineMember__init__ fname extname h) as [[m|e] h1] eqn:H;
    [|discriminate].
  apply SkyLineMember__init__inv in H
    as (pf & o & p & ws & _ & -> & -> & Hf & Hp & _ & Hne & Hws & Hw & _).
  assert (Hm : (h ++ [ObjPolygon p; ObjMember o]) !! S (length h)
               = Some (ObjMember o)).
  { replace (S (length h)) with (length h + 1) by lia. now rewrite lookup_new. }
  assert (Hpl : (h ++ [ObjPolygon p; ObjMember o]) !! SkyLineMember._polygon o
                = Some (ObjPolygon p)).
  { rewrite Hp. now rewrite lookup_new0. }
  rewrite (SkyLine__init__member _ _ _ _ Hm Hpl).
  intros [= <- <-].
  set (h1 := h ++ [ObjPolygon p; ObjMember o]) in *.
  set (h2 := h1 ++ _).
  assert (Hms : members h2 (length h1) = Ok [S (length h)]).
  { unfold members, h2. now rewrite lookup_new0. }
  assert (Hm2 : h2 !! S (length h) = Some (ObjMember o))
    by apply (lookup_ext _ _ _ _ Hm).
  assert (Hl : to_wcs_list h2 (length h1) = Ok ws).
  { unfold to_wcs_list. rewrite Hms. simpl.
    unfold member_wcs_list, SkyLineMember_ext, SkyLineMember_fname.
    rewrite Hm2. simpl. rewrite Hf.
    erewrite mapR_impl; [|intros x y _ Hx; exact Hx|exact Hws].
    simpl. now rewrite app_nil_r. }
  assert (Ht : to_wcs h2 (length h1) = (w ← Files.output_wcs ws; Ok (Some w))).
  { unfold to_wcs. rewrite Hl. simpl.
    destruct ws; [contradiction|reflexivity]. }
  exists (S (length h)), o, ws.
  do 4 (split; [assumption|]).
  split.
  - rewrite Ht. now destruct (Files.output_wcs ws).
  - intros Hlen. rewrite Ht.
    destruct ws as [|w [|w' ws']]; simpl in Hlen; try lia.
    now rewrite Hw.
Qed.

(** X6: the WCS of a union.  When [A] and [B] have no member in common,
    the list that [to_wcs] hands to [output_wcs] for [A.add_image(B)] is the
    list for [A] followed by the list for [B]; the result is [None] only
    when both are empty. *)
Theorem to_wcs_add_image h (A B : ref) a b u ma mb la lb :
  poly_of h A = Ok a -> poly_of h B = Ok b ->
  SphericalPolygon.union a b = Ok u ->
  members h A = Ok ma -> members h B = Ok mb ->
  NoDup (ma ++ mb) ->
  to_wcs_list h A = Ok la -> to_wcs_list h B = Ok lb ->
  exists r h',
    add_image A B h = (Ok r, h') /\
    to_wcs_list h' r = Ok (la ++ lb) /\
    to_wcs h' r = match la ++ lb with
                  | [] => Ok None
                  | _ :: _ => w ← Files.output_wcs (la ++ lb); Ok (Some w)
                  end.
Proof.
  intros Ha Hb Hu Hma Hmb Hnd Hla Hlb.
  unfold to_wcs_list in Hla, Hlb. rewrite Hma in Hla. rewrite Hmb in Hlb.
  simpl in Hla, Hlb.
  destruct (mapR (member_wcs_list h) ma) as [lsa|] eqn:Ea; [|discriminate].
  destruct (mapR (member_wcs_list h) mb) as [lsb|] eqn:Eb; [|discriminate].
  simpl in Hla, Hlb. injection Hla as <-. injection Hlb as <-.
  assert (Hall : Forall (fun v => isinstance_SkyLineMember h v = true) (ma ++ mb)).
  { apply Forall_app. split.
    - eapply Forall_impl; [exact (mapR_Forall _ _ _ Ea)|].
      intros x [y Hy]. now apply member_wcs_list_isinstance in Hy.
    - eapply Forall_impl; [exact (mapR_Forall _ _ _ Eb)|].
      intros x [y Hy]. now apply member_wcs_list_isinstance in Hy. }
  eexists _, _. split; [exact (add_image_ok _ _ _ _ _ _ _ _ Ha Hb Hu Hma Hmb Hall)|].
  set (h' := h ++ _).
  assert (Hms : members h' (length h) = Ok (ma ++ mb)).
  { unfold members, h'. rewrite lookup_new0. simpl.
    rewrite append_new_first_occurrences.
    f_equal. clear -Hnd. induction (ma ++ mb) as [|x l IH]; [reflexivity|].
    simpl. apply NoDup_cons in Hnd as [Hx Hl]. rewrite (IH Hl).
    f_equal. apply filter_all. apply Forall_forall. intros y Hy ->. contradiction. }
  assert (Hl : to_wcs_list h' (length h) = Ok (concat lsa ++ concat lsb)).
  { unfold to_wcs_list. rewrite Hms. simpl. rewrite mapR_app.
    erewrite (mapR_impl _ _ ma);
      [|intros x y _; apply member_wcs_list_ext|exact Ea].
    simpl.
    erewrite (mapR_impl _ _ mb);
      [|intros x y _; apply member_wcs_list_ext|exact Eb].
    simpl. now rewrite concat_app. }
  split; [exact Hl|].
  unfold to_wcs. rewrite Hl. simpl.
  now destruct (concat lsa ++ concat lsb).
Qed.

End OpeningFacts.

(** ** The search for the largest overlap, whatever the areas are *)

Section OverlapAnyArea.

Context {WCS : Type} {G : SphericalPolygon.lib}.

Variable SKYLINE_DEBUG : bool.

Implicit Types (h : store WCS G) (self : ref) (l : list ref) (m a : float).

Import PyFloat PyFloatFacts.

Local Abbreviation overlap := (overlap_area SKYLINE_DEBUG).

Lemma is_nan_zero : is_nan zero = false.
Proof. reflexivity. Qed.

(** Two areas above zero of which neither is above the other are the same
    float. *)
Lemma gt_antisym_pos (x y : float) :
  gt x zero = true -> gt y zero = true ->
  gt x y = false -> gt y x = false -> x = y.
Proof.
  unfold gt, zero, SFltb.
  destruct x as [[]| [] | |[] mx ex], y as [[]| [] | |[] my ey]; simpl;
    try discriminate; try reflexivity.
  change (PosDef.Pos.compare_cont Eq my mx) with (Pos.compare my mx).
  change (PosDef.Pos.compare_cont Eq mx my) with (Pos.compare mx my).
  rewrite (Z.compare_antisym ex ey), (Pos.compare_antisym mx my).
  destruct (Z.compare_spec ex ey) as [->|Hlt|Hgt]; simpl; try discriminate.
  destruct (Pos.compare_spec mx my) as [->|Hm|Hm]; simpl; try discriminate.
  reflexivity.
Qed.

(** The loop of [find_max_overlap] from any state whose area is a number:
    what it returns bounds every candidate's overlap, and is either the
    state it started from or a candidate with a larger overlap. *)
Lemma find_max_overlap_loop_inv h self l : forall (ms ms' : option ref) m m',
  is_nan m = false ->
  find_max_overlap_loop SKYLINE_DEBUG h self l ms m = Ok (ms', m') ->
  is_nan m' = false /\
  Forall (fun c => exists a, overlap h self c = Ok a /\ gt a m' = false) l /\
  ((ms' = ms /\ m' = m) \/
   (exists c, c ∈ l /\ ms' = Some c /\ overlap h self c = Ok m' /\
              gt m' m = true)).
Proof.
  induction l as [|c l IH]; simpl; intros ms ms' m m' Hm H.
  - injection H as <- <-. split; [exact Hm|]. split; [constructor|]. now left.
  - destruct (overlap h self c) as [a|] eqn:Ha; simpl in H; [|discriminate].
    destruct (gt a m) eqn:Hgt.
    + apply IH in H as (Hn' & Hall & Hres); [|now apply gt_not_nan_l in Hgt].
      split; [exact Hn'|].
      destruct Hres as [[-> ->]|(c' & Hc' & -> & Ho & Hg)].
      * split.
        { constructor; [|exact Hall]. exists a. split; [exact Ha|].
          apply gt_irrefl. }
        right. exists c. split; [now left|]. auto.
      * split.
        { constructor; [|exact Hall]. exists a. split; [exact Ha|].
          now apply gt_asym. }
        right. exists c'. split; [now right|]. do 2 (split; [auto|]).
        eapply gt_trans; eassumption.
    + apply IH in H as (Hn' & Hall & Hres); [|exact Hm].
      split; [exact Hn'|].
      split.
      { constructor; [|exact Hall]. exists a. split; [exact Ha|].
        destruct Hres as [[_ ->]|(c' & _ & _ & _ & Hg)]; [exact Hgt|].
        apply (not_gt_trans a m m'); auto. now apply gt_asym. }
      destruct Hres as [[-> ->]|(c' & Hc' & -> & Ho & Hg)]; [now left|].
      right. exists c'. split; [now right|]. auto.
Qed.

(** When the loop raises, it is the overlap with a candidate that raises,
    those before it having been computed. *)
Lemma find_max_overlap_loop_raises h self l : forall (ms : option ref) m e,
  find_max_overlap_loop SKYLINE_DEBUG h self l ms m = Raise e ->
  exists pre c post,
    l = pre ++ c :: post /\
    Forall (fun x => exists a, overlap h self x = Ok a) pre /\
    overlap h self c = Raise e.
Proof.
  induction l as [|c l IH]; simpl; intros ms m e H; [discriminate|].
  destruct (overlap h self c) as [a|e'] eqn:Ha; simpl in H.
  - assert (exists ms1 m1,
              find_max_overlap_loop SKYLINE_DEBUG h self l ms1 m1 = Raise e)
      as (ms1 & m1 & H1) by (destruct (gt a m); eauto).
    apply IH in H1 as (pre & c' & post & -> & Hpre & Hc').
    exists (c :: pre), c', post. split; [reflexivity|].
    split; [|exact Hc']. constructor; [eauto|exact Hpre].
  - injection H as ->. exists [], c, l. split; [reflexivity|].
    split; [constructor|exact Ha].
Qed.

Lemma find_max_overlap_loop_total h self l : forall (ms : option ref) m,
  Forall (fun c => exists a, overlap h self c = Ok a) l ->
  exists r, find_max_overlap_loop SKYLINE_DEBUG h self l ms m = Ok r.
Proof.
  induction l as [|c l IH]; simpl; intros ms m Hall; [eauto|].
  inversion Hall as [|? ? [a Ha] Hrest]; subst.
  rewrite Ha. simpl. destruct (gt a m); apply IH; exact Hrest.
Qed.

(** X7: what [find_max_overlap] returns, with nothing assumed of the areas
    (they may be negative or not a number).  The returned area is at least
    every candidate's overlap; with no footprint it is [0.0]; a returned
    footprint is one of the candidates, the area is its overlap and is above
    [0.0].  When the search raises, the overlap with one of the candidates
    raised that exception, after those before it were computed. *)
Theorem find_max_overlap_result h self l :
  (forall ms a,
     find_max_overlap SKYLINE_DEBUG h self l = Ok (ms, a) ->
     Forall (fun c => exists a', overlap h self c = Ok a' /\ gt a' a = false) l /\
     match ms with
     | None => a = zero
     | Some c => c ∈ l /\ overlap h self c = Ok a /\ gt a zero = true
     end) /\
  (forall e,
     find_max_overlap SKYLINE_DEBUG h self l = Raise e ->
     exists pre c post,
       l = pre ++ c :: post /\
       Forall (fun x => exists a, overlap h self x = Ok a) pre /\
       overlap h self c = Raise e).
Proof.
  split.
  - intros ms a H.
    apply find_max_overlap_loop_inv in H as (_ & Hall & Hres);
      [|apply is_nan_zero].
    split; [exact Hall|].
    destruct Hres as [[-> ->]|(c & Hc & -> & Ho & Hg)]; auto.
  - intros e. apply find_max_overlap_loop_raises.
Qed.

(** X8: the largest overlap does not depend on the order of the
    candidates: on a permutation of the list the search returns the same
    area, and a footprint exactly when it did before. *)
Theorem find_max_overlap_permutation h self l l' ms a :
  Permutation l l' ->
  find_max_overlap SKYLINE_DEBUG h self l = Ok (ms, a) ->
  exists ms',
    find_max_overlap SKYLINE_DEBUG h self l' = Ok (ms', a) /\
    (ms = None <-> ms' = None).
Proof.
  intros Hperm H.
  apply find_max_overlap_loop_inv in H as (_ & Hall & Hres); [|apply is_nan_zero].
  assert (Hall' : Forall (fun c => exists a', overlap h self c = Ok a' /\
                                          gt a' a = false) l')
    by now rewrite <- Hperm.
  destruct (find_max_overlap_loop_total h self l' None zero) as [[ms' a'] H'].
  { eapply Forall_impl; [exact Hall'|]. intros c (x & ? & _). eauto. }
  pose proof H' as H2.
  apply find_max_overlap_loop_inv in H2 as (_ & Hall2 & Hres2);
    [|apply is_nan_zero].
  exists ms'. unfold find_max_overlap. rewrite H'.
  rewrite Forall_forall in Hall, Hall', Hall2.
  destruct Hres as [[-> ->]|(c & Hc & -> & Ho & Hg)];
    destruct Hres2 as [[-> ->]|(c' & Hc' & -> & Ho' & Hg')].
  - split; [reflexivity|tauto].
  - exfalso. destruct (Hall c') as (x & Hx & Hn); [now rewrite Hperm|].
    rewrite Ho' in Hx. injection Hx as <-. congruence.
  - exfalso. destruct (Hall2 c) as (x & Hx & Hn); [now rewrite <- Hperm|].
    rewrite Ho in Hx. injection Hx as <-. congruence.
  - assert (a = a') as <-.
    { apply gt_antisym_pos; auto.
      - destruct (Hall2 c) as (x & Hx & Hn); [now rewrite <- Hperm|].
        rewrite Ho in Hx. now injection Hx as <-.
      - destruct (Hall c') as (x & Hx & Hn); [now rewrite Hperm|].
        rewrite Ho' in Hx. now injection Hx as <-. }
    split; [reflexivity|]. split; discriminate.
Qed.

(** The loop of [max_overlap_pair] from a state whose area is not below
    zero: the pair is the one it started with, no overlap being above the
    area, or a footprint and a later one whose overlap is above it. *)
Lemma pair_scan_inv h rest : forall (mp mp' : option (ref * option ref)) m,
  nonneg m = true ->
  pair_scan SKYLINE_DEBUG h rest mp m = Ok mp' ->
  (mp' = mp /\
   all_pairs (fun x y => exists a, overlap h x y = Ok a /\ gt a m = false) rest) \/
  (exists i j s1 s2 a,
     i < j /\ rest !! i = Some s1 /\ rest !! j = Some s2 /\
     overlap h s1 s2 = Ok a /\ gt a m = true /\
     mp' = Some (s1, Some s2)).
Proof.
  induction rest as [|curr rest' IH]; intros mp mp' m Hm H.
  - simpl in H. injection H as <-. left. now split.
  - destruct rest' as [|y rest''].
    { simpl in H. injection H as <-. left. split; [reflexivity|].
      simpl. split; [constructor|exact I]. }
    remember (y :: rest'') as rest' eqn:Hrest'.
    assert (Hstep : pair_scan SKYLINE_DEBUG h (curr :: rest') mp m
              = (r ← find_max_overlap SKYLINE_DEBUG h curr rest';
                 if gt (snd r) m
                 then pair_scan SKYLINE_DEBUG h rest' (Some (curr, fst r)) (snd r)
                 else pair_scan SKYLINE_DEBUG h rest' mp m)).
    { rewrite Hrest'. reflexivity. }
    rewrite Hstep in H. clear Hstep.
    destruct (find_max_overlap SKYLINE_DEBUG h curr rest') as [[ns ia]|] eqn:Hf;
      simpl in H; [|discriminate].
    apply find_max_overlap_loop_inv in Hf as (Hnan & Hall & Hres);
      [|apply is_nan_zero].
    destruct (gt ia m) eqn:Hgt.
    + destruct Hres as [[-> ->]|(c & Hc & -> & Ho & Hg)].
      { rewrite zero_not_gt in Hgt by exact Hm. discriminate. }
      apply list_elem_of_lookup_1 in Hc as [k Hk].
      apply IH in H; [|eapply nonneg_of_gt; eassumption].
      right. destruct H as [[-> _]|(i & j & s1 & s2 & a & Hij & Hi & Hj & Ha & Hga & ->)].
      * exists 0, (S k), curr, c, ia. split; [lia|]. auto.
      * exists (S i), (S j), s1, s2, a. split; [lia|].
        do 3 (split; [assumption|]). split; [|reflexivity].
        eapply gt_trans; eassumption.
    + apply IH in H; [|exact Hm].
      destruct H as [[-> Hpairs]|(i & j & s1 & s2 & a & Hij & Hi & Hj & Ha & Hga & ->)].
      * left. split; [reflexivity|]. simpl. split; [|exact Hpairs].
        eapply Forall_impl; [exact Hall|].
        intros c (a & Ha & Hn). exists a. split; [exact Ha|].
        apply (not_gt_trans a ia m); auto. now apply nonneg_not_nan.
      * right. exists (S i), (S j), s1, s2, a. split; [lia|]. auto.
Qed.

(** X9: what [max_overlap_pair] returns, with nothing assumed of the
    areas.  A returned pair is never half empty: it is a footprint of the
    list and one at a later position, whose overlap is above [0.0].  When
    [None] is returned, the overlap of every footprint with every later one
    was computed and none is above [0.0]. *)
Theorem max_overlap_pair_result h l mp :
  max_overlap_pair SKYLINE_DEBUG h l = Ok mp ->
  match mp with
  | Some (s1, ns) =>
      exists i j s2 a,
        ns = Some s2 /\ i < j /\ l !! i = Some s1 /\ l !! j = Some s2 /\
        overlap h s1 s2 = Ok a /\ gt a zero = true
  | None =>
      all_pairs (fun x y => exists a, overlap h x y = Ok a /\ gt a zero = false) l
  end.
Proof.
  rewrite max_overlap_pair_scan. intros H.
  apply pair_scan_inv in H; [|apply nonneg_zero].
  destruct H as [[-> Hpairs]|(i & j & s1 & s2 & a & Hij & Hi & Hj & Ha & Hga & ->)].
  - exact Hpairs.
  - exists i, j, s2, a.
    do 5 (split; [first [reflexivity|assumption]|]). assumption.
Qed.

End OverlapAnyArea.

(** ** The list of members *)

Section MembersFacts.

Context {WCS : Type} {G : SphericalPolygon.lib}.

Implicit Types (h : store WCS G) (self : ref) (l x y : list ref).

Local Open Scope py_scope.

Lemma first_occurrences_NoDup_id l : NoDup l -> first_occurrences l = l.
Proof.
  induction l as [|a l IH]; [reflexivity|].
  intros Hnd. apply NoDup_cons in Hnd as [Ha Hl]. simpl. rewrite (IH Hl).
  f_equal. apply filter_all. apply Forall_forall. intros z Hz ->. contradiction.
Qed.

Lemma first_occurrences_idemp l :
  first_occurrences (first_occurrences l) = first_occurrences l.
Proof. apply first_occurrences_NoDup_id, first_occurrences_NoDup. Qed.

Lemma filter_ne_notin (a : ref) x l :
  filter (fun z => z <> a) (filter (fun z => z ∉ x) l)
  = filter (fun z => z ∉ a :: x) l.
Proof.
  induction l as [|b l IH]; [reflexivity|].
  rewrite !filter_cons.
  destruct (decide (b ∉ x)) as [Hb|Hb].
  - rewrite filter_cons. destruct (decide (b <> a)) as [Hba|Hba].
    + rewrite decide_True by (rewrite elem_of_cons; tauto). now rewrite IH.
    + rewrite decide_False by (rewrite elem_of_cons; tauto). exact IH.
  - rewrite decide_False by (rewrite elem_of_cons; tauto). exact IH.
Qed.

Lemma filter_notin_none x l :
  Forall (fun z => z ∈ x) l -> filter (fun z => z ∉ x) l = [].
Proof.
  induction 1 as [|b l Hb _ IH]; [reflexivity|].
  rewrite filter_cons, decide_False by tauto. exact IH.
Qed.

Lemma first_occurrences_app x y :
  first_occurrences (x ++ y)
  = first_occurrences x ++ filter (fun z => z ∉ x) (first_occurrences y).
Proof.
  induction x as [|a x IH]; simpl.
  - symmetry. apply filter_all. apply Forall_forall. intros z _ Hz. inversion Hz.
  - f_equal. rewrite IH, filter_app. f_equal. apply filter_ne_notin.
Qed.

Lemma first_occurrences_app_l x y :
  first_occurrences (first_occurrences x ++ y) = first_occurrences (x ++ y).
Proof.
  rewrite !first_occurrences_app, first_occurrences_idemp. f_equal.
  apply list_filter_iff. intros z. now rewrite first_occurrences_elem.
Qed.

Lemma first_occurrences_perm x y :
  Permutation (first_occurrences (x ++ y)) (first_occurrences (y ++ x)).
Proof.
  apply NoDup_Permutation; [apply first_occurrences_NoDup..|].
  intros z. rewrite !first_occurrences_elem, !elem_of_app. tauto.
Qed.

(** The members of a new footprint of the store. *)
Lemma members_new h (ext : store WCS G) s :
  ext !! 0 = Some (ObjSkyLine s) ->
  members (h ++ ext) (length h) =
  match SkyLine._members s with Some ms => Ok ms | None => Raise AttributeError end.
Proof. intros H. unfold members. now rewrite lookup_new0, H. Qed.

(** X10: the members of a union.  For footprints whose members are all
    different, [A.add_image(A)] has the members of [A], and the members of
    [A.add_image(B)] and of [B.add_image(A)] are the same up to their
    order. *)
Theorem add_image_members_laws h (A B : ref) a b u u' ua ma mb :
  poly_of h A = Ok a -> poly_of h B = Ok b ->
  members h A = Ok ma -> members h B = Ok mb ->
  Forall (fun v => isinstance_SkyLineMember h v = true) (ma ++ mb) ->
  NoDup ma ->
  SphericalPolygon.union a b = Ok u ->
  SphericalPolygon.union b a = Ok u' ->
  SphericalPolygon.union a a = Ok ua ->
  exists r1 h1 r2 h2 r3 h3 m1 m2,
    add_image A B h = (Ok r1, h1) /\
    add_image B A h = (Ok r2, h2) /\
    add_image A A h = (Ok r3, h3) /\
    members h1 r1 = Ok m1 /\ members h2 r2 = Ok m2 /\
    Permutation m1 m2 /\
    members h3 r3 = Ok ma.
Proof.
  intros Ha Hb Hma Hmb Hall Hnd Hu Hu' Hua.
  pose proof Hall as Hall0.
  apply Forall_app in Hall as [Hfa Hfb].
  assert (Hba : Forall (fun v => isinstance_SkyLineMember h v = true) (mb ++ ma))
    by (apply Forall_app; auto).
  assert (Haa : Forall (fun v => isinstance_SkyLineMember h v = true) (ma ++ ma))
    by (apply Forall_app; auto).
  do 8 eexists.
  split; [exact (add_image_ok _ _ _ _ _ _ _ _ Ha Hb Hu Hma Hmb Hall0)|].
  split; [exact (add_image_ok _ _ _ _ _ _ _ _ Hb Ha Hu' Hmb Hma Hba)|].
  split; [exact (add_image_ok _ _ _ _ _ _ _ _ Ha Ha Hua Hma Hma Haa)|].
  split; [erewrite members_new by reflexivity; reflexivity|].
  split; [erewrite members_new by reflexivity; reflexivity|].
  rewrite !append_new_first_occurrences.
  split; [apply first_occurrences_perm|].
  erewrite members_new by reflexivity. simpl.
  rewrite first_occurrences_app.
  rewrite (first_occurrences_NoDup_id _ Hnd).
  rewrite filter_notin_none; [now rewrite app_nil_r|].
  now apply Forall_forall.
Qed.

(** What a successful assignment to [members] needed. *)
Lemma members_setter_inv h self values h' :
  members_setter self values h = (Ok tt, h') ->
  exists s,
    h !! self = Some (ObjSkyLine s) /\
    Forall (fun v => isinstance_SkyLineMember h v = true) values.
Proof.
  intros H.
  destruct (h !! self) as [[| |s]|] eqn:Hs;
    try (unfold members_setter, bind, set__members in H; rewrite Hs in H;
         discriminate).
  exists s. split; [reflexivity|].
  destruct (decide (Forall (fun v => isinstance_SkyLineMember h v = true) values))
    as [Hall|Hnot]; [exact Hall|].
  exfalso. apply not_Forall_Exists in Hnot; [|intros ?; apply _].
  assert (Hex : Exists (fun v => isinstance_SkyLineMember h v = false) values).
  { eapply Exists_impl; [exact Hnot|]. intros v Hv. simpl in Hv.
    now destruct (isinstance_SkyLineMember h v). }
  pose proof (members_setter_fail _ _ _ _ Hs Hex) as Hf.
  rewrite H in Hf. discriminate.
Qed.

(** X11: what an assignment to [members] leaves.  After a successful
    assignment the stored list has no member twice, holds exactly the
    assigned members, all of them [SkyLineMember] instances, and assigning
    the stored list again changes nothing. *)
Theorem members_setter_invariant h self values h' :
  members_setter self values h = (Ok tt, h') ->
  exists ms,
    members h' self = Ok ms /\
    NoDup ms /\
    (forall m, m ∈ ms <-> m ∈ values) /\
    Forall (fun m => isinstance_SkyLineMember h' m = true) ms /\
    members_setter self ms h' = (Ok tt, h').
Proof.
  intros H. destruct (members_setter_inv _ _ _ _ H) as (s & Hs & Hall).
  rewrite (members_setter_ok _ _ _ _ Hs Hall) in H. injection H as <-.
  assert (Hlt : self < length h) by (eapply lookup_lt_Some; eassumption).
  rewrite append_new_first_occurrences.
  set (s' := {| SkyLine._polygon := SkyLine._polygon s;
               SkyLine._members := Some (first_occurrences values) |}).
  assert (Hs' : <[self := ObjSkyLine s']> h !! self = Some (ObjSkyLine s'))
    by now apply list_lookup_insert_eq.
  assert (Hall' : Forall (fun m => isinstance_SkyLineMember
                                     (<[self := ObjSkyLine s']> h) m = true)
                         (first_occurrences values)).
  { apply Forall_forall. intros m Hm. apply (proj1 (first_occurrences_elem _ _)) in Hm.
    rewrite (isinstance_SkyLineMember_insert _ _ s) by exact Hs.
    exact (proj1 (Forall_forall _ _) Hall m Hm). }
  exists (first_occurrences values).
  split; [unfold members; now rewrite Hs'|].
  split; [apply first_occurrences_NoDup|].
  split; [intros m; apply first_occurrences_elem|].
  split; [exact Hall'|].
  rewrite (members_setter_ok _ _ _ _ Hs' Hall').
  rewrite list_insert_insert_eq, append_new_first_occurrences,
    first_occurrences_idemp.
  reflexivity.
Qed.

(** The loop of the [members] setter stops at the first value that is not
    a member, with the members before it stored. *)
Lemma members_setter_loop_stops bad post pre : forall h self s acc,
  h !! self = Some (ObjSkyLine s) ->
  SkyLine._members s = Some acc ->
  Forall (fun v => isinstance_SkyLineMember h v = true) pre ->
  isinstance_SkyLineMember h bad = false ->
  for_ (pre ++ bad :: post) (members_setter_body self) h
  = (Raise AssertionError,
     <[self := ObjSkyLine {| SkyLine._polygon := SkyLine._polygon s;
                             SkyLine._members := Some (append_new acc pre) |}]> h).
Proof.
  induction pre as [|v pre IH]; intros h self s acc Hs Hacc Hall Hbad.
  - simpl for_.
    rewrite (bind_raise _ _ _ _ _ (members_setter_body_fail _ self _ Hbad)).
    f_equal. symmetry. apply list_insert_id.
    rewrite Hs. destruct s; simpl in *. now subst.
  - inversion Hall as [|? ? Hv Hall']; subst.
    assert (Hlt : self < length h) by (eapply lookup_lt_Some; eassumption).
    simpl for_.
    rewrite (bind_ok _ _ _ _ _ (members_setter_body_ok _ _ _ _ _ Hs Hacc Hv)).
    erewrite IH; [|now apply list_lookup_insert_eq|reflexivity| |].
    + simpl. rewrite list_insert_insert_eq.
      now destruct (bool_decide (v ∈ acc)).
    + eapply Forall_impl; [exact Hall'|]. intros x Hx. simpl.
      now rewrite (isinstance_SkyLineMember_insert _ _ s).
    + now rewrite (isinstance_SkyLineMember_insert _ _ s).
Qed.

(** X12: an assignment to [members] that fails is not undone.  When the
    first value that is no [SkyLineMember] comes after the values [pre], the
    setter raises [AssertionError] and the footprint is left with the
    members of [pre], each once; what it held before is lost, its polygon is
    untouched. *)
Theorem members_setter_fails_midway h self (s : SkyLine.instance) pre bad post :
  h !! self = Some (ObjSkyLine s) ->
  Forall (fun v => isinstance_SkyLineMember h v = true) pre ->
  isinstance_SkyLineMember h bad = false ->
  exists h',
    members_setter self (pre ++ bad :: post) h = (Raise AssertionError, h') /\
    members h' self = Ok (first_occurrences pre) /\
    polygon h' self = polygon h self /\
    forall r : ref, r <> self -> h' !! r = h !! r.
Proof.
  intros Hs Hall Hbad.
  assert (Hlt : self < length h) by (eapply lookup_lt_Some; eassumption).
  eexists. split.
  { unfold members_setter.
    rewrite (bind_ok _ _ _ _ _ (set__members_ok _ _ _ [] Hs)).
    eapply members_setter_loop_stops;
      [now apply list_lookup_insert_eq|reflexivity| |].
    - eapply Forall_impl; [exact Hall|]. intros x Hx. simpl.
      now rewrite (isinstance_SkyLineMember_insert _ _ s).
    - now rewrite (isinstance_SkyLineMember_insert _ _ s). }
  simpl. rewrite list_insert_insert_eq, append_new_first_occurrences.
  split; [unfold members; now rewrite list_lookup_insert_eq|].
  split; [unfold polygon; rewrite list_lookup_insert_eq by exact Hlt;
          now rewrite Hs|].
  intros x Hx. now apply list_lookup_insert_ne.
Qed.

(** X13: the identifier of a union is the identifier of [self] when [self]
    has a member, and that of [other] when it has none. *)
Theorem add_image_rough_id h (A B : ref) a b u ma mb :
  poly_of h A = Ok a -> poly_of h B = Ok b ->
  members h A = Ok ma -> members h B = Ok mb ->
  Forall (fun v => isinstance_SkyLineMember h v = true) (ma ++ mb) ->
  SphericalPolygon.union a b = Ok u ->
  exists r h',
    add_image A B h = (Ok r, h') /\
    _rough_id h' r = match ma with
                     | [] => _rough_id h B
                     | _ :: _ => _rough_id h A
                     end.
Proof.
  intros Ha Hb Hma Hmb Hall Hu.
  eexists _, _.
  split; [exact (add_image_ok _ _ _ _ _ _ _ _ Ha Hb Hu Hma Hmb Hall)|].
  unfold _rough_id at 1. erewrite members_new by reflexivity. simpl.
  rewrite append_new_first_occurrences.
  assert (Hf : forall m, m ∈ ma ++ mb ->
            forall ext, SkyLineMember_fname (h ++ ext) m = SkyLineMember_fname h m).
  { intros m Hm ext. rewrite Forall_forall in Hall. specialize (Hall m Hm).
    unfold isinstance_SkyLineMember in Hall. unfold SkyLineMember_fname.
    destruct (h !! m) as [[]|] eqn:E; try discriminate.
    now rewrite (lookup_ext _ ext _ _ E). }
  destruct ma as [|m ma]; simpl.
  - unfold _rough_id. rewrite Hmb. destruct mb as [|m mb]; [reflexivity|].
    simpl. rewrite Hf by (now left). reflexivity.
  - unfold _rough_id. rewrite Hma. simpl. rewrite Hf by (now left). reflexivity.
Qed.

End MembersFacts.

(** ** The mosaic *)

Section MosaicFacts.

Context {WCS : Type} {G : SphericalPolygon.lib}.

Variable SKYLINE_DEBUG : bool.

Implicit Types (h : store WCS G) (st : locals) (l : list ref).

Import PyFloat PyFloatFacts.

Local Open Scope py_scope.

Local Abbreviation overlap := (overlap_area SKYLINE_DEBUG).

Lemma find_intersection_extends (self other : ref) h r h' :
  find_intersection self other h = (r, h') -> exists ext, h' = h ++ ext.
Proof.
  apply preserves_extends with (Q := any).
  unfold find_intersection.
  eapply preserves_bind; [apply preserves_SkyLine__init__|]. intros newcls Hnew.
  eapply preserves_bind.
  { unfold SkyLine_intersection.
    eapply preserves_bind; [apply preserves_reads|]. intros u _.
    apply preserves_alloc. }
  intros u _.
  eapply preserves_bind; [now apply preserves_polygon_setter|]. intros _ _.
  eapply preserves_bind; [apply preserves_reads|]. intros ms _.
  eapply preserves_bind; [apply preserves_reads|]. intros mo _.
  eapply preserves_bind; [apply preserves_reads|]. intros found _.
  eapply preserves_bind; [now apply preserves_members_setter|]. intros _ _.
  now apply preserves_ret.
Qed.

Lemma extends_trans h (e1 : store WCS G) h1 h2 :
  h1 = h ++ e1 -> (exists e2, h2 = h1 ++ e2) -> exists ext, h2 = h ++ ext.
Proof. intros -> [e2 ->]. exists (e1 ++ e2). now rewrite app_assoc. Qed.

Lemma grow_loop_extends fuel : forall st h r h',
  grow_loop SKYLINE_DEBUG fuel st h = (r, h') -> exists ext, h' = h ++ ext.
Proof.
  induction fuel as [|fuel IH]; intros st h r h'; simpl;
    destruct (l_remaining st) eqn:Hrem.
  - intros [= _ <-]. exists []. now rewrite app_nil_r.
  - intros [= _ <-]. exists []. now rewrite app_nil_r.
  - intros [= _ <-]. exists []. now rewrite app_nil_r.
  - unfold bind.
    destruct (grow_step SKYLINE_DEBUG st h) as [[[st'|st']|e] h1] eqn:Hstep;
      destruct (grow_step_extends _ _ _ _ _ Hstep) as [e1 ->].
    + intros H. apply IH in H. eapply extends_trans; [reflexivity|exact H].
    + intros [= _ <-]. now exists e1.
    + intros [= _ <-]. now exists e1.
Qed.

Lemma mosaic_within_extends fuel l h r h' :
  mosaic_within SKYLINE_DEBUG fuel l h = (r, h') -> exists ext, h' = h ++ ext.
Proof.
  unfold mosaic_within, bind, reads, ret, raise.
  destruct (max_overlap_pair SKYLINE_DEBUG h l) as [[[s1 [s2|]]|]|e].
  2,3,4: intros [= _ <-]; exists []; now rewrite app_nil_r.
  destruct (add_image s1 s2 h) as [[m|e] h1] eqn:Hadd;
    destruct (add_image_extends _ _ _ _ _ Hadd) as [e1 ->].
  2:{ intros [= _ <-]. now exists e1. }
  destruct (_rough_id _ s1); [|intros [= _ <-]; now exists e1].
  destruct (_rough_id _ s2); [|intros [= _ <-]; now exists e1].
  destruct (list_remove s1 l) as [rem1|]; [|intros [= _ <-]; now exists e1].
  destruct (list_remove s2 rem1) as [rem2|]; [|intros [= _ <-]; now exists e1].
  destruct (grow_loop _ _ _ _) as [[[st|]|e] h2] eqn:Hloop;
    apply grow_loop_extends in Hloop;
    intros [= _ <-]; (eapply extends_trans; [reflexivity|exact Hloop]).
Qed.

(** X14: whatever the outcome, a result or an exception, [add_image],
    [find_intersection] and [mosaic] only add objects to the store: every
    object that was there is still there, unchanged.  The footprints given
    to them are never modified. *)
Theorem operations_only_add_objects h :
  (forall (A B : ref) r h',
     add_image A B h = (r, h') ->
     forall x o, h !! x = Some o -> h' !! x = Some o) /\
  (forall (A B : ref) r h',
     find_intersection A B h = (r, h') ->
     forall x o, h !! x = Some o -> h' !! x = Some o) /\
  (forall l r h',
     mosaic SKYLINE_DEBUG l h = (r, h') ->
     forall x o, h !! x = Some o -> h' !! x = Some o).
Proof.
  split; [|split].
  - intros A B r h' H x o. apply add_image_extends in H as [ext ->].
    apply lookup_ext.
  - intros A B r h' H x o. apply find_intersection_extends in H as [ext ->].
    apply lookup_ext.
  - intros l r h' H x o. apply mosaic_within_extends in H as [ext ->].
    apply lookup_ext.
Qed.

(** X15: when [mosaic] returns no mosaic.  With fewer than two footprints
    it returns [(None, [], [])] and touches nothing: a lone footprint is
    neither the mosaic nor listed as excluded.  And whenever the mosaic it
    returns is [None], both lists are empty, the store is unchanged, and the
    overlap of every footprint with every later one was computed and is not
    above [0.0]. *)
Theorem mosaic_returns_none l h :
  (length l <= 1 ->
   mosaic SKYLINE_DEBUG l h = (Ok (Some (None, [], [])), h)) /\
  (forall included excluded h',
     mosaic SKYLINE_DEBUG l h = (Ok (Some (None, included, excluded)), h') ->
     h' = h /\ included = [] /\ excluded = [] /\
     all_pairs (fun x y => exists a, overlap h x y = Ok a /\ gt a zero = false) l).
Proof.
  split.
  - intros Hlen. destruct l as [|x [|y l]]; [reflexivity|reflexivity|].
    simpl in Hlen. lia.
  - intros included excluded h'.
    unfold mosaic, mosaic_within, bind, reads, ret, raise.
    destruct (max_overlap_pair SKYLINE_DEBUG h l) as [[[s1 [s2|]]|]|e] eqn:Hpair;
      try discriminate.
    + destruct (add_image s1 s2 h) as [[m|e] h1]; [|discriminate].
      destruct (_rough_id _ s1); [|discriminate].
      destruct (_rough_id _ s2); [|discriminate].
      destruct (list_remove s1 l) as [rem1|]; [|discriminate].
      destruct (list_remove s2 rem1) as [rem2|]; [|discriminate].
      destruct (grow_loop _ _ _ _) as [[[st|]|e] h2]; discriminate.
    + intros [= <- <- <-]. do 3 (split; [reflexivity|]).
      rewrite max_overlap_pair_scan in Hpair.
      apply pair_scan_inv in Hpair; [|apply nonneg_zero].
      destruct Hpair as [[_ Hpairs]|(i & j & s1 & s2 & a & _ & _ & _ & _ & _ & Hn)];
        [exact Hpairs|discriminate].
Qed.

End MosaicFacts.

(** ** How the mosaic grows *)

Section MosaicGrowth.

Context {WCS : Type} {G : SphericalPolygon.lib}.

Implicit Types (h : store WCS G) (st : locals) (l : list ref) (debug : bool).

Import PyFloat PyFloatFacts.

Local Open Scope py_scope.

Lemma footprint_ext h (ext : store WCS G) s :
  footprint h s -> footprint (h ++ ext) s.
Proof.
  intros (p & ms & Hp & Hm & Hall). exists p, ms.
  split; [now apply poly_of_ext|]. split; [now apply members_ext|].
  eapply Forall_impl; [exact Hall|].
  intros m. apply isinstance_SkyLineMember_ext.
Qed.

Lemma footprint_members h s :
  footprint h s -> members h s = Ok (members_of h s).
Proof. intros (p & ms & _ & Hm & _). unfold members_of. now rewrite Hm. Qed.

Lemma footprint_isinstance h s :
  footprint h s ->
  Forall (fun m => isinstance_SkyLineMember h m = true) (members_of h s).
Proof. intros (p & ms & _ & Hm & Hall). unfold members_of. now rewrite Hm. Qed.

Lemma footprint_rough_id h s :
  footprint h s -> _rough_id h s = Ok (rough_id_of h s).
Proof.
  intros (p & ms & _ & Hm & Hall). unfold rough_id_of, _rough_id.
  rewrite Hm. simpl. destruct ms as [|m ms]; [reflexivity|].
  inversion Hall as [|? ? Hi _]; subst.
  unfold isinstance_SkyLineMember in Hi. unfold SkyLineMember_fname.
  destruct (h !! m) as [[]|]; try discriminate. reflexivity.
Qed.

Lemma footprint_rough_ids h (ext : store WCS G) l :
  Forall (footprint h) l ->
  mapR (_rough_id (h ++ ext)) l = Ok (map (rough_id_of h) l).
Proof.
  intros Hall. apply mapR_total.
  eapply Forall_impl; [exact Hall|].
  intros s Hs. apply _rough_id_ext, footprint_rough_id, Hs.
Qed.

Lemma unions_snoc (p : Polygon) ps x :
  unions p (ps ++ [x]) = (q ← unions p ps; SphericalPolygon.union q x).
Proof.
  revert p. induction ps as [|y ps IH]; simpl; intros p.
  - now destruct (SphericalPolygon.union p x).
  - destruct (SphericalPolygon.union p y); simpl; auto.
Qed.

(** Removing the first of two footprints of a list leaves the second. *)
Lemma list_remove_later l : forall i j (x y : ref) l',
  i < j -> l !! i = Some x -> l !! j = Some y ->
  list_remove x l = Ok l' -> y ∈ l'.
Proof.
  induction l as [|z l IH]; intros i j x y l' Hij Hi Hj Hrem; [discriminate|].
  simpl in Hrem. destruct j as [|j]; [lia|]. simpl in Hj.
  destruct (bool_decide_reflect (z = x)) as [->|Hne].
  - injection Hrem as <-. eapply list_elem_of_lookup_2, Hj.
  - destruct i as [|i]; [simpl in Hi; congruence|]. simpl in Hi.
    destruct (list_remove x l) as [r|] eqn:Hr; [|discriminate].
    injection Hrem as <-. right. eapply (IH i j); eauto with lia.
Qed.

Lemma included_members_isinstance h incl :
  Forall (footprint h) incl ->
  Forall (fun m => isinstance_SkyLineMember h m = true)
         (first_occurrences (concat (map (members_of h) incl))).
Proof.
  intros Hall. apply Forall_forall. intros m Hm.
  apply (proj1 (first_occurrences_elem _ _)) in Hm.
  apply (proj1 (list_elem_of_In _ _)), in_concat in Hm as (ms & Hms & Hin).
  apply in_map_iff in Hms as (s & <- & Hs).
  apply (proj2 (list_elem_of_In _ _)) in Hs.
  apply (proj2 (list_elem_of_In _ _)) in Hin.
  rewrite Forall_forall in Hall.
  pose proof (footprint_isinstance _ _ (Hall s Hs)) as Hi.
  exact (proj1 (Forall_forall _ _) Hi m Hin).
Qed.

(** A pass of the loop that goes on has either united the mosaic with a
    footprint still to place, or, in the tolerant mode, set one aside. *)
Lemma grow_step_grown debug h0 skylines st h incl failed st' h' :
  Forall (footprint h0) skylines ->
  grown h0 skylines st h incl failed ->
  grow_step debug st h = (Ok (Continue st'), h') ->
  exists next,
    grown h0 skylines st' h' (incl ++ [next]) failed \/
    (debug = true /\ grown h0 skylines st' h' incl (failed ++ [next])).
Proof.
  intros Hfp (Hext & Hperm & Hout & Hexc & Hmem & p & ps & q & Hps & Hq & Hpoly)
    Hstep.
  destruct Hext as [ext ->].
  destruct (find_max_overlap debug (h0 ++ ext) (l_mosaic st) (l_remaining st))
    as [[[next|] a]|e] eqn:Hfind.
  3:{ exfalso. unfold grow_step, bind, reads in Hstep. rewrite Hfind in Hstep.
      discriminate. }
  2:{ exfalso. rewrite (grow_step_none _ _ _ _ Hfind) in Hstep.
      destruct (mapR (_rough_id _) _); discriminate. }
  rewrite (grow_step_some _ _ _ _ _ Hfind) in Hstep.
  pose proof (find_max_overlap_elem _ _ _ _ _ _ Hfind) as Hin.
  destruct (list_remove_elem _ _ Hin) as [rem' Hrem].
  pose proof (list_remove_perm _ _ _ Hrem) as Hrp.
  rewrite Forall_forall in Hfp.
  assert (Hnext : footprint h0 next).
  { apply Hfp. rewrite <- Hperm, !elem_of_app. auto. }
  assert (Hincl : Forall (footprint h0) incl).
  { apply Forall_forall. intros s Hs. apply Hfp.
    rewrite <- Hperm, !elem_of_app. auto. }
  pose proof (footprint_rough_id _ _ Hnext) as Hid.
  pose proof Hnext as (pn & mn & Hpn & Hmn & Hmall).
  assert (Hmo : members_of h0 next = mn) by (unfold members_of; now rewrite Hmn).
  exists next.
  cbv zeta in Hstep. rewrite Hrem in Hstep.
  destruct (SphericalPolygon.union q pn) as [u|e] eqn:Hu.
  - assert (Hall : Forall (fun v => isinstance_SkyLineMember (h0 ++ ext) v = true)
                     (first_occurrences (concat (map (members_of h0) incl)) ++ mn)).
    { apply Forall_app. split.
      - eapply Forall_impl; [apply included_members_isinstance, Hincl|].
        intros m. apply isinstance_SkyLineMember_ext.
      - eapply Forall_impl; [exact Hmall|].
        intros m. apply isinstance_SkyLineMember_ext. }
    rewrite (add_image_ok _ _ _ _ _ _ _ _ Hpoly (poly_of_ext _ ext _ _ Hpn) Hu
               Hmem (members_ext _ ext _ _ Hmn) Hall) in Hstep.
    simpl in Hstep.
    rewrite (_rough_id_ext _ _ _ _ (_rough_id_ext _ ext _ _ Hid)) in Hstep.
    simpl in Hstep. injection Hstep as <- <-.
    left. unfold grown. simpl.
    split; [eexists; rewrite <- app_assoc; reflexivity|].
    split.
    { rewrite <- Hperm, Hrp, <- !app_assoc. simpl.
      apply Permutation_app_head.
      now rewrite <- Permutation_middle. }
    split; [now rewrite Hout, map_app|].
    split; [exact Hexc|].
    split.
    { erewrite members_new by reflexivity. simpl.
      rewrite append_new_first_occurrences, first_occurrences_app_l.
      rewrite map_app, concat_app. simpl. now rewrite Hmo, app_nil_r. }
    exists p, (ps ++ [pn]), u.
    split.
    { rewrite mapR_app, Hps. simpl. now rewrite Hpn. }
    split; [rewrite unions_snoc, Hq; exact Hu|].
    unfold poly_of, polygon, polygon_value.
    rewrite lookup_new0. simpl. now rewrite lookup_new.
  - rewrite (add_image_union_raise _ _ _ _ _ _ Hpoly (poly_of_ext _ ext _ _ Hpn) Hu)
      in Hstep.
    simpl in Hstep.
    destruct (caught e); [|discriminate].
    destruct debug; [|discriminate].
    rewrite (_rough_id_ext _ _ _ _ (_rough_id_ext _ ext _ _ Hid)) in Hstep.
    simpl in Hstep. injection Hstep as <- <-.
    right. split; [reflexivity|]. unfold grown. simpl.
    split; [eexists; rewrite <- app_assoc; reflexivity|].
    split.
    { rewrite <- Hperm, Hrp, <- !app_assoc. simpl.
      do 2 apply Permutation_app_head. reflexivity. }
    split; [exact Hout|].
    split; [now rewrite Hexc, map_app|].
    split; [now apply members_ext|].
    exists p, ps, q. split; [exact Hps|]. split; [exact Hq|].
    now apply poly_of_ext.
Qed.

(** The pass of the loop that ends it: no footprint still to place
    overlaps the mosaic, and all of them are listed as excluded. *)
Lemma grow_step_last debug h0 skylines st h incl failed st' h' :
  Forall (footprint h0) skylines ->
  grown h0 skylines st h incl failed ->
  grow_step debug st h = (Ok (Break st'), h') ->
  h' = h /\ l_mosaic st' = l_mosaic st /\ l_out_order st' = l_out_order st /\
  l_excluded st' = l_excluded st ++ map (rough_id_of h0) (l_remaining st) /\
  Forall (fun c => exists a, overlap_area debug h (l_mosaic st) c = Ok a /\
                             gt a zero = false) (l_remaining st).
Proof.
  intros Hfp (Hext & Hperm & _) Hstep. destruct Hext as [ext ->].
  destruct (find_max_overlap debug (h0 ++ ext) (l_mosaic st) (l_remaining st))
    as [[[next|] a]|e] eqn:Hfind.
  - exfalso. rewrite (grow_step_some _ _ _ _ _ Hfind) in Hstep.
    cbv zeta in Hstep.
    destruct (list_remove next (l_remaining st)); [|discriminate].
    match type of Hstep with
    | (match ?o with _ => _ end, _) = _ => destruct o as [[[? ?] ?]|]
    end; discriminate.
  - rewrite (grow_step_none _ _ _ _ Hfind) in Hstep.
    rewrite footprint_rough_ids in Hstep.
    2:{ apply Forall_forall. intros s Hs.
        rewrite Forall_forall in Hfp. apply Hfp.
        rewrite <- Hperm, !elem_of_app. auto. }
    injection Hstep as <- <-. simpl.
    do 4 (split; [reflexivity|]).
    apply find_max_overlap_loop_inv in Hfind as (_ & Hall & Hres);
      [|reflexivity].
    destruct Hres as [[_ ->]|(c & _ & Hc & _)]; [exact Hall|discriminate].
  - exfalso. unfold grow_step, bind, reads in Hstep. rewrite Hfind in Hstep.
    discriminate.
Qed.

(** The loop, from a state reached by growing to the state it ends in. *)
Lemma grow_loop_grown debug h0 skylines fuel : forall st h incl failed st' h',
  Forall (footprint h0) skylines ->
  grown h0 skylines st h incl failed ->
  (debug = false -> failed = []) ->
  grow_loop debug fuel st h = (Ok (Some st'), h') ->
  exists incl' failed' batch,
    grown h0 skylines
      {| l_mosaic := l_mosaic st'; l_out_order := l_out_order st';
         l_excluded := map (rough_id_of h0) failed'; l_remaining := batch |}
      h' incl' failed' /\
    l_excluded st' = map (rough_id_of h0) (failed' ++ batch) /\
    Forall (fun c => exists a, overlap_area debug h' (l_mosaic st') c = Ok a /\
                               gt a zero = false) batch /\
    (debug = false -> failed' = []) /\
    exists more, incl' = incl ++ more.
Proof.
  assert (Hdone : forall st h incl failed,
            grown h0 skylines st h incl failed ->
            (debug = false -> failed = []) ->
            l_remaining st = [] ->
            exists incl' failed' batch,
              grown h0 skylines
                {| l_mosaic := l_mosaic st; l_out_order := l_out_order st;
                   l_excluded := map (rough_id_of h0) failed';
                   l_remaining := batch |}
                h incl' failed' /\
              l_excluded st = map (rough_id_of h0) (failed' ++ batch) /\
              Forall (fun c => exists a,
                        overlap_area debug h (l_mosaic st) c = Ok a /\
                        gt a zero = false) batch /\
              (debug = false -> failed' = []) /\
              exists more, incl' = incl ++ more).
  { intros st h incl failed (Hext & Hperm & Hout & Hexc & Hmem & Hpoly) Hd Hrem.
    exists incl, failed, []. rewrite Hrem in Hperm.
    split; [unfold grown; simpl; auto 10|].
    split; [now rewrite app_nil_r|].
    split; [constructor|]. split; [exact Hd|].
    exists []. now rewrite app_nil_r. }
  induction fuel as [|fuel IH]; intros st h incl failed st' h' Hfp Hg Hd Hloop;
    simpl in Hloop; destruct (l_remaining st) as [|c rest] eqn:Hrem.
  - injection Hloop as <- <-. exact (Hdone _ _ _ _ Hg Hd Hrem).
  - discriminate.
  - injection Hloop as <- <-. exact (Hdone _ _ _ _ Hg Hd Hrem).
  - unfold bind in Hloop.
    destruct (grow_step debug st h) as [[[st1|st1]|e] h1] eqn:Hstep;
      [| |discriminate].
    + destruct (grow_step_grown _ _ _ _ _ _ _ _ _ Hfp Hg Hstep)
        as [next [Hg1|[Hdbg Hg1]]].
      * destruct (IH _ _ _ _ _ _ Hfp Hg1 Hd Hloop)
          as (incl' & failed' & batch & Hg' & Hexc' & Hb & Hd' & more & ->).
        exists (incl ++ [next] ++ more), failed', batch.
        rewrite <- app_assoc in Hg'.
        do 4 (split; [assumption|]). now exists ([next] ++ more).
      * assert (Hd1 : debug = false -> failed ++ [next] = []) by congruence.
        destruct (IH _ _ _ _ _ _ Hfp Hg1 Hd1 Hloop)
          as (incl' & failed' & batch & Hg' & Hexc' & Hb & Hd' & more & ->).
        exists (incl ++ more), failed', batch.
        do 4 (split; [assumption|]). now exists more.
    + injection Hloop as <- <-.
      destruct (grow_step_last _ _ _ _ _ _ _ _ _ Hfp Hg Hstep)
        as (-> & Hm & Ho & Hx & Hb).
      destruct Hg as (Hext & Hperm & Hout & Hexc & Hmem & Hpoly).
      exists incl, failed, (l_remaining st).
      split.
      { unfold grown. simpl. rewrite Hm, Ho. auto 10. }
      split; [now rewrite Hx, Hexc, map_app|].
      split; [now rewrite Hm|]. split; [exact Hd|].
      exists []. now rewrite app_nil_r.
Qed.

(** What a mosaic that was returned is made of. *)
Lemma mosaic_grown debug h skylines m included excluded h' :
  Forall (footprint h) skylines ->
  mosaic debug skylines h = (Ok (Some (Some m, included, excluded)), h') ->
  exists incl failed batch s1 s2 more,
    max_overlap_pair debug h skylines = Ok (Some (s1, Some s2)) /\
    incl = s1 :: s2 :: more /\
    (exists ext, h' = h ++ ext) /\
    Permutation (incl ++ failed ++ batch) skylines /\
    included = map (rough_id_of h) incl /\
    excluded = map (rough_id_of h) (failed ++ batch) /\
    members h' m = Ok (first_occurrences (concat (map (members_of h) incl))) /\
    (exists p ps q,
       mapR (poly_of h) incl = Ok (p :: ps) /\ unions p ps = Ok q /\
       poly_of h' m = Ok q) /\
    Forall (fun c => exists a, overlap_area debug h' m c = Ok a /\
                               gt a zero = false) batch /\
    (debug = false -> failed = []).
Proof.
  intros Hfp H.
  unfold mosaic, mosaic_within, bind, reads, ret, raise in H.
  destruct (max_overlap_pair debug h skylines) as [[[s1 [s2|]]|]|e] eqn:Hpair;
    try discriminate.
  pose proof Hpair as Hscan. rewrite max_overlap_pair_scan in Hscan.
  apply pair_scan_inv in Hscan; [|apply nonneg_zero].
  destruct Hscan as [[Hn _]|(i & j & x & y & a & Hij & Hi & Hj & _ & _ & Hxy)];
    [discriminate|].
  injection Hxy as <- <-.
  pose proof (list_elem_of_lookup_2 _ _ _ Hi) as Hin1.
  pose proof (list_elem_of_lookup_2 _ _ _ Hj) as Hin2.
  pose proof (proj1 (Forall_forall _ _) Hfp _ Hin1) as Hf1.
  pose proof (proj1 (Forall_forall _ _) Hfp _ Hin2) as Hf2.
  pose proof Hf1 as (p1 & m1 & Hp1 & Hm1 & Hall1).
  pose proof Hf2 as (p2 & m2 & Hp2 & Hm2 & Hall2).
  destruct (list_remove_elem _ _ Hin1) as [rem1 Hrem1].
  pose proof (list_remove_later _ _ _ _ _ _ Hij Hi Hj Hrem1) as Hin2'.
  destruct (list_remove_elem _ _ Hin2') as [rem2 Hrem2].
  destruct (SphericalPolygon.union p1 p2) as [u|e] eqn:Hu.
  2:{ rewrite (add_image_union_raise _ _ _ _ _ _ Hp1 Hp2 Hu) in H. discriminate. }
  assert (Hall : Forall (fun v => isinstance_SkyLineMember h v = true) (m1 ++ m2))
    by (apply Forall_app; auto).
  rewrite (add_image_ok _ _ _ _ _ _ _ _ Hp1 Hp2 Hu Hm1 Hm2 Hall) in H.
  rewrite !(_rough_id_ext _ _ _ _ (footprint_rough_id _ _ Hf1)) in H.
  rewrite !(_rough_id_ext _ _ _ _ (footprint_rough_id _ _ Hf2)) in H.
  rewrite Hrem1, Hrem2 in H.
  match type of H with
  | context [grow_loop debug ?f ?st ?h1] =>
      destruct (grow_loop debug f st h1) as [[[st'|]|e] h2] eqn:Hloop
  end; try discriminate.
  injection H as <- <- <- <-.
  eapply grow_loop_grown with (h0 := h) (incl := [s1; s2]) (failed := [])
    in Hloop; [|exact Hfp| |reflexivity].
  - destruct Hloop as (incl' & failed' & batch & Hg & Hexc & Hb & Hd & more & ->).
    destruct Hg as (Hext & Hperm & Hout & _ & Hmem & Hpoly). simpl in *.
    exists (s1 :: s2 :: more), failed', batch, s1, s2, more.
    auto 12.
  - unfold grown. simpl.
    split; [eexists; reflexivity|].
    split.
    { rewrite (list_remove_perm _ _ _ Hrem1), (list_remove_perm _ _ _ Hrem2).
      reflexivity. }
    do 2 (split; [reflexivity|]).
    split.
    { erewrite members_new by reflexivity. simpl.
      rewrite append_new_first_occurrences, app_nil_r.
      unfold members_of. now rewrite Hm1, Hm2. }
    exists p1, [p2], u. rewrite Hp1. simpl. rewrite Hp2. simpl.
    split; [reflexivity|]. split; [now rewrite Hu|].
    unfold poly_of, polygon, polygon_value.
    rewrite lookup_new0. simpl. now rewrite lookup_new.
Qed.

(** X16: what the mosaic is made of.  For footprints that have a polygon
    and members, the mosaic that [mosaic] returns was built from footprints
    [incl] of the list, beginning with the pair of [max_overlap_pair]: the
    inclusion list names them in this order, the members of the mosaic are
    their members in this order, each once, and its polygon is their
    polygons united from the left. *)
Theorem mosaic_is_union_of_included debug h skylines m included excluded h' :
  Forall (footprint h) skylines ->
  mosaic debug skylines h = (Ok (Some (Some m, included, excluded)), h') ->
  exists incl s1 s2 more p ps q,
    max_overlap_pair debug h skylines = Ok (Some (s1, Some s2)) /\
    incl = s1 :: s2 :: more /\
    (forall s, s ∈ incl -> s ∈ skylines) /\
    included = map (rough_id_of h) incl /\
    members h' m = Ok (first_occurrences (concat (map (members_of h) incl))) /\
    mapR (poly_of h) incl = Ok (p :: ps) /\ unions p ps = Ok q /\
    poly_of h' m = Ok q.
Proof.
  intros Hfp H.
  destruct (mosaic_grown _ _ _ _ _ _ _ Hfp H)
    as (incl & failed & batch & s1 & s2 & more & Hpair & Hincl & _ & Hperm &
        Hinc & _ & Hmem & (p & ps & q & Hps & Hq & Hpoly) & _).
  exists incl, s1, s2, more, p, ps, q.
  do 2 (split; [assumption|]).
  split.
  { intros s Hs. rewrite <- Hperm, elem_of_app. now left. }
  auto 10.
Qed.

(** X17: every footprint goes one way.  The footprints given to [mosaic]
    are, up to their order, those it united, those whose union with the
    mosaic raised, and those left when the loop stopped; the two lists it
    returns name the first, and the other two in this order.  The
    footprints left when the loop stopped have no overlap above [0.0] with
    the mosaic returned.  In the strict mode no union is skipped, so this
    holds of every excluded footprint. *)
Theorem mosaic_excluded_do_not_overlap debug h skylines m included excluded h' :
  Forall (footprint h) skylines ->
  mosaic debug skylines h = (Ok (Some (Some m, included, excluded)), h') ->
  exists incl failed batch,
    Permutation (incl ++ failed ++ batch) skylines /\
    included = map (rough_id_of h) incl /\
    excluded = map (rough_id_of h) failed ++ map (rough_id_of h) batch /\
    Forall (fun c => exists a, overlap_area debug h' m c = Ok a /\
                               gt a zero = false) batch /\
    (debug = false -> failed = []).
Proof.
  intros Hfp H.
  destruct (mosaic_grown _ _ _ _ _ _ _ Hfp H)
    as (incl & failed & batch & s1 & s2 & more & _ & _ & _ & Hperm &
        Hinc & Hexc & _ & _ & Hb & Hd).
  exists incl, failed, batch. rewrite <- map_app. auto 10.
Qed.

(** *** The tolerant mode *)

Section Tolerant.

(** The geometry library fails only with the exceptions that the module
    catches. *)
Hypothesis intersection_caught :
  forall (a b : Polygon) e,
    SphericalPolygon.intersection a b = Raise e -> caught e = true.
Hypothesis area_caught :
  forall (p : Polygon) e, SphericalPolygon.area p = Raise e -> caught e = true.
Hypothesis union_caught :
  forall (a b : Polygon) e,
    SphericalPolygon.union a b = Raise e -> caught e = true.

Lemma overlap_area_tolerant h (x y : ref) :
  footprint h x -> footprint h y -> exists a, overlap_area true h x y = Ok a.
Proof using intersection_caught area_caught.
  intros (p & ? & Hp & _) (q & ? & Hq & _).
  unfold overlap_area, intersection_area. rewrite Hp, Hq. simpl.
  destruct (SphericalPolygon.intersection p q) as [i|e] eqn:Hi; simpl.
  - destruct (SphericalPolygon.area i) as [a|e] eqn:Ha; [eauto|].
    rewrite (area_caught _ _ Ha). eauto.
  - rewrite (intersection_caught _ _ _ Hi). eauto.
Qed.

Lemma find_max_overlap_tolerant h (self : ref) l :
  footprint h self -> Forall (footprint h) l ->
  exists r, find_max_overlap true h self l = Ok r.
Proof using intersection_caught area_caught.
  intros Hs Hl. apply find_max_overlap_loop_total.
  eapply Forall_impl; [exact Hl|]. intros c Hc.
  now apply overlap_area_tolerant.
Qed.

Lemma pair_scan_tolerant h rest : forall mp m,
  Forall (footprint h) rest ->
  exists r, pair_scan true h rest mp m = Ok r.
Proof using intersection_caught area_caught.
  induction rest as [|x rest IH]; intros mp m Hall; [simpl; eauto|].
  inversion Hall as [|? ? Hx Hrest]; subst.
  destruct rest as [|y rest']; [simpl; eauto|].
  destruct (find_max_overlap_tolerant h x (y :: rest') Hx Hrest) as [r Hr].
  simpl pair_scan. rewrite Hr. simpl.
  destruct (gt (snd r) m); apply IH; exact Hrest.
Qed.

Lemma grow_step_tolerant h0 skylines st h incl failed :
  Forall (footprint h0) skylines ->
  grown h0 skylines st h incl failed ->
  exists c h', grow_step true st h = (Ok c, h').
Proof using intersection_caught area_caught union_caught.
  intros Hfp (Hext & Hperm & Hout & Hexc & Hmem & p & ps & q & Hps & Hq & Hpoly).
  destruct Hext as [ext ->].
  rewrite Forall_forall in Hfp.
  assert (Hincl : Forall (footprint h0) incl).
  { apply Forall_forall. intros s Hs. apply Hfp.
    rewrite <- Hperm, !elem_of_app. auto. }
  assert (Hrest : Forall (footprint h0) (l_remaining st)).
  { apply Forall_forall. intros s Hs. apply Hfp.
    rewrite <- Hperm, !elem_of_app. auto. }
  assert (Hmall : Forall (fun v => isinstance_SkyLineMember (h0 ++ ext) v = true)
                    (first_occurrences (concat (map (members_of h0) incl)))).
  { eapply Forall_impl; [apply included_members_isinstance, Hincl|].
    intros m. apply isinstance_SkyLineMember_ext. }
  destruct (find_max_overlap_tolerant (h0 ++ ext) (l_mosaic st) (l_remaining st))
    as [[[next|] a] Hfind].
  { exists q. eexists. split; [exact Hpoly|]. split; [exact Hmem|exact Hmall]. }
  { eapply Forall_impl; [exact Hrest|]. intros s. apply footprint_ext. }
  - rewrite (grow_step_some _ _ _ _ _ Hfind).
    pose proof (find_max_overlap_elem _ _ _ _ _ _ Hfind) as Hin.
    destruct (list_remove_elem _ _ Hin) as [rem' Hrem].
    pose proof (proj1 (Forall_forall _ _) Hrest _ Hin) as Hnext.
    pose proof (footprint_rough_id _ _ Hnext) as Hid.
    pose proof Hnext as (pn & mn & Hpn & Hmn & Hnall).
    cbv zeta. rewrite Hrem.
    destruct (SphericalPolygon.union q pn) as [u|e] eqn:Hu.
    + assert (Hall : Forall (fun v => isinstance_SkyLineMember (h0 ++ ext) v = true)
                       (first_occurrences (concat (map (members_of h0) incl)) ++ mn)).
      { apply Forall_app. split; [exact Hmall|].
        eapply Forall_impl; [exact Hnall|].
        intros m. apply isinstance_SkyLineMember_ext. }
      rewrite (add_image_ok _ _ _ _ _ _ _ _ Hpoly (poly_of_ext _ ext _ _ Hpn) Hu
                 Hmem (members_ext _ ext _ _ Hmn) Hall).
      simpl.
      rewrite (_rough_id_ext _ _ _ _ (_rough_id_ext _ ext _ _ Hid)).
      simpl. eauto.
    + rewrite (add_image_union_raise _ _ _ _ _ _ Hpoly (poly_of_ext _ ext _ _ Hpn) Hu).
      simpl. rewrite (union_caught _ _ _ Hu).
      rewrite (_rough_id_ext _ _ _ _ (_rough_id_ext _ ext _ _ Hid)).
      simpl. eauto.
  - rewrite (grow_step_none _ _ _ _ Hfind).
    rewrite footprint_rough_ids by exact Hrest. eauto.
Qed.

Lemma grow_loop_tolerant h0 skylines fuel : forall st h incl failed,
  Forall (footprint h0) skylines ->
  grown h0 skylines st h incl failed ->
  length (l_remaining st) <= fuel ->
  exists st' h', grow_loop true fuel st h = (Ok (Some st'), h').
Proof using intersection_caught area_caught union_caught.
  induction fuel as [|fuel IH]; intros st h incl failed Hfp Hg Hlen; simpl;
    destruct (l_remaining st) as [|c rest] eqn:Hrem; eauto.
  - simpl in Hlen. lia.
  - destruct (grow_step_tolerant _ _ _ _ _ _ Hfp Hg) as ([st1|st1] & h1 & Hstep);
      unfold bind; rewrite Hstep; [|eauto].
    assert (Hlen1 : length (l_remaining st1) <= fuel).
    { destruct (grow_step_continue _ _ _ _ _ Hstep) as (next & id & Hr & _).
      apply list_remove_length in Hr. rewrite Hrem in Hr. simpl in *. lia. }
    destruct (grow_step_grown _ _ _ _ _ _ _ _ _ Hfp Hg Hstep)
      as [next [Hg1|[_ Hg1]]]; eapply IH; eassumption.
Qed.

(** X18: the tolerant mode carries on.  With footprints that have a
    polygon and members, and a geometry library that fails only with
    [ValueError] or [AssertionError], [mosaic] returns a result unless the
    union of the two footprints it starts from fails; that exception is the
    only one that leaves it. *)
Theorem mosaic_tolerant_returns h skylines :
  Forall (footprint h) skylines ->
  (exists res h', mosaic true skylines h = (Ok (Some res), h')) \/
  (exists s1 s2 p q e h',
     max_overlap_pair true h skylines = Ok (Some (s1, Some s2)) /\
     poly_of h s1 = Ok p /\ poly_of h s2 = Ok q /\
     SphericalPolygon.union p q = Raise e /\
     mosaic true skylines h = (Raise e, h')).
Proof using intersection_caught area_caught union_caught.
  intros Hfp.
  destruct (pair_scan_tolerant h skylines None zero Hfp) as [mp Hscan].
  pose proof Hscan as Hpair. rewrite <- max_overlap_pair_scan in Hpair.
  apply pair_scan_inv in Hscan; [|apply nonneg_zero].
  unfold mosaic, mosaic_within, bind, reads, ret, raise. rewrite Hpair.
  destruct Hscan as [[-> _]|(i & j & s1 & s2 & a & Hij & Hi & Hj & _ & _ & ->)];
    [left; eauto|].
  pose proof (list_elem_of_lookup_2 _ _ _ Hi) as Hin1.
  pose proof (list_elem_of_lookup_2 _ _ _ Hj) as Hin2.
  pose proof (proj1 (Forall_forall _ _) Hfp _ Hin1) as Hf1.
  pose proof (proj1 (Forall_forall _ _) Hfp _ Hin2) as Hf2.
  pose proof Hf1 as (p1 & m1 & Hp1 & Hm1 & Hall1).
  pose proof Hf2 as (p2 & m2 & Hp2 & Hm2 & Hall2).
  destruct (list_remove_elem _ _ Hin1) as [rem1 Hrem1].
  pose proof (list_remove_later _ _ _ _ _ _ Hij Hi Hj Hrem1) as Hin2'.
  destruct (list_remove_elem _ _ Hin2') as [rem2 Hrem2].
  destruct (SphericalPolygon.union p1 p2) as [u|e] eqn:Hu.
  2:{ right. exists s1, s2, p1, p2, e.
      rewrite (add_image_union_raise _ _ _ _ _ _ Hp1 Hp2 Hu). eauto 10. }
  left.
  assert (Hall : Forall (fun v => isinstance_SkyLineMember h v = true) (m1 ++ m2))
    by (apply Forall_app; auto).
  rewrite (add_image_ok _ _ _ _ _ _ _ _ Hp1 Hp2 Hu Hm1 Hm2 Hall).
  rewrite !(_rough_id_ext _ _ _ _ (footprint_rough_id _ _ Hf1)).
  rewrite !(_rough_id_ext _ _ _ _ (footprint_rough_id _ _ Hf2)).
  rewrite Hrem1, Hrem2.
  match goal with
  | |- context [grow_loop true ?f ?st ?h1] =>
      destruct (grow_loop_tolerant h skylines f st h1 [s1; s2] []) as (st' & h2 & Hloop)
  end.
  - exact Hfp.
  - unfold grown. simpl.
    split; [eexists; reflexivity|].
    split.
    { rewrite (list_remove_perm _ _ _ Hrem1), (list_remove_perm _ _ _ Hrem2).
      reflexivity. }
    do 2 (split; [reflexivity|]).
    split.
    { erewrite members_new by reflexivity. simpl.
      rewrite append_new_first_occurrences, app_nil_r.
      unfold members_of. now rewrite Hm1, Hm2. }
    exists p1, [p2], u. rewrite Hp1. simpl. rewrite Hp2. simpl.
    split; [reflexivity|]. split; [now rewrite Hu|].
    unfold poly_of, polygon, polygon_value.
    rewrite lookup_new0. simpl. now rewrite lookup_new.
  - simpl. apply list_remove_length in Hrem1, Hrem2. lia.
  - rewrite Hloop. eauto.
Qed.

End Tolerant.

End MosaicGrowth.

(** ** The added properties on the files and the cell geometry *)

Lemma SkyLineMember__init__no_wcs_witness :
  Fits.pyfits_open "none.fits" = Ok ["PRIMARY"%string] /\
  Forall (fun name => upper name <> upper "SCI") ["PRIMARY"%string] /\
  SkyLineMember__init__ "none.fits" "SCI" ([] : store (list nat) Cells.geometry)
  = (Raise ValueError, []).
Proof.
  assert (H : Forall (fun name => upper name <> upper "SCI") ["PRIMARY"%string])
    by (repeat constructor; discriminate).
  split; [reflexivity|]. split; [exact H|].
  exact (proj1 (SkyLineMember__init__no_wcs "none.fits" "SCI" []) _ eq_refl H).
Defined.

Lemma SkyLineMember__init__ok_witness :
  SkyLineMember__init__ "two.fits" "sci" [] = (Ok 1, Fits.two_member) /\
  exists pf o p ws,
    Fits.pyfits_open "two.fits" = Ok pf /\
    Fits.two_member = [] ++ [ObjPolygon p; ObjMember o] /\ 1 = S (length ([] : list nat)) /\
    SkyLineMember._fname o = "two.fits"%string /\
    SkyLineMember._polygon o = 0 /\
    SkyLineMember._ext o <> [] /\
    (forall j k a b, j < k ->
       SkyLineMember._ext o !! j = Some a -> SkyLineMember._ext o !! k = Some b ->
       a < b) /\
    (forall i, i ∈ SkyLineMember._ext o <->
               exists name, pf !! i = Some name /\ upper name = upper "sci") /\
    mapR (Fits.HSTWCS "two.fits") (SkyLineMember._ext o) = Ok ws /\
    match ws with
    | [w] => SkyLineMember._wcs o = w
    | _ => Fits.output_wcs ws = Ok (SkyLineMember._wcs o)
    end /\
    Fits.from_wcs (SkyLineMember._wcs o) = Ok p.
Proof.
  split; [reflexivity|].
  exact (SkyLineMember__init__ok "two.fits" "sci" [] 1 Fits.two_member eq_refl).
Defined.

Lemma SkyLine_new_empty_witness :
  exists r h',
    SkyLine_new None "SCI" Fits.two = (Ok r, h') /\
    Fits.two !! r = None /\
    members h' r = Ok [] /\
    poly_of h' r = Ok [] /\
    _rough_id h' r = Ok None /\
    to_wcs h' r = Ok None /\
    (forall x v, Fits.two !! x = Some v -> h' !! x = Some v).
Proof. exact (SkyLine_new_empty "SCI" Fits.two). Defined.

Lemma SkyLine_new_file_witness :
  SkyLineMember__init__ "one.fits" "SCI" [] = (Ok 1, Fits.one_member) /\
  exists r h' mp c v,
    SkyLine_new (Some "one.fits"%string) "SCI" [] = (Ok r, h') /\
    Fits.one_member !! r = None /\
    members h' r = Ok [1] /\
    _rough_id h' r = Ok (Some "one.fits"%string) /\
    SkyLineMember_polygon h' 1 = Ok mp /\
    polygon h' r = Ok c /\ c <> mp /\
    polygon_value h' mp = Ok v /\ polygon_value h' c = Ok v /\
    (forall x o, Fits.one_member !! x = Some o -> h' !! x = Some o).
Proof.
  split; [reflexivity|].
  exact (proj1 (SkyLine_new_file "one.fits" "SCI" []) 1 Fits.one_member eq_refl).
Defined.

Lemma to_wcs_of_opened_witness :
  SkyLine_new (Some "two.fits"%string) "SCI" [] = (Ok 2, Fits.two) /\
  exists m o ws,
    members Fits.two 2 = Ok [m] /\
    Fits.two !! m = Some (ObjMember o) /\
    mapR (Fits.HSTWCS "two.fits") (SkyLineMember._ext o) = Ok ws /\
    to_wcs Fits.two 2 = (w ← Fits.output_wcs ws; Ok (Some w)) /\
    to_wcs Fits.two 2 <> Ok None /\
    (2 <= length ws -> to_wcs Fits.two 2 = Ok (Some (SkyLineMember._wcs o))).
Proof.
  split; [reflexivity|].
  exact (to_wcs_of_opened "two.fits" "SCI" [] 2 Fits.two eq_refl).
Defined.

Lemma to_wcs_add_image_witness :
  poly_of Fits.opened 2 = Ok [10; 11; 30; 31] /\
  poly_of Fits.opened 7 = Ok [10; 11] /\
  Cells.union [10; 11; 30; 31] [10; 11] = Ok [10; 11; 30; 31] /\
  members Fits.opened 2 = Ok [1] /\ members Fits.opened 7 = Ok [6] /\
  NoDup ([1] ++ [6]) /\
  to_wcs_list Fits.opened 2 = Ok [[10; 11]; [30; 31]] /\
  to_wcs_list Fits.opened 7 = Ok [[10; 11]] /\
  exists r h',
    add_image 2 7 Fits.opened = (Ok r, h') /\
    to_wcs_list h' r = Ok ([[10; 11]; [30; 31]] ++ [[10; 11]]) /\
    to_wcs h' r = Ok (Some [10; 11; 30; 31; 10; 11]).
Proof.
  assert (Hnd : NoDup ([1] ++ [6])) by (apply (bool_decide_unpack _); reflexivity).
  do 5 (split; [reflexivity|]). split; [exact Hnd|].
  do 2 (split; [reflexivity|]).
  exact (to_wcs_add_image Fits.opened 2 7 _ _ _ [1] [6] _ _
           eq_refl eq_refl eq_refl eq_refl eq_refl Hnd eq_refl eq_refl).
Defined.

Lemma find_max_overlap_result_witness :
  find_max_overlap true Cells.tie 2 [7; 12; 17] = Ok (Some 7, PyFloat.of_nat 5) /\
  Forall (fun c => exists a', overlap_area true Cells.tie 2 c = Ok a' /\
                              PyFloat.gt a' (PyFloat.of_nat 5) = false)
         [7; 12; 17] /\
  7 ∈ [7; 12; 17] /\
  overlap_area true Cells.tie 2 7 = Ok (PyFloat.of_nat 5) /\
  PyFloat.gt (PyFloat.of_nat 5) PyFloat.zero = true.
Proof.
  split; [reflexivity|].
  exact (proj1 (find_max_overlap_result true Cells.tie 2 [7; 12; 17])
               (Some 7) _ eq_refl).
Defined.

Lemma find_max_overlap_permutation_witness :
  Permutation [7; 12; 17] [12; 7; 17] /\
  find_max_overlap true Cells.tie 2 [7; 12; 17] = Ok (Some 7, PyFloat.of_nat 5) /\
  exists ms',
    find_max_overlap true Cells.tie 2 [12; 7; 17] = Ok (ms', PyFloat.of_nat 5) /\
    (Some 7 = None <-> ms' = None).
Proof.
  assert (Hp : Permutation [7; 12; 17] [12; 7; 17]) by apply perm_swap.
  split; [exact Hp|]. split; [reflexivity|].
  exact (find_max_overlap_permutation true Cells.tie 2 _ _ _ _ Hp eq_refl).
Defined.

Lemma max_overlap_pair_result_witness :
  max_overlap_pair true Cells.growth [2; 7; 12; 17] = Ok (Some (2, Some 7)) /\
  exists i j s2 a,
    Some 7 = Some s2 /\ i < j /\
    [2; 7; 12; 17] !! i = Some 2 /\ [2; 7; 12; 17] !! j = Some s2 /\
    overlap_area true Cells.growth 2 s2 = Ok a /\
    PyFloat.gt a PyFloat.zero = true.
Proof.
  split; [reflexivity|].
  exact (max_overlap_pair_result true Cells.growth [2; 7; 12; 17]
           (Some (2, Some 7)) eq_refl).
Defined.

Lemma add_image_members_laws_witness :
  poly_of Cells.overlapping 2 = Ok [1; 2; 3] /\
  poly_of Cells.overlapping 7 = Ok [2; 3; 4] /\
  members Cells.overlapping 2 = Ok [1] /\
  members Cells.overlapping 7 = Ok [6] /\
  Forall (fun v => isinstance_SkyLineMember Cells.overlapping v = true) ([1] ++ [6]) /\
  NoDup [1] /\
  exists r1 h1 r2 h2 r3 h3 m1 m2,
    add_image 2 7 Cells.overlapping = (Ok r1, h1) /\
    add_image 7 2 Cells.overlapping = (Ok r2, h2) /\
    add_image 2 2 Cells.overlapping = (Ok r3, h3) /\
    members h1 r1 = Ok m1 /\ members h2 r2 = Ok m2 /\
    Permutation m1 m2 /\
    members h3 r3 = Ok [1].
Proof.
  assert (Hall : Forall (fun v => isinstance_SkyLineMember Cells.overlapping v = true)
                        ([1] ++ [6])) by (repeat constructor).
  assert (Hnd : NoDup [1]) by (apply (bool_decide_unpack _); reflexivity).
  do 4 (split; [reflexivity|]). split; [exact Hall|]. split; [exact Hnd|].
  exact (add_image_members_laws Cells.overlapping 2 7 _ _ _ _ _ [1] [6]
           eq_refl eq_refl eq_refl eq_refl Hall Hnd eq_refl eq_refl eq_refl).
Defined.

Lemma members_setter_invariant_witness :
  members_setter 2 [1; 6; 1] Cells.opened_twice
  = (Ok tt, snd (members_setter 2 [1; 6; 1] Cells.opened_twice)) /\
  exists ms,
    members (snd (members_setter 2 [1; 6; 1] Cells.opened_twice)) 2 = Ok ms /\
    NoDup ms /\
    (forall m, m ∈ ms <-> m ∈ [1; 6; 1]) /\
    Forall (fun m => isinstance_SkyLineMember
                       (snd (members_setter 2 [1; 6; 1] Cells.opened_twice)) m
                     = true) ms /\
    members_setter 2 ms (snd (members_setter 2 [1; 6; 1] Cells.opened_twice))
    = (Ok tt, snd (members_setter 2 [1; 6; 1] Cells.opened_twice)).
Proof.
  split; [reflexivity|].
  exact (members_setter_invariant Cells.opened_twice 2 [1; 6; 1] _ eq_refl).
Defined.

Lemma members_setter_fails_midway_witness :
  Cells.opened_twice !! 2
  = Some (ObjSkyLine {| SkyLine._polygon := Some 4; SkyLine._members := Some [1] |}) /\
  Forall (fun v => isinstance_SkyLineMember Cells.opened_twice v = true) [6; 1; 6] /\
  isinstance_SkyLineMember Cells.opened_twice 0 = false /\
  exists h',
    members_setter 2 ([6; 1; 6] ++ 0 :: [1]) Cells.opened_twice
    = (Raise AssertionError, h') /\
    members h' 2 = Ok (first_occurrences [6; 1; 6]) /\
    polygon h' 2 = polygon Cells.opened_twice 2 /\
    forall r : ref, r <> 2 -> h' !! r = Cells.opened_twice !! r.
Proof.
  assert (Hall : Forall (fun v => isinstance_SkyLineMember Cells.opened_twice v = true)
                        [6; 1; 6]) by (repeat constructor).
  split; [reflexivity|]. split; [exact Hall|]. split; [reflexivity|].
  exact (members_setter_fails_midway Cells.opened_twice 2 _ [6; 1; 6] 0 [1]
           eq_refl Hall eq_refl).
Defined.

Lemma add_image_rough_id_witness :
  poly_of Cells.overlapping 2 = Ok [1; 2; 3] /\
  poly_of Cells.overlapping 7 = Ok [2; 3; 4] /\
  members Cells.overlapping 2 = Ok [1] /\
  members Cells.overlapping 7 = Ok [6] /\
  Forall (fun v => isinstance_SkyLineMember Cells.overlapping v = true) ([1] ++ [6]) /\
  exists r h',
    add_image 2 7 Cells.overlapping = (Ok r, h') /\
    _rough_id h' r = _rough_id Cells.overlapping 2.
Proof.
  assert (Hall : Forall (fun v => isinstance_SkyLineMember Cells.overlapping v = true)
                        ([1] ++ [6])) by (repeat constructor).
  do 4 (split; [reflexivity|]). split; [exact Hall|].
  exact (add_image_rough_id Cells.overlapping 2 7 _ _ _ [1] [6]
           eq_refl eq_refl eq_refl eq_refl Hall eq_refl).
Defined.

Lemma operations_only_add_objects_witness :
  add_image 2 17 Cells.faulty
  = (Raise ValueError, snd (add_image 2 17 Cells.faulty)) /\
  forall x o, Cells.faulty !! x = Some o ->
              snd (add_image 2 17 Cells.faulty) !! x = Some o.
Proof.
  split; [reflexivity|].
  exact (proj1 (operations_only_add_objects true Cells.faulty) 2 17 _ _ eq_refl).
Defined.

Lemma mosaic_returns_none_witness :
  length [2] <= 1 /\
  mosaic true [2] Cells.overlapping = (Ok (Some (None, [], [])), Cells.overlapping).
Proof.
  assert (H : length [2] <= 1) by (simpl; lia).
  split; [exact H|].
  exact (proj1 (mosaic_returns_none true [2] Cells.overlapping) H).
Defined.

Lemma growth_footprints : Forall (footprint Cells.growth) [2; 7; 12; 17].
Proof.
  repeat (match goal with |- Forall _ _ => constructor end);
    (eexists _, _; split; [reflexivity|]; split; [reflexivity|];
     repeat constructor).
Qed.

Lemma mosaic_is_union_of_included_witness :
  Forall (footprint Cells.growth) [2; 7; 12; 17] /\
  mosaic true [2; 7; 12; 17] Cells.growth
  = (Ok (Some (Some 25, [Some "F1"%string; Some "F2"%string; Some "F3"%string],
               [Some "F4"%string])),
     snd (mosaic true [2; 7; 12; 17] Cells.growth)) /\
  exists incl s1 s2 more p ps q,
    max_overlap_pair true Cells.growth [2; 7; 12; 17] = Ok (Some (s1, Some s2)) /\
    incl = s1 :: s2 :: more /\
    (forall s, s ∈ incl -> s ∈ [2; 7; 12; 17]) /\
    [Some "F1"%string; Some "F2"%string; Some "F3"%string]
    = map (rough_id_of Cells.growth) incl /\
    members (snd (mosaic true [2; 7; 12; 17] Cells.growth)) 25
    = Ok (first_occurrences (concat (map (members_of Cells.growth) incl))) /\
    mapR (poly_of Cells.growth) incl = Ok (p :: ps) /\ unions p ps = Ok q /\
    poly_of (snd (mosaic true [2; 7; 12; 17] Cells.growth)) 25 = Ok q.
Proof.
  split; [exact growth_footprints|]. split; [reflexivity|].
  exact (mosaic_is_union_of_included true Cells.growth [2; 7; 12; 17] 25 _ _ _
           growth_footprints eq_refl).
Defined.

Lemma mosaic_excluded_do_not_overlap_witness :
  Forall (footprint Cells.growth) [2; 7; 12; 17] /\
  mosaic false [2; 7; 12; 17] Cells.growth
  = (Ok (Some (Some 25, [Some "F1"%string; Some "F2"%string; Some "F3"%string],
               [Some "F4"%string])),
     snd (mosaic false [2; 7; 12; 17] Cells.growth)) /\
  exists incl failed batch,
    Permutation (incl ++ failed ++ batch) [2; 7; 12; 17] /\
    [Some "F1"%string; Some "F2"%string; Some "F3"%string]
    = map (rough_id_of Cells.growth) incl /\
    [Some "F4"%string]
    = map (rough_id_of Cells.growth) failed ++ map (rough_id_of Cells.growth) batch /\
    Forall (fun c => exists a,
              overlap_area false (snd (mosaic false [2; 7; 12; 17] Cells.growth)) 25 c
              = Ok a /\ PyFloat.gt a PyFloat.zero = false) batch /\
    (false = false -> failed = []).
Proof.
  split; [exact growth_footprints|]. split; [reflexivity|].
  exact (mosaic_excluded_do_not_overlap false Cells.growth [2; 7; 12; 17] 25 _ _ _
           growth_footprints eq_refl).
Defined.

Lemma mosaic_tolerant_returns_witness :
  (forall (a b : list nat) e, Cells.intersection a b = Raise e -> caught e = true) /\
  (forall (p : list nat) e, Cells.area p = Raise e -> caught e = true) /\
  (forall (a b : list nat) e, Cells.union a b = Raise e -> caught e = true) /\
  Forall (footprint Cells.faulty) [2; 7; 12; 17] /\
  ((exists res h', mosaic true [2; 7; 12; 17] Cells.faulty = (Ok (Some res), h')) \/
   (exists s1 s2 p q e h',
      max_overlap_pair true Cells.faulty [2; 7; 12; 17] = Ok (Some (s1, Some s2)) /\
      poly_of Cells.faulty s1 = Ok p /\ poly_of Cells.faulty s2 = Ok q /\
      Cells.union p q = Raise e /\
      mosaic true [2; 7; 12; 17] Cells.faulty = (Raise e, h'))).
Proof.
  assert (Hi : forall (a b : list nat) e,
            Cells.intersection a b = Raise e -> caught e = true).
  { intros a b e. unfold Cells.intersection.
    destruct (bool_decide (99 ∈ b)); [|discriminate]. now intros [= <-]. }
  assert (Ha : forall (p : list nat) e, Cells.area p = Raise e -> caught e = true)
    by (intros p e; discriminate).
  assert (Hu : forall (a b : list nat) e,
            Cells.union a b = Raise e -> caught e = true).
  { intros a b e. unfold Cells.union.
    destruct (bool_decide (77 ∈ b)); [|discriminate]. now intros [= <-]. }
  assert (Hf : Forall (footprint Cells.faulty) [2; 7; 12; 17]).
  { repeat (match goal with |- Forall _ _ => constructor end);
      (eexists _, _; split; [reflexivity|]; split; [reflexivity|];
       repeat constructor). }
  do 3 (split; [assumption|]). split; [exact Hf|].
  exact (mosaic_tolerant_returns (WCS := unit) Hi Ha Hu Cells.faulty [2; 7; 12; 17] Hf).
Defined.
